(** * Hybrid retrieval engine: a shallow embedding and its verified properties

    The development follows the Python sources of the worker:

    - [local_reranker_server.py]            (module [RerankerServer])
    - [services/local_reranking_service.py] (module [LocalReranking])
    - [services/search_service.py]          (modules [Tokenizer], [Fusion],
                                             [Relevance], [Search])
    - [services/cache_service.py]           (module [Cache])
    - [services/connection_pool.py]         (modules [Pool], [PoolUse])
    - [tasks.py]                            (modules [Tasks], [Queries])
    - [services/database_service.py]        (modules [Tasks], [Queries])
    - [services/query_expansion_service.py] (module [QueryExpansion])

    [SearchService.batch_hybrid_search] is in module [Batch].

    Conventions.  Python [int] is [Z]; Python [float] is idealised as an exact
    rational [Q] (no rounding, no overflow, no NaN); [str] is [string]; a
    [dict] whose iteration order matters is an association list in insertion
    order, other dictionaries are [gmap]s; an exception is an explicit error
    value.  Collaborators that live outside the repository (the cross-encoder,
    the morphological analyser, the BM25 scorer, the vector store's distance)
    are section variables: every theorem holds for all of them. *)

From Stdlib Require Import ZArith QArith Qminmax Lqa List String Ascii Bool Lia.
From Stdlib Require Import Sorting.Sorted Sorting.Permutation.
From stdpp Require Import base option list sorting gmap strings pretty.

#[local] Set Warnings "-clear-no-such-hyp".
Local Open Scope Z_scope.

(** ** Python built-ins used by the sources *)

Module Py.

(** [xs[:k]]: a negative stop counts from the end. *)
Definition slice_to {A : Type} (k : Z) (xs : list A) : list A :=
  if 0 <=? k then take (Z.to_nat k) xs
  else take (length xs - Z.to_nat (- k)) xs.

(** [xs[i]]: a negative index counts from the end; [None] is [IndexError]. *)
Definition index {A : Type} (xs : list A) (i : Z) : option A :=
  if 0 <=? i then xs !! Z.to_nat i
  else if - Z.of_nat (length xs) <=? i
       then xs !! Z.to_nat (Z.of_nat (length xs) + i)
       else None.

(** [enumerate(xs, start)] *)
Fixpoint enumerate_from {A : Type} (start : Z) (xs : list A) : list (Z * A) :=
  match xs with
  | [] => []
  | x :: xs' => (start, x) :: enumerate_from (start + 1) xs'
  end.

Definition enumerate {A : Type} (xs : list A) : list (Z * A) :=
  enumerate_from 0 xs.

(** [max(xs)] and [min(xs)] on floats: the first extremal element is kept, so
    the running value changes only on a strict improvement. *)
Definition max_from (x : Q) (xs : list Q) : Q :=
  fold_left (fun m y => if Qlt_le_dec m y then y else m) xs x.

Definition min_from (x : Q) (xs : list Q) : Q :=
  fold_left (fun m y => if Qlt_le_dec y m then y else m) xs x.

(** A [dict] with string keys in insertion order: assigning to a present key
    keeps its place, assigning to a new key appends it. *)
Definition dict (V : Type) : Type := list (string * V).

Fixpoint dict_get {V : Type} (d : dict V) (k : string) : option V :=
  match d with
  | [] => None
  | (k', v) :: d' => if String.eqb k k' then Some v else dict_get d' k
  end.

Fixpoint dict_set {V : Type} (d : dict V) (k : string) (v : V) : dict V :=
  match d with
  | [] => [(k, v)]
  | (k', v') :: d' =>
      if String.eqb k k' then (k', v) :: d' else (k', v') :: dict_set d' k v
  end.

Definition dict_mem {V : Type} (d : dict V) (k : string) : bool :=
  match dict_get d k with Some _ => true | None => false end.

Definition dict_keys {V : Type} (d : dict V) : list string := map fst d.

(** A [for] loop whose body may raise: the state is threaded through the
    elements, and the first exception ends the loop. *)
Fixpoint for_each {S E : Type} (body : S -> E -> option S) (es : list E) (st : S)
  : option S :=
  match es with
  | [] => Some st
  | e :: es' => st' ← body st e; for_each body es' st'
  end.

Section StableSort.
Context {A : Type} (key : A -> Q).

(** [list.sort(key=..., reverse=True)] and [sorted(..., reverse=True)]: the
    sort is stable, also in reverse, so an element is placed before the first
    one whose key does not exceed its own. *)
Fixpoint insert_desc (x : A) (l : list A) : list A :=
  match l with
  | [] => [x]
  | y :: l' => if Qle_bool (key y) (key x) then x :: l else y :: insert_desc x l'
  end.

Definition sort_desc (l : list A) : list A := fold_right insert_desc [] l.

(** Descending order of the keys. *)
Definition desc (l : list A) : Prop :=
  StronglySorted (fun a b => (key b <= key a)%Q) l.

End StableSort.

End Py.

(** ** [local_reranker_server.py]: the cross-encoder endpoint *)

Module RerankerServer.

(** One entry of the response's [results] list. *)
Record item := Item {
  index : Z;
  score : Q;
  raw_logit : option Q;
  document : string
}.

(** The [RerankResponse], or the [HTTPException(500)] raised from the handler's
    [except] branch. *)
Inductive response :=
| Ok200 (results : list item)
| Http500.

Section Rerank.
(** [np.exp(scores_array * amplification_factor)] with factor [100], taken
    element by element; the exponential itself is not rational. *)
Variable amplify : Q -> Q.

Definition np_max (xs : list Q) : Q :=
  match xs with [] => 0%Q | x :: xs' => Py.max_from x xs' end.

Definition np_min (xs : list Q) : Q :=
  match xs with [] => 0%Q | x :: xs' => Py.min_from x xs' end.

(** Normalisation into the range 0-10, or the constant 5.0 when the amplified
    scores do not differ. *)
Definition final_scores (amplified_scores : list Q) : list Q :=
  let min_amplified := np_min amplified_scores in
  let max_amplified := np_max amplified_scores in
  if Qlt_le_dec min_amplified max_amplified
  then map (fun a => ((a - min_amplified) / (max_amplified - min_amplified) * 10)%Q)
           amplified_scores
  else map (fun _ => 5%Q) amplified_scores.

(** The loop over [enumerate(zip(scores_array, final_scores))]; reading
    [request.documents[i]] past the end raises. *)
Fixpoint build_results (i : Z) (zipped : list (Q * Q)) (documents : list string)
  : option (list item) :=
  match zipped with
  | [] => Some []
  | (raw_score, final_score) :: rest =>
      doc ← Py.index documents i;
      tail ← build_results (i + 1) rest documents;
      Some (Item i final_score (Some raw_score) doc :: tail)
  end.

(** The body of the handler after [model.predict]: [scores] are the raw
    logits, one per (query, document) pair. *)
Definition postprocess (scores : list Q) (documents : list string) (top_k : Z)
  : option (list item) :=
  let amplified_scores := map amplify scores in
  let finals := final_scores amplified_scores in
  results ← build_results 0 (zip scores finals) documents;
  let sorted := Py.sort_desc score results in
  Some (Py.slice_to top_k sorted).

(** [rerank_documents] for a loaded model whose forward pass is [predict]. *)
Definition rerank_documents (predict : string -> list string -> list Q)
    (query : string) (documents : list string) (top_k : Z) : response :=
  match documents with
  | [] => Ok200 []
  | _ => match postprocess (predict query documents) documents top_k with
         | Some top_results => Ok200 top_results
         | None => Http500
         end
  end.

End Rerank.

(** A rational stand-in for the exponential, exact at logit 0 (where
    [exp(0) = 1]), positive and increasing; it only serves to run examples. *)
Definition amplify_example (r : Q) : Q :=
  if Qlt_le_dec r 0 then (1 / (1 - r * 100))%Q else (1 + r * 100)%Q.

End RerankerServer.

(** ** [services/local_reranking_service.py]: the client of that endpoint *)

Module LocalReranking.
Import RerankerServer.

(** What [response.json()] yields: text that is no JSON, an object without the
    key [results], or an object with it. *)
Inductive json_body :=
| NotJson
| NoResultsKey
| Results (results : list item).

(** What [requests.post] does. *)
Inductive post_outcome :=
| Timeout
| ConnectionError
| OtherError
| Response (status_code : Z) (body : json_body).

(** [_fallback_results] *)
Definition _fallback_results (documents : list string) (top_k : Z) : list item :=
  map (fun '(i, doc) => Item i 0.5 None doc)
      (Py.enumerate (Py.slice_to top_k documents)).

(** [rerank_results]; every [except] branch ends in the fallback. *)
Definition rerank_results (post : post_outcome) (documents : list string)
    (top_k : Z) : list item :=
  match documents with
  | [] => []
  | _ =>
    match post with
    | Timeout => _fallback_results documents top_k
    | ConnectionError => _fallback_results documents top_k
    | OtherError => _fallback_results documents top_k
    | Response status_code body =>
        if negb (status_code =? 200) then _fallback_results documents top_k
        else match body with
             | Results results => results
             | NotJson | NoResultsKey => _fallback_results documents top_k
             end
    end
  end.

(** The server is unreachable, timed out, or answered with another status. *)
Definition server_failed (post : post_outcome) : bool :=
  match post with
  | Timeout | ConnectionError | OtherError => true
  | Response status_code _ => negb (status_code =? 200)
  end.

End LocalReranking.

(** ** [services/search_service.py]: the records passed between the stages *)

Module Retrieval.

(** The metadata dictionary of a chunk, with the keys the retriever reads;
    [None] is an absent key. *)
Record metadata := Metadata {
  doc_id : option string;
  chunk_index : option Z;
  access_level : option Z;
  doc_title : option string
}.

Inductive leg := vector | bm25 | hybrid.

(** The [query_expansion] entry of a BM25 record. *)
Record expansion := Expansion {
  original_query : string;
  expanded_query : string;
  expansion_applied : bool;
  synonyms_added : Z
}.

(** A search record: a dictionary with the keys [id], [content], [metadata],
    [score], [type], [rank], and, once a later stage has added them,
    [query_expansion], [rrf_score], [rerank_score] and [final_rank]. *)
Record result := Result {
  id : string;
  content : string;
  meta : metadata;
  score : Q;
  type : leg;
  rank : Z;
  query_expansion : option expansion;
  rrf_score : option Q;
  rerank_score : option Q;
  final_rank : option Z
}.

(** [result.update({"rrf_score": s, "type": "hybrid", "rank": r})] *)
Definition update_fused (r : result) (s : Q) (rk : Z) : result :=
  Result (id r) (content r) (meta r) (score r) hybrid rk
         (query_expansion r) (Some s) (rerank_score r) (final_rank r).

(** [result.update({"rerank_score": s, "final_rank": n})] *)
Definition update_reranked (r : result) (s : Q) (n : Z) : result :=
  Result (id r) (content r) (meta r) (score r) (type r) (rank r)
         (query_expansion r) (rrf_score r) (Some s) (Some n).

(** The keyword arguments of [hybrid_search], as they enter the cache key. *)
Record search_params := SearchParams {
  top_k : Z;
  rerank_top_k : Z;
  vector_weight : Q;
  bm25_weight : Q
}.

(** The dictionary [hybrid_search] returns (timings and embedding metrics
    carry no information for the properties below and are left out). *)
Record report := Report {
  success : bool;
  query : string;
  report_access_level : Z;
  vector_results_count : nat;
  bm25_results_count : nat;
  fused_results_count : nat;
  final_results_count : nat;
  results : list result;
  weights : Q * Q;
  from_cache : bool
}.

Definition set_from_cache (b : bool) (r : report) : report :=
  Report (success r) (query r) (report_access_level r) (vector_results_count r)
         (bm25_results_count r) (fused_results_count r) (final_results_count r)
         (results r) (weights r) b.

(** The dictionary cached for a BM25 index: the index object (its tokenised
    corpus), the documents, their metadata, the chunk ids and the clearance
    level the index was built for. *)
Record bm25_data := Bm25Data {
  bm25_index : list (list string);
  docs : list string;
  metadatas : list metadata;
  bm25_ids : list string;
  built_for : Z
}.

End Retrieval.

(** ** [SearchService._rerank_results]: reranking and adaptive thresholds *)

Module Relevance.
Import Retrieval.

(** [r["rerank_score"]] of a record that carries the key. *)
Definition score_of (r : result) : Q := default 0%Q (rerank_score r).

(** The loop that pairs each reranked entry with the record at its
    [index]; [None] is the [IndexError] of an index below [-len(results)]. *)
Fixpoint align (results : list result) (reranked : list RerankerServer.item)
    (all_reranked_results : list result) : option (list result) :=
  match reranked with
  | [] => Some all_reranked_results
  | rerank_result :: rest =>
      let original_index := RerankerServer.index rerank_result in
      if original_index <? Z.of_nat (length results) then
        r ← Py.index results original_index;
        align results rest
          (all_reranked_results ++
           [update_reranked r (RerankerServer.score rerank_result)
              (Z.of_nat (length all_reranked_results) + 1)])
      else align results rest all_reranked_results
  end.

Definition best_of (scores : list Q) : Q :=
  match scores with [] => 0%Q | x :: xs => Py.max_from x xs end.

Definition worst_of (scores : list Q) : Q :=
  match scores with [] => 0%Q | x :: xs => Py.min_from x xs end.

(** [(HIGH_RELEVANCE_THRESHOLD, GENERAL_CHAT_THRESHOLD)] *)
Definition thresholds (best_score score_range : Q) : Q * Q :=
  if Qlt_le_dec 2.0 score_range then
    ((best_score * 0.8)%Q, (best_score * 0.4)%Q)
  else if Qlt_le_dec 1.0 score_range then
    ((best_score * 0.7)%Q, (best_score * 0.3)%Q)
  else
    ((best_score - 0.1)%Q, (best_score * 0.5)%Q).

(** The part of [_rerank_results] after the alignment loop. *)
Definition adaptive_filter (all_reranked_results : list result) : list result :=
  match all_reranked_results with
  | [] => []
  | _ =>
    let scores := map score_of all_reranked_results in
    let best_score := best_of scores in
    let worst_score := worst_of scores in
    let score_range := (best_score - worst_score)%Q in
    let '(HIGH_RELEVANCE_THRESHOLD, GENERAL_CHAT_THRESHOLD) :=
      thresholds best_score score_range in
    if Qlt_le_dec best_score GENERAL_CHAT_THRESHOLD then []
    else
      let filtered_results :=
        List.filter (fun r => Qle_bool HIGH_RELEVANCE_THRESHOLD (score_of r))
                    all_reranked_results in
      match filtered_results with
      | [] => []
      | _ => filtered_results
      end
  end.

Section Rerank.
(** [self.reranking_service.rerank_results]; [None] is a raised exception. *)
Variable reranking_service : string -> list string -> Z -> option (list RerankerServer.item).

Definition _rerank_results (query : string) (results : list result) (top_k : Z)
  : list result :=
  match results with
  | [] => []
  | _ =>
    let documents := map content results in
    match reranking_service query documents top_k with
    | None => Py.slice_to top_k results
    | Some reranked =>
        match align results reranked [] with
        | None => Py.slice_to top_k results
        | Some all_reranked_results => adaptive_filter all_reranked_results
        end
    end
  end.

End Rerank.

End Relevance.

(** ** [SearchService._rrf_fusion]: reciprocal rank fusion *)

Module Fusion.
Import Retrieval.

(** [weight * (1.0 / (k + rank + 1))]; [None] is [ZeroDivisionError]. *)
Definition contribution (weight : Q) (k rank : Z) : option Q :=
  if k + rank + 1 =? 0 then None
  else Some (weight * (1 / inject_Z (k + rank + 1)))%Q.

(** [rrf_scores.get(doc_id, 0)] *)
Definition get_score (rrf_scores : Py.dict Q) (doc_id : string) : Q :=
  default 0%Q (Py.dict_get rrf_scores doc_id).

Definition state : Type := Py.dict Q * Py.dict result.

(** Body of the loop over [enumerate(vector_results)]. *)
Definition vector_step (vector_weight : Q) (k : Z) (st : state) (e : Z * result)
  : option state :=
  let '(rrf_scores, all_docs) := st in
  let '(rank, result) := e in
  let doc_id := id result in
  rrf_score ← contribution vector_weight k rank;
  Some (Py.dict_set rrf_scores doc_id (get_score rrf_scores doc_id + rrf_score)%Q,
        Py.dict_set all_docs doc_id result).

(** Body of the loop over [enumerate(bm25_results)]: a record is stored only
    for an id the vector leg has not stored. *)
Definition bm25_step (bm25_weight : Q) (k : Z) (st : state) (e : Z * result)
  : option state :=
  let '(rrf_scores, all_docs) := st in
  let '(rank, result) := e in
  let doc_id := id result in
  rrf_score ← contribution bm25_weight k rank;
  Some (Py.dict_set rrf_scores doc_id (get_score rrf_scores doc_id + rrf_score)%Q,
        if Py.dict_mem all_docs doc_id then all_docs
        else Py.dict_set all_docs doc_id result).

(** Body of the loop over [enumerate(sorted_docs)]. *)
Definition emit (all_docs : Py.dict result) (e : Z * (string * Q)) : list result :=
  let '(rank, (doc_id, rrf_score)) := e in
  match Py.dict_get all_docs doc_id with
  | Some r => [update_fused r rrf_score (rank + 1)]
  | None => []
  end.

Definition fuse (vector_results bm25_results : list result)
    (vector_weight bm25_weight : Q) (k : Z) : option (list result) :=
  st1 ← Py.for_each (vector_step vector_weight k) (Py.enumerate vector_results) ([], []);
  st2 ← Py.for_each (bm25_step bm25_weight k) (Py.enumerate bm25_results) st1;
  let '(rrf_scores, all_docs) := st2 in
  let sorted_docs := Py.sort_desc snd rrf_scores in
  Some (flat_map (emit all_docs) (Py.enumerate sorted_docs)).

(** [_rrf_fusion]; the [except] branch returns the vector results. *)
Definition _rrf_fusion (vector_results bm25_results : list result)
    (vector_weight bm25_weight : Q) (k : Z) : list result :=
  match fuse vector_results bm25_results vector_weight bm25_weight k with
  | Some fused_results => fused_results
  | None => vector_results
  end.

(** The default [k: int = 60]. *)
Definition default_k : Z := 60.

End Fusion.

(** ** Exceptions and state *)

Module Eff.

Inductive exn :=
| RedisError
| DecodeError
| LookupError
| ServiceError.

Inductive outcome (A : Type) :=
| Return (a : A)
| Raise (e : exn).
Arguments Return {A} a.
Arguments Raise {A} e.

(** A computation over a state [S] that returns or raises. *)
Definition M (S A : Type) : Type := S -> outcome A * S.

Definition ret {S A : Type} (a : A) : M S A := fun s => (Return a, s).
Definition raise {S A : Type} (e : exn) : M S A := fun s => (Raise e, s).

Definition bind {S A B : Type} (m : M S A) (k : A -> M S B) : M S B :=
  fun s => match m s with
           | (Return a, s') => k a s'
           | (Raise e, s') => (Raise e, s')
           end.

(** [try: body except Exception as e: handler] *)
Definition try_except {S A : Type} (body : M S A) (handler : exn -> M S A) : M S A :=
  fun s => match body s with
           | (Return a, s') => (Return a, s')
           | (Raise e, s') => handler e s'
           end.

Definition get_state {S : Type} : M S S := fun s => (Return s, s).
Definition put_state {S : Type} (s' : S) : M S unit := fun _ => (Return tt, s').

(** Run a computation on a component of the state. *)
Definition zoom {S T A : Type} (get : S -> T) (set : T -> S -> S) (m : M T A) : M S A :=
  fun s => let '(o, t') := m (get s) in (o, set t' s).

Definition returned {A : Type} (o : outcome A) : Prop :=
  match o with Return _ => True | Raise _ => False end.

End Eff.

Notation "'do' x <- m ; k" := (Eff.bind m (fun x => k))
  (at level 10, x name, m at level 100, k at level 200).

(** ** [services/cache_service.py]: the cache in front of Redis *)

Module Cache.
Import Retrieval Eff.

(** What a key holds: the JSON text of a report, a pickled BM25 dictionary,
    or text that neither [json.loads] nor [pickle.loads] accepts. *)
Inductive entry :=
| SearchEntry (r : report)
| Bm25Entry (d : bm25_data)
| Corrupt (text : string).

(** The Redis server as the client sees it: the keys with their values and
    time-to-live, and a schedule saying which of the coming commands fail
    (connection reset, timeout, server error); no entry means no fault. *)
Record redis := Redis {
  faults : list bool;
  db : gmap string (entry * Z)
}.

Definition command {A : Type} (run : gmap string (entry * Z) -> A * gmap string (entry * Z))
  : M redis A :=
  fun r =>
    match faults r with
    | true :: rest => (Raise RedisError, Redis rest (db r))
    | false :: rest => let '(a, db') := run (db r) in (Return a, Redis rest db')
    | [] => let '(a, db') := run (db r) in (Return a, Redis [] db')
    end.

(** [redis_client.get] *)
Definition redis_get (key : string) : M redis (option entry) :=
  command (fun d => (fst <$> d !! key, d)).

(** [redis_client.setex] *)
Definition redis_setex (key : string) (ttl : Z) (value : entry) : M redis bool :=
  command (fun d => (true, <[key := (value, ttl)]> d)).

(** [redis_client.keys(prefix + "*")] *)
Definition redis_keys (prefix : string) : M redis (list string) :=
  command (fun d => (List.filter (String.prefix prefix) (map fst (map_to_list d)), d)).

(** [redis_client.delete] on a list of keys: the number of keys removed. *)
Definition redis_delete (keys : list string) : M redis Z :=
  command (fun d =>
    (Z.of_nat (length (List.filter (fun k => bool_decide (is_Some (d !! k)))
                                   (remove_dups keys))),
     foldr delete d keys)).

Definition json_loads (e : entry) : M redis report :=
  match e with SearchEntry r => ret r | _ => raise DecodeError end.

Definition pickle_loads (e : entry) : M redis bm25_data :=
  match e with Bm25Entry d => ret d | _ => raise DecodeError end.

Definition search_cache_ttl : Z := 3600.
Definition bm25_cache_ttl : Z := 7200.
Definition search_prefix : string := "search_cache:".
Definition bm25_prefix : string := "bm25_cache:".

(** [ttl or default] *)
Definition ttl_or (ttl : option Z) (default : Z) : Z :=
  match ttl with
  | Some t => if t =? 0 then default else t
  | None => default
  end.

Section Service.
(** [hashlib.md5(json.dumps({"query": query.strip().lower(), "access_level":
    access_level, "params": search_params or {}}, sort_keys=True)).hexdigest()] *)
Variable cache_hash : string -> Z -> option search_params -> string.

Definition _generate_search_cache_key (query : string) (access_level : Z)
    (search_params : option search_params) : string :=
  search_prefix +:+ cache_hash query access_level search_params.

Definition bm25_cache_key (access_level : Z) : string :=
  bm25_prefix +:+ "index_" +:+ pretty access_level.

Definition get_cached_search_results (query : string) (access_level : Z)
    (search_params : option search_params) : M redis (option report) :=
  try_except
    (let cache_key := _generate_search_cache_key query access_level search_params in
     do cached_data <- redis_get cache_key ;
     match cached_data with
     | Some text =>
         do results <- json_loads text ;
         ret (Some (set_from_cache true results))
     | None => ret None
     end)
    (fun _ => ret None).

Definition cache_search_results (query : string) (access_level : Z)
    (results : report) (search_params : option search_params) (ttl : option Z)
  : M redis bool :=
  try_except
    (let cache_key := _generate_search_cache_key query access_level search_params in
     let cache_data := set_from_cache false results in
     do success <- redis_setex cache_key (ttl_or ttl search_cache_ttl)
                            (SearchEntry cache_data) ;
     ret success)
    (fun _ => ret false).

(** [pattern or default] on strings: [None] and the empty string are falsy. *)
Definition pattern_or (pattern : option string) (default : string) : string :=
  match pattern with
  | Some EmptyString | None => default
  | Some p => p
  end.

(** [pattern] is the text before the final [*]. *)
Definition invalidate_search_cache (pattern : option string) : M redis Z :=
  try_except
    (let search_pattern := pattern_or pattern search_prefix in
     do keys <- redis_keys search_pattern ;
     match keys with
     | [] => ret 0
     | _ => do deleted <- redis_delete keys ; ret deleted
     end)
    (fun _ => ret 0).

Definition get_cached_bm25_index (access_level : Z) : M redis (option bm25_data) :=
  try_except
    (let cache_key := bm25_cache_key access_level in
     do cached_data <- redis_get cache_key ;
     match cached_data with
     | Some text => do bm25_data <- pickle_loads text ; ret (Some bm25_data)
     | None => ret None
     end)
    (fun _ => ret None).

Definition cache_bm25_index (access_level : Z) (data : bm25_data) (ttl : option Z)
  : M redis bool :=
  try_except
    (let cache_key := bm25_cache_key access_level in
     let cache_data :=
       Bm25Data (bm25_index data) (docs data) (metadatas data) (bm25_ids data)
                access_level in
     do success <- redis_setex cache_key (ttl_or ttl bm25_cache_ttl)
                            (Bm25Entry cache_data) ;
     ret success)
    (fun _ => ret false).

Definition invalidate_bm25_cache (access_level : option Z) : M redis Z :=
  try_except
    (match access_level with
     | Some level =>
         do deleted <- redis_delete [bm25_cache_key level] ; ret deleted
     | None =>
         do keys <- redis_keys bm25_prefix ;
         match keys with
         | [] => ret 0
         | _ => do deleted <- redis_delete keys ; ret deleted
         end
     end)
    (fun _ => ret 0).

End Service.

End Cache.

(** ** [services/connection_pool.py]: the pool of vector-store clients *)

Module Pool.

(** A client object, by identity. *)
Definition handle := nat.

Record stats := Stats {
  total_created : Z;
  total_borrowed : Z;
  total_returned : Z;
  total_errors : Z;
  peak_active : Z
}.

(** The fields of [ChromaDBPool]; [available_connections] is the FIFO queue
    (oldest first), [next_handle] the identity of the next client object. *)
Record pool := Pool_ {
  max_connections : Z;
  min_connections : Z;
  available_connections : list handle;
  active_connections : gset handle;
  connection_count : Z;
  pool_stats : stats;
  next_handle : handle
}.

(** What the outside world does during one call: whether the constructor of
    a new client connects, whether [client.heartbeat()] succeeds for a given
    client, and the seconds spent by the time the call starts to wait. *)
Record env := Env {
  connects : bool;
  heartbeat : handle -> bool;
  elapsed : Q
}.

Definition with_queue (q : list handle) (p : pool) : pool :=
  Pool_ (max_connections p) (min_connections p) q (active_connections p)
        (connection_count p) (pool_stats p) (next_handle p).

Definition with_active (a : gset handle) (p : pool) : pool :=
  Pool_ (max_connections p) (min_connections p) (available_connections p) a
        (connection_count p) (pool_stats p) (next_handle p).

Definition with_count (n : Z) (p : pool) : pool :=
  Pool_ (max_connections p) (min_connections p) (available_connections p)
        (active_connections p) n (pool_stats p) (next_handle p).

Definition with_stats (f : stats -> stats) (p : pool) : pool :=
  Pool_ (max_connections p) (min_connections p) (available_connections p)
        (active_connections p) (connection_count p) (f (pool_stats p)) (next_handle p).

Definition with_next (h : handle) (p : pool) : pool :=
  Pool_ (max_connections p) (min_connections p) (available_connections p)
        (active_connections p) (connection_count p) (pool_stats p) h.

Definition created (s : stats) : stats :=
  Stats (total_created s + 1) (total_borrowed s) (total_returned s)
        (total_errors s) (peak_active s).

Definition borrowed (s : stats) : stats :=
  Stats (total_created s) (total_borrowed s + 1) (total_returned s)
        (total_errors s) (peak_active s).

Definition returned (s : stats) : stats :=
  Stats (total_created s) (total_borrowed s) (total_returned s + 1)
        (total_errors s) (peak_active s).

Definition errored (s : stats) : stats :=
  Stats (total_created s) (total_borrowed s) (total_returned s)
        (total_errors s + 1) (peak_active s).

Definition peak (active : Z) (s : stats) : stats :=
  Stats (total_created s) (total_borrowed s) (total_returned s)
        (total_errors s) (Z.max (peak_active s) active).

(** [Queue.full()]: a queue with [maxsize <= 0] is unbounded. *)
Definition queue_full (p : pool) : bool :=
  (0 <? max_connections p) &&
  (max_connections p <=? Z.of_nat (length (available_connections p))).

(** [_create_client]: construct a client and check its heartbeat; a failure
    is counted and answered with [None]. *)
Definition _create_client (e : env) (p : pool) : option handle * pool :=
  let h := next_handle p in
  let p := with_next (S h) p in
  if connects e && heartbeat e h then (Some h, p)
  else (None, with_stats errored p).

(** One pass of the loop of [_initialize_pool]; [None] is a [put] on a full
    queue, which blocks for ever. *)
Definition initialize_step (e : env) (p : pool) : option pool :=
  match _create_client e p with
  | (Some client, p) =>
      if queue_full p then None
      else Some (with_stats created
                   (with_count (connection_count p + 1)
                      (with_queue (available_connections p ++ [client]) p)))
  | (None, p) => Some p
  end.

Fixpoint initialize_loop (e : env) (n : nat) (p : pool) : option pool :=
  match n with
  | O => Some p
  | S n' => p' ← initialize_step e p; initialize_loop e n' p'
  end.

(** [ChromaDBPool(max_connections, min_connections)] *)
Definition new_pool (e : env) (max_connections min_connections : Z) : option pool :=
  initialize_loop e (Z.to_nat min_connections)
    (Pool_ max_connections min_connections [] ∅ 0 (Stats 0 0 0 0 0) 0%nat).

(** [client = self.available_connections.get(...)] on a non-empty queue,
    followed by the bookkeeping under the lock and the heartbeat check.  The
    first attempt also updates [peak_active]; the attempt after the wait does
    not. *)
Definition take_available (e : env) (update_peak : bool) (client : handle)
    (rest : list handle) (p : pool) : option handle * pool :=
  let active := {[client]} ∪ active_connections p in
  let p := with_stats borrowed (with_active active (with_queue rest p)) in
  let p := if update_peak then with_stats (peak (Z.of_nat (size active))) p else p in
  if heartbeat e client then (Some client, p)
  else (None, with_count (connection_count p - 1)
                (with_active (active_connections p ∖ {[client]}) p)).

(** The attempt to take the oldest available client. *)
Definition try_queue (e : env) (update_peak : bool) (p : pool) : option handle * pool :=
  match available_connections p with
  | client :: rest => take_available e update_peak client rest p
  | [] => (None, p)
  end.

(** The attempt to create a client while the pool has room. *)
Definition try_create (e : env) (p : pool) : option handle * pool :=
  if connection_count p <? max_connections p then
    match _create_client e p with
    | (Some client, p) =>
        let active := {[client]} ∪ active_connections p in
        (Some client,
         with_stats (peak (Z.of_nat (size active)))
           (with_stats borrowed
              (with_stats created
                 (with_count (connection_count p + 1)
                    (with_active active p)))))
    | (None, p) => (None, p)
    end
  else (None, p).

(** [get_client]: take an available client, else create one, else wait for
    one to be returned.  [Queue.get] rejects a negative timeout, which the
    outer handler counts as an error. *)
Definition get_client (e : env) (timeout : Q) (p : pool) : option handle * pool :=
  if Qlt_le_dec timeout 0 then (None, with_stats errored p)
  else
    let '(first, p) := try_queue e true p in
    match first with
    | Some client => (Some client, p)
    | None =>
      let '(second, p) := try_create e p in
      match second with
      | Some client => (Some client, p)
      | None =>
        if Qlt_le_dec 0 (timeout - elapsed e) then try_queue e false p
        else (None, p)
      end
    end.

(** [return_client] *)
Definition return_client (e : env) (client : handle) (p : pool) : pool :=
  if bool_decide (client ∈ active_connections p) then
    let p := with_stats returned
               (with_active (active_connections p ∖ {[client]}) p) in
    if heartbeat e client then
      if negb (queue_full p)
      then with_queue (available_connections p ++ [client]) p
      else with_count (connection_count p - 1) p
    else with_count (connection_count p - 1) p
  else p.

(** A caller's use of the pool. *)
Inductive op :=
| Get (e : env) (timeout : Q)
| Give (e : env) (client : handle).

Definition step (o : op) (p : pool) : pool :=
  match o with
  | Get e timeout => (get_client e timeout p).2
  | Give e client => return_client e client p
  end.

Definition run (ops : list op) (p : pool) : pool := fold_left (fun p o => step o p) ops p.

End Pool.

(** ** [SearchService._improved_tokenize]: the morphological tokenizer

    The text is a list of characters from an alphabet of 256: the ASCII
    characters, which [re] and [str] classify as in Python, and 128 further
    characters that stand for letters outside ASCII. *)

Module Tokenizer.

Definition text := list ascii.

Definition code (c : ascii) : nat := nat_of_ascii c.

Definition is_digit (c : ascii) : bool := (48 <=? code c)%nat && (code c <=? 57)%nat.
Definition is_upper (c : ascii) : bool := (65 <=? code c)%nat && (code c <=? 90)%nat.
Definition is_lower (c : ascii) : bool := (97 <=? code c)%nat && (code c <=? 122)%nat.

(** [\w] *)
Definition is_word (c : ascii) : bool :=
  is_digit c || is_upper c || is_lower c || (code c =? 95)%nat || (128 <=? code c)%nat.

(** The characters [str.split()] splits on. *)
Definition is_space (c : ascii) : bool :=
  (code c =? 32)%nat || ((9 <=? code c)%nat && (code c <=? 13)%nat).

Definition hyphen : ascii := "-"%char.
Definition dot : ascii := "."%char.

(** [str.lower()] *)
Definition lower_char (c : ascii) : ascii :=
  if is_upper c then ascii_of_nat (code c + 32) else c.

Definition lower (t : text) : text := map lower_char t.

(** [str.isdigit()] *)
Definition isdigit (t : text) : bool :=
  match t with [] => false | _ => forallb is_digit t end.

(** [\b] in front of a word character, and behind one. *)
Definition boundary_before (prev : option ascii) : bool :=
  match prev with None => true | Some p => negb (is_word p) end.

Definition boundary_after (rest : text) : bool :=
  match rest with [] => true | c :: _ => negb (is_word c) end.

(** [\d{n}]: exactly [n] digits; the rest of the text is returned. *)
Fixpoint digits (n : nat) (t : text) : option text :=
  match n with
  | O => Some t
  | S n' => match t with
            | c :: rest => if is_digit c then digits n' rest else None
            | [] => None
            end
  end.

Definition lit (c : ascii) (t : text) : option text :=
  match t with
  | c' :: rest => if Ascii.eqb c c' then Some rest else None
  | [] => None
  end.

(** [\d+] is greedy: the number of leading digits and the rest. *)
Fixpoint span_digits (t : text) : nat * text :=
  match t with
  | c :: rest => if is_digit c then let '(n, r) := span_digits rest in (S n, r)
                 else (O, t)
  | [] => (O, [])
  end.

(** [\b\d{4}-\d{2}-\d{2}\b]: the length of the match at this place. *)
Definition match_iso_date (prev : option ascii) (t : text) : option nat :=
  if boundary_before prev then
    t1 ← digits 4 t; t2 ← lit hyphen t1; t3 ← digits 2 t2;
    t4 ← lit hyphen t3; t5 ← digits 2 t4;
    if boundary_after t5 then Some 10%nat else None
  else None.

(** [\b\d{2}\.\d{2}\.\d{4}\b] *)
Definition match_dotted_date (prev : option ascii) (t : text) : option nat :=
  if boundary_before prev then
    t1 ← digits 2 t; t2 ← lit dot t1; t3 ← digits 2 t2;
    t4 ← lit dot t3; t5 ← digits 4 t4;
    if boundary_after t5 then Some 10%nat else None
  else None.

(** The lookahead [(?:19|20)\d{2}\b]. *)
Definition year_ahead (t : text) : bool :=
  match t with
  | c1 :: c2 :: c3 :: c4 :: rest =>
      ((Ascii.eqb c1 "1" && Ascii.eqb c2 "9") || (Ascii.eqb c1 "2" && Ascii.eqb c2 "0"))
      && is_digit c3 && is_digit c4 && boundary_after rest
  | _ => false
  end.

(** [\b(?!(?:19|20)\d{2}\b)\d+\.\d+\b]: both runs of digits are maximal,
    since a shorter run is followed by a digit and not by the dot or the
    boundary. *)
Definition match_decimal (prev : option ascii) (t : text) : option nat :=
  if boundary_before prev && negb (year_ahead t) then
    let '(n1, t1) := span_digits t in
    match n1 with
    | O => None
    | _ => t2 ← lit dot t1;
           let '(n2, t3) := span_digits t2 in
           match n2 with
           | O => None
           | _ => if boundary_after t3 then Some (n1 + 1 + n2)%nat else None
           end
    end
  else None.

(** [re.sub(pattern, replacement, text)]: leftmost matches, left to right;
    [skip] counts the characters of the current match still to pass. *)
Fixpoint sub_scan (matcher : option ascii -> text -> option nat) (replacement : text)
    (prev : option ascii) (skip : nat) (t : text) : text :=
  match t with
  | [] => []
  | c :: rest =>
      match skip with
      | S k => sub_scan matcher replacement (Some c) k rest
      | O => match matcher prev t with
             | Some (S n) => replacement ++ sub_scan matcher replacement (Some c) n rest
             | _ => c :: sub_scan matcher replacement (Some c) O rest
             end
      end
  end.

Definition re_sub (matcher : option ascii -> text -> option nat) (replacement t : text)
  : text := sub_scan matcher replacement None O t.

Definition DATE : text := list_ascii_of_string "DATE".
Definition NUMBER : text := list_ascii_of_string "NUMBER".

(** [re.findall(r'[\w-]+', text)] *)
Fixpoint findall_from (current : text) (t : text) : list text :=
  match t with
  | [] => match current with [] => [] | _ => [current] end
  | c :: rest =>
      if is_word c || Ascii.eqb c hyphen then findall_from (current ++ [c]) rest
      else match current with
           | [] => findall_from [] rest
           | _ => current :: findall_from [] rest
           end
  end.

Definition findall (t : text) : list text := findall_from [] t.

(** [token.split('-')] *)
Fixpoint split_hyphen_from (current : text) (t : text) : list text :=
  match t with
  | [] => [current]
  | c :: rest => if Ascii.eqb c hyphen then current :: split_hyphen_from [] rest
                 else split_hyphen_from (current ++ [c]) rest
  end.

Definition split_hyphen (t : text) : list text := split_hyphen_from [] t.

(** [text.split()] *)
Fixpoint split_space_from (current : text) (t : text) : list text :=
  match t with
  | [] => match current with [] => [] | _ => [current] end
  | c :: rest =>
      if is_space c then
        match current with
        | [] => split_space_from [] rest
        | _ => current :: split_space_from [] rest
        end
      else split_space_from (current ++ [c]) rest
  end.

Definition split_space (t : text) : list text := split_space_from [] t.

Definition text_eqb (a b : text) : bool := bool_decide (a = b).

Section Tokenize.
(** [self.morph.parse(token)[0].normal_form]; [None] is an exception raised by
    the analyser. *)
Variable normal_form : text -> option text.
(** The set [russian_stop_words]. *)
Variable russian_stop_words : list text.

Definition keeps (lemma : text) : bool :=
  negb (existsb (text_eqb lemma) russian_stop_words) && negb (isdigit lemma).

(** [re.match(r'^\d{4}$', token)] *)
Definition four_digits (token : text) : bool :=
  match digits 4 token with Some [] => true | _ => false end.

(** The body of the loop over the parts of a hyphenated token. *)
Definition lemmatize_part (part : text) : option (list text) :=
  if (2 <=? length part)%nat then
    lemma ← normal_form part;
    Some (if keeps lemma then [lemma] else [])
  else Some [].

(** The body of the loop over the tokens: what is appended. *)
Definition lemmatize_token (token : text) : option (list text) :=
  if (length token <? 2)%nat then Some []
  else if existsb (Ascii.eqb hyphen) token && (3 <? length token)%nat then
    parts ← mapM lemmatize_part (split_hyphen token);
    Some (concat parts)
  else
    lemma ← normal_form token;
    Some (if keeps lemma then
            if text_eqb token DATE || text_eqb token NUMBER || four_digits token
            then [token] else [lemma]
          else []).

(** The text after lower-casing and the three substitutions. *)
Definition normalize (t : text) : text :=
  let t := lower t in
  let t := re_sub match_iso_date DATE t in
  let t := re_sub match_dotted_date DATE t in
  re_sub match_decimal NUMBER t.

(** [_improved_tokenize]; the [except] branch falls back to splitting the
    normalised text on white space. *)
Definition _improved_tokenize (t : text) : list text :=
  let t := normalize t in
  match mapM lemmatize_token (findall t) with
  | Some lemmatized => concat lemmatized
  | None => List.filter (fun token => (2 <? length token)%nat) (split_space (lower t))
  end.

End Tokenize.

(** An analyser for ASCII words and numbers: such a token is its own normal
    form once lower-cased, as the analyser returns it for Latin words and for
    numbers. *)
Definition ascii_normal_form (token : text) : option text := Some (lower token).

Definition tokenize_string (s : string) : list string :=
  map string_of_list_ascii
      (_improved_tokenize ascii_normal_form [] (list_ascii_of_string s)).

End Tokenizer.

(** ** [SearchService]: index, legs and [hybrid_search] *)

Module Search.
Import Retrieval Eff.

Section Service.
(** Embeddings and the collaborators of the service: the embedding client
    ([None]: it raises), the vector store's distance, the synonym expander,
    the morphological analyser with the stop-word set, the BM25 scorer
    ([BM25Okapi.get_scores] over a tokenised corpus), the reranking service
    and the hash of the cache key. *)
Variable embedding : Type.
Variable generate_query_embedding : string -> option embedding.
Variable distance : embedding -> embedding -> Q.
Variable expand_query_smart : string -> option expansion.
Variable normal_form : Tokenizer.text -> option Tokenizer.text.
Variable russian_stop_words : list Tokenizer.text.
Variable get_scores : list (list string) -> list string -> list Q.
Variable reranking_service : string -> list string -> Z -> option (list RerankerServer.item).
Variable cache_hash : string -> Z -> option search_params -> string.

(** A record of the vector store's collection. *)
Record stored := Stored {
  stored_id : string;
  stored_document : string;
  stored_metadata : metadata;
  stored_embedding : embedding
}.

(** The attributes of [SearchService] that change: the BM25 object (its
    tokenised corpus; [None] as in Python), the lists that go with it (empty
    while they are [None]) and the flag. *)
Record service := Service {
  bm25 : option (list (list string));
  bm25_docs : list string;
  bm25_ids : list string;
  bm25_metadatas : list metadata;
  _bm25_initialized : bool
}.

(** The process and the stores it talks to; [chroma_up] is false while
    requests to the vector store fail. *)
Record world := World {
  redis : Cache.redis;
  collection : list stored;
  chroma_up : bool;
  svc : service
}.

Definition set_redis (r : Cache.redis) (w : world) : world :=
  World r (collection w) (chroma_up w) (svc w).
Definition set_svc (s : service) (w : world) : world :=
  World (redis w) (collection w) (chroma_up w) s.
Definition set_collection (c : list stored) (w : world) : world :=
  World (redis w) c (chroma_up w) (svc w).

Definition cache {A : Type} (m : M Cache.redis A) : M world A := zoom redis set_redis m.

Definition tokenize (s : string) : list string :=
  map string_of_list_ascii
      (Tokenizer._improved_tokenize normal_form russian_stop_words
         (list_ascii_of_string s)).

(** The filter [{"access_level": {"$lte": access_level}}]: the key is present
    and its value is at most the level. *)
Definition where_lte (access_level : Z) (r : stored) : bool :=
  match Retrieval.access_level (stored_metadata r) with
  | Some a => a <=? access_level
  | None => false
  end.

(** [collection.get(where=..., include=['documents', 'metadatas'])] *)
Definition collection_get (access_level : Z) : M world (list stored) :=
  fun w => if chroma_up w
           then (Return (List.filter (where_lte access_level) (collection w)), w)
           else (Raise ServiceError, w).

(** [collection.query(query_embeddings=[e], n_results=n, where=...)]: the
    nearest records among those that pass the filter, with their distances;
    a non-positive [n_results] is rejected. *)
Definition collection_query (e : embedding) (n_results access_level : Z)
  : M world (list (stored * Q)) :=
  fun w =>
    if chroma_up w && (0 <? n_results) then
      let candidates := List.filter (where_lte access_level) (collection w) in
      let scored := map (fun r => (r, distance e (stored_embedding r))) candidates in
      (Return (take (Z.to_nat n_results)
                 (Py.sort_desc (fun rd : stored * Q => (- rd.2)%Q) scored)), w)
    else (Raise ServiceError, w).

(** The ids generated from the metadata when the index is built. *)
Definition generated_id (i : Z) (m : metadata) : string :=
  default ("unknown_" +:+ pretty i) (doc_id m) +:+ "_" +:+
  pretty (default i (chunk_index m)).

(** [_ensure_bm25_initialized] *)
Definition _ensure_bm25_initialized (access_level : Z) : M world unit :=
  try_except
    (do w <- get_state ;
     if _bm25_initialized (svc w) then ret tt
     else
       do cached_bm25 <- cache (Cache.get_cached_bm25_index access_level) ;
       match cached_bm25 with
       | Some data =>
           do w <- get_state ;
           put_state (set_svc (Service (Some (bm25_index data)) (docs data)
                                 (Retrieval.bm25_ids data) (metadatas data) true) w)
       | None =>
           do all_docs <- collection_get access_level ;
           match all_docs with
           | [] =>
               do w <- get_state ;
               put_state (set_svc (Service None (bm25_docs (svc w)) (bm25_ids (svc w))
                                     (bm25_metadatas (svc w))
                                     (_bm25_initialized (svc w))) w)
           | _ =>
               let documents := map stored_document all_docs in
               let tokenized_docs := map tokenize documents in
               let metas := map stored_metadata all_docs in
               let ids := map (fun '(i, m) => generated_id i m) (Py.enumerate metas) in
               do w <- get_state ;
               do _ <- put_state (set_svc (Service (Some tokenized_docs) documents ids
                                             metas (_bm25_initialized (svc w))) w) ;
               do _ <- cache (Cache.cache_bm25_index access_level
                                (Bm25Data tokenized_docs documents metas ids access_level)
                                None) ;
               do w <- get_state ;
               put_state (set_svc (Service (bm25 (svc w)) (bm25_docs (svc w))
                                     (bm25_ids (svc w)) (bm25_metadatas (svc w)) true) w)
           end
       end)
    (fun _ =>
       do w <- get_state ;
       put_state (set_svc (Service None (bm25_docs (svc w)) (bm25_ids (svc w))
                             (bm25_metadatas (svc w)) (_bm25_initialized (svc w))) w)).

(** The loop of [_vector_search] over the zipped query result. *)
Definition vector_record (e : Z * (stored * Q)) : result :=
  let '(i, (r, d)) := e in
  let m := stored_metadata r in
  Result (default "unknown" (doc_id m) +:+ "_" +:+ pretty (default i (chunk_index m)))
         (stored_document r) m (1 - d)%Q vector (i + 1) None None None None.

(** [_vector_search]: the records of the vector leg ([[]] on any failure). *)
Definition _vector_search (query : string) (access_level top_k : Z)
  : M world (list result) :=
  try_except
    (match generate_query_embedding query with
     | None => raise ServiceError
     | Some query_embedding =>
         do found <- collection_query query_embedding top_k access_level ;
         ret (map vector_record (Py.enumerate found))
     end)
    (fun _ => ret []).

(** The loop of [_bm25_search] over [enumerate(scores)]; [None] is the
    [IndexError] of a list shorter than the metadata. *)
Fixpoint bm25_collect (s : service) (access_level : Z) (x : expansion)
    (scores : list (Z * Q)) (bm25_results : list result) : option (list result) :=
  match scores with
  | [] => Some bm25_results
  | (i, score) :: rest =>
      if i <? Z.of_nat (length (bm25_metadatas s)) then
        m ← Py.index (bm25_metadatas s) i;
        if default 0 (Retrieval.access_level m) <=? access_level then
          rid ← Py.index (bm25_ids s) i;
          doc ← Py.index (bm25_docs s) i;
          bm25_collect s access_level x rest
            (bm25_results ++
             [Result rid doc m score Retrieval.bm25
                     (Z.of_nat (length bm25_results) + 1) (Some x) None None None])
        else bm25_collect s access_level x rest bm25_results
      else bm25_collect s access_level x rest bm25_results
  end.

(** [_bm25_search]: the records of the lexical leg ([[]] on any failure). *)
Definition _bm25_search (query : string) (access_level top_k : Z) (s : service)
  : list result :=
  match bm25 s with
  | None => []
  | Some index =>
      match expand_query_smart query with
      | None => []
      | Some x =>
          let tokenized_query := tokenize (expanded_query x) in
          let scores := get_scores index tokenized_query in
          match bm25_collect s access_level x (Py.enumerate scores) [] with
          | None => []
          | Some bm25_results =>
              Py.slice_to top_k (Py.sort_desc score bm25_results)
          end
      end
  end.

(** [hybrid_search] *)
Definition hybrid_search (query : string) (access_level top_k rerank_top_k : Z)
    (vector_weight bm25_weight : Q) : M world report :=
  let search_params :=
    Some (SearchParams top_k rerank_top_k vector_weight bm25_weight) in
  do cached_result <- cache (Cache.get_cached_search_results cache_hash
                               query access_level search_params) ;
  match cached_result with
  | Some cached => ret cached
  | None =>
      do _ <- _ensure_bm25_initialized access_level ;
      do vector_results <- _vector_search query access_level top_k ;
      do w <- get_state ;
      let bm25_results := _bm25_search query access_level top_k (svc w) in
      let fused_results :=
        Fusion._rrf_fusion vector_results bm25_results vector_weight bm25_weight
                           Fusion.default_k in
      let reranked_results :=
        if (0 <? Z.of_nat (length fused_results)) && (0 <? rerank_top_k)
        then Relevance._rerank_results reranking_service query fused_results rerank_top_k
        else Py.slice_to rerank_top_k fused_results in
      let result :=
        Report true query access_level (length vector_results) (length bm25_results)
               (length fused_results) (length reranked_results) reranked_results
               (vector_weight, bm25_weight) false in
      do _ <- cache (Cache.cache_search_results cache_hash query access_level result
                       search_params None) ;
      ret result
  end.


End Service.

End Search.

(** ** [tasks.py] and [services/database_service.py]: the write paths *)

Module Tasks.
Import Retrieval Eff.

Section Worker.
Variable embedding : Type.

(** The worker process with its stores: the search side ([Search.world]) and
    the relational store's chunk rows and document status. *)
Record system := System {
  world : Search.world embedding;
  pg_chunks : gmap string (string * Z);
  pg_status : gmap string (string * Z)
}.

Definition set_world (w : Search.world embedding) (s : system) : system :=
  System w (pg_chunks s) (pg_status s).

(** What the collaborators of one ingest run answer: whether the file
    extension has a processor, the extracted text ([None]: extraction
    failed), the chunks after chunking and keyword extraction, the batch of
    embeddings ([None]: the embedding service raised), and whether the
    relational store accepts writes. *)
Record ingest := Ingest {
  extension_supported : bool;
  extracted_text : option string;
  chunks_data : list (string * metadata);
  embeddings : option (list embedding);
  postgres_up : bool
}.

Record ingest_report := IngestReport {
  ingest_success : bool;
  document_id : string;
  chunks_created : nat;
  chunks_saved : nat
}.

(** [f"{chunk_data['metadata']['doc_id']}_{i}"]; [None] is the [KeyError] of
    a chunk without [doc_id]. *)
Definition chunk_id (i : Z) (m : metadata) : option string :=
  d ← doc_id m; Some (d +:+ "_" +:+ pretty i).

Fixpoint chroma_records (i : Z) (chunks : list (string * metadata))
    (embs : list embedding) : option (list (Search.stored embedding)) :=
  match chunks, embs with
  | (text, m) :: chunks', e :: embs' =>
      cid ← chunk_id i m;
      rest ← chroma_records (i + 1) chunks' embs';
      Some (Search.Stored _ cid text m e :: rest)
  | _, _ => Some []
  end.

(** [collection.add]: records whose id the collection holds already are left
    as they are. *)
Definition collection_add (new : list (Search.stored embedding))
    (c : list (Search.stored embedding)) : list (Search.stored embedding) :=
  c ++ List.filter
         (fun r => negb (existsb (String.eqb (Search.stored_id _ r))
                           (map (Search.stored_id _) c))) new.

(** [DatabaseService.save_chunks_to_chromadb] *)
Definition save_chunks_to_chromadb (chunks : list (string * metadata))
    (embs : list embedding) : M system nat :=
  fun s =>
    if negb (length chunks =? length embs)%nat then (Raise ServiceError, s)
    else match chroma_records 0 chunks embs with
         | None => (Raise LookupError, s)
         | Some records =>
             if Search.chroma_up _ (world s) then
               (Return (length chunks),
                set_world (Search.set_collection _
                             (collection_add records (Search.collection _ (world s)))
                             (world s)) s)
             else (Raise ServiceError, s)
         end.

(** [DatabaseService.save_chunks_to_postgres]: the [success] flag of its
    answer; the rows are upserted by chunk id. *)
Definition save_chunks_to_postgres (up : bool) (chunks : list (string * metadata))
  : M system bool :=
  fun s =>
    if up then
      match mapM (fun '(i, (text, m)) =>
                    cid ← chunk_id i m; lvl ← access_level m; Some (cid, (text, lvl)))
                 (Py.enumerate chunks) with
      | Some rows =>
          (Return true,
           System (world s) (foldr (fun '(k, v) t => <[k := v]> t) (pg_chunks s) rows)
                  (pg_status s))
      | None => (Return false, s)
      end
    else (Return false, s).

(** [DatabaseService.delete_document_chunks] *)
Definition delete_document_chunks (doc : string) : M system nat :=
  fun s =>
    if Search.chroma_up _ (world s) then
      let c := Search.collection _ (world s) in
      let of_doc := fun r : Search.stored embedding =>
                      bool_decide (doc_id (Search.stored_metadata _ r) = Some doc) in
      (Return (length (List.filter of_doc c)),
       set_world (Search.set_collection _ (List.filter (fun r => negb (of_doc r)) c)
                    (world s)) s)
    else (Raise ServiceError, s).

(** [DatabaseService.update_document_status]; its failures are logged. *)
Definition update_document_status (up : bool) (doc status : string) (count : Z)
  : M system unit :=
  fun s => if up then (Return tt, System (world s) (pg_chunks s)
                                    (<[doc := (status, count)]> (pg_status s)))
           else (Return tt, s).

(** [process_document]; [Raise] is the exception of [self.retry], raised
    after the compensating delete. *)
Definition process_document (env : ingest) (doc file_path : string) (level : Z)
  : M system ingest_report :=
  try_except
    (if negb (extension_supported env) then raise ServiceError
     else match extracted_text env with
          | None => raise ServiceError
          | Some text =>
              match embeddings env with
              | None => raise ServiceError
              | Some embs =>
                  do saved <- save_chunks_to_chromadb (chunks_data env) embs ;
                  do ok <- save_chunks_to_postgres (postgres_up env) (chunks_data env) ;
                  if negb ok then raise ServiceError
                  else
                    do _ <- update_document_status (postgres_up env) doc "completed"
                              (Z.of_nat (length (chunks_data env))) ;
                    ret (IngestReport true doc (length (chunks_data env)) saved)
              end
          end)
    (fun exc =>
       do _ <- try_except (do _ <- delete_document_chunks doc ; ret tt)
                          (fun _ => ret tt) ;
       raise exc).

(** The answer of the [delete_document] task. *)
Definition delete_document (doc : string) : M system (bool * nat) :=
  try_except
    (do n <- delete_document_chunks doc ; ret (true, n))
    (fun _ => ret (false, O)).

End Worker.

End Tasks.

(** ** Facts about the built-ins *)



Lemma slice_to_sublist {A : Type} (k : Z) (xs : list A) (x : A) :
  x ∈ Py.slice_to k xs -> x ∈ xs.
Proof.
  unfold Py.slice_to. destruct (0 <=? k); intros H;
    eapply subseteq_take; eauto.
Qed.

Lemma enumerate_from_snd {A : Type} (s : Z) (xs : list A) :
  map snd (Py.enumerate_from s xs) = xs.
Proof. revert s. induction xs as [|x xs IH]; intros s; simpl; [done|]. by rewrite IH. Qed.

Lemma enumerate_from_length {A : Type} (s : Z) (xs : list A) :
  length (Py.enumerate_from s xs) = length xs.
Proof. revert s. induction xs as [|x xs IH]; intros s; simpl; [done|]. by rewrite IH. Qed.

Lemma enumerate_from_lookup {A : Type} (s : Z) (xs : list A) (i : nat) :
  Py.enumerate_from s xs !! i = (fun x => (s + Z.of_nat i, x)) <$> (xs !! i).
Proof.
  revert s i. induction xs as [|x xs IH]; intros s [|i]; simpl; try done.
  - by rewrite Z.add_0_r.
  - rewrite IH. destruct (xs !! i); simpl; [|done]. do 2 f_equal. lia.
Qed.

Section MaxMin.

Lemma max_from_ge_init x xs : (x <= Py.max_from x xs)%Q.
Proof.
  revert x. induction xs as [|y xs IH]; intros x; simpl; [lra|].
  destruct (Qlt_le_dec x y); [|apply IH].
  specialize (IH y). lra.
Qed.

Lemma max_from_upper x xs : Forall (fun y => (y <= Py.max_from x xs)%Q) (x :: xs).
Proof.
  revert x. induction xs as [|y xs IH]; intros x.
  - constructor; [simpl; lra | constructor].
  - constructor; [apply max_from_ge_init|].
    simpl. destruct (Qlt_le_dec x y) as [Hlt|Hle].
    + apply IH.
    + specialize (IH x). inversion IH as [|? ? Hx Hxs]; subst.
      constructor; [|done].
      pose proof (max_from_ge_init x xs). lra.
Qed.

Lemma max_from_attained x xs : Py.max_from x xs ∈ x :: xs.
Proof.
  revert x. induction xs as [|y xs IH]; intros x; simpl.
  - apply list_elem_of_here.
  - destruct (Qlt_le_dec x y).
    + apply list_elem_of_further, IH.
    + specialize (IH x). apply elem_of_cons in IH as [->|IH].
      * apply list_elem_of_here.
      * by do 2 apply list_elem_of_further.
Qed.

Lemma min_from_le_init x xs : (Py.min_from x xs <= x)%Q.
Proof.
  revert x. induction xs as [|y xs IH]; intros x; simpl; [lra|].
  destruct (Qlt_le_dec y x); [|apply IH].
  specialize (IH y). lra.
Qed.

Lemma min_from_lower x xs : Forall (fun y => (Py.min_from x xs <= y)%Q) (x :: xs).
Proof.
  revert x. induction xs as [|y xs IH]; intros x.
  - constructor; [simpl; lra | constructor].
  - constructor; [apply min_from_le_init|].
    simpl. destruct (Qlt_le_dec y x) as [Hlt|Hle].
    + apply IH.
    + specialize (IH x). inversion IH as [|? ? Hx Hxs]; subst.
      constructor; [|done].
      pose proof (min_from_le_init x xs). lra.
Qed.

Lemma min_from_attained x xs : Py.min_from x xs ∈ x :: xs.
Proof.
  revert x. induction xs as [|y xs IH]; intros x; simpl.
  - apply list_elem_of_here.
  - destruct (Qlt_le_dec y x).
    + apply list_elem_of_further, IH.
    + specialize (IH x). apply elem_of_cons in IH as [->|IH].
      * apply list_elem_of_here.
      * by do 2 apply list_elem_of_further.
Qed.

End MaxMin.

Section StableSortFacts.
Context {A : Type} (key : A -> Q).

Lemma insert_desc_perm x l : Permutation (Py.insert_desc key x l) (x :: l).
Proof.
  induction l as [|y l IH]; simpl; [done|].
  destruct (Qle_bool (key y) (key x)); [done|].
  rewrite IH. apply perm_swap.
Qed.

Lemma sort_desc_perm l : Permutation (Py.sort_desc key l) l.
Proof.
  induction l as [|x l IH]; simpl; [done|].
  rewrite insert_desc_perm. by constructor.
Qed.

Lemma insert_desc_sorted x l : Py.desc key l -> Py.desc key (Py.insert_desc key x l).
Proof.
  unfold Py.desc. induction 1 as [|y l Hl IH Hy]; simpl.
  - repeat constructor.
  - destruct (Qle_bool (key y) (key x)) eqn:E.
    + apply Qle_bool_iff in E. constructor; [by constructor|].
      constructor; [done|].
      eapply Forall_impl; [exact Hy|]. simpl. intros z Hz. lra.
    + constructor; [done|].
      assert (~ (key y <= key x)%Q) as Hn.
      { intros Hle. apply Qle_bool_iff in Hle. congruence. }
      eapply Permutation_Forall; [symmetry; apply insert_desc_perm|].
      constructor; [lra | done].
Qed.

Lemma sort_desc_sorted l : Py.desc key (Py.sort_desc key l).
Proof.
  induction l as [|x l IH]; simpl; [constructor|]. by apply insert_desc_sorted.
Qed.

Lemma sort_desc_length l : length (Py.sort_desc key l) = length l.
Proof. apply Permutation_length, sort_desc_perm. Qed.

Lemma sort_desc_elem x l : x ∈ Py.sort_desc key l <-> x ∈ l.
Proof. by rewrite sort_desc_perm. Qed.





End StableSortFacts.

(** ** The cross-encoder endpoint: normalised scores *)

Section RerankerServerFacts.
Import RerankerServer.
Variable amplify : Q -> Q.

Lemma final_scores_length (amplified : list Q) :
  length (final_scores amplified) = length amplified.
Proof.
  unfold final_scores. destruct (Qlt_le_dec _ _); by rewrite length_map.
Qed.






Lemma build_results_ok (zipped : list (Q * Q)) (documents : list string) (i : nat) :
  (i + length zipped <= length documents)%nat ->
  exists results,
    build_results (Z.of_nat i) zipped documents = Some results /\
    map score results = map snd zipped.
Proof.
  revert i. induction zipped as [|[raw fin] rest IH]; intros i Hlen; simpl in *.
  - by exists [].
  - destruct (lookup_lt_is_Some_2 documents i) as [doc Hdoc]; [lia|].
    unfold Py.index. destruct (0 <=? Z.of_nat i) eqn:E; [|lia].
    rewrite Nat2Z.id, Hdoc. simpl.
    destruct (IH (S i)) as (tail & Htail & Hsc); [lia|].
    replace (Z.of_nat i + 1) with (Z.of_nat (S i)) by lia.
    rewrite Htail. simpl. eexists. split; [done|]. simpl. by rewrite Hsc.
Qed.

Lemma postprocess_scores (scores : list Q) (documents : list string) (top_k : Z) :
  length scores = length documents ->
  exists results,
    build_results 0 (zip scores (final_scores (map amplify scores))) documents
      = Some results /\
    map score results = final_scores (map amplify scores) /\
    postprocess amplify scores documents top_k
      = Some (Py.slice_to top_k (Py.sort_desc score results)).
Proof.
  intros Hlen.
  destruct (build_results_ok (zip scores (final_scores (map amplify scores)))
              documents 0) as (results & Hres & Hsc).
  { rewrite length_zip, final_scores_length, length_map. lia. }
  change (Z.of_nat 0) with 0 in Hres.
  exists results. split; [done|]. split.
  - rewrite Hsc. apply snd_zip.
    rewrite final_scores_length, length_map. lia.
  - unfold postprocess. by rewrite Hres.
Qed.



End RerankerServerFacts.



(** ** The reranking client: fallback on a failed call *)

Section LocalRerankingFacts.
Import RerankerServer LocalReranking.




Lemma failed_call_falls_back (post : post_outcome) (documents : list string) (top_k : Z) :
  documents <> [] -> server_failed post = true ->
  rerank_results post documents top_k = _fallback_results documents top_k.
Proof.
  intros Hne Hfail. destruct documents as [|d ds]; [done|].
  destruct post as [| | |status body]; simpl in *; try done.
  by rewrite Hfail.
Qed.


End LocalRerankingFacts.



(** ** Adaptive relevance thresholds *)

Section RelevanceFacts.
Import Retrieval Relevance.





Lemma best_of_is_max (scores : list Q) :
  scores <> [] ->
  best_of scores ∈ scores /\ Forall (fun s => (s <= best_of scores)%Q) scores.
Proof.
  destruct scores as [|x xs]; [done|]. intros _.
  split; [apply max_from_attained | apply max_from_upper].
Qed.

Lemma worst_of_is_min (scores : list Q) :
  scores <> [] ->
  worst_of scores ∈ scores /\ Forall (fun s => (worst_of scores <= s)%Q) scores.
Proof.
  destruct scores as [|x xs]; [done|]. intros _.
  split; [apply min_from_attained | apply min_from_lower].
Qed.

Lemma adaptive_filter_unfold (all : list result) :
  all <> [] ->
  let best := best_of (map score_of all) in
  let range := (best - worst_of (map score_of all))%Q in
  adaptive_filter all =
    if Qlt_le_dec best (thresholds best range).2 then []
    else List.filter (fun r => Qle_bool (thresholds best range).1 (score_of r)) all.
Proof.
  intros Hne. destruct all as [|r all]; [done|].
  cbv zeta. unfold adaptive_filter.
  destruct (thresholds _ _) as [high general]. cbn [fst snd].
  destruct (Qlt_le_dec _ general); [done|].
  by destruct (List.filter _ _).
Qed.



End RelevanceFacts.

(** A run of [_rerank_results] on two fused records whose reranked scores are
    10 and 0: only the first one passes the high threshold [0.8 * 10]. *)
Definition example_metadata (lvl : Z) : Retrieval.metadata :=
  Retrieval.Metadata (Some "d"%string) (Some 0) (Some lvl) (Some "title"%string).

Definition example_fused : list Retrieval.result :=
  [ Retrieval.Result "d_0" "alpha" (example_metadata 10) 0.9 Retrieval.hybrid 1
      None (Some 0.01%Q) None None;
    Retrieval.Result "d_1" "beta" (example_metadata 10) 0.8 Retrieval.hybrid 2
      None (Some 0.005%Q) None None ]%string.

Definition example_reranked : list RerankerServer.item :=
  [ RerankerServer.Item 0 10 (Some 0.3%Q) "alpha";
    RerankerServer.Item 1 0 (Some 0.1%Q) "beta" ]%string.


(** ** Dictionaries in insertion order *)

Section DictFacts.
Context {V : Type}.
Implicit Types (d : Py.dict V) (k : string) (v : V).

Lemma dict_get_set_eq d k v : Py.dict_get (Py.dict_set d k v) k = Some v.
Proof.
  induction d as [|[k' v'] d IH]; simpl.
  - by rewrite String.eqb_refl.
  - destruct (String.eqb_spec k k') as [->|Hne]; simpl.
    + by rewrite String.eqb_refl.
    + destruct (String.eqb_spec k k'); [done|]. exact IH.
Qed.

Lemma dict_get_set_ne d k k' v :
  k <> k' -> Py.dict_get (Py.dict_set d k v) k' = Py.dict_get d k'.
Proof.
  intros Hne. induction d as [|[k0 v0] d IH]; simpl.
  - destruct (String.eqb_spec k' k); [congruence | done].
  - destruct (String.eqb_spec k k0) as [->|Hk]; simpl.
    + destruct (String.eqb_spec k' k0); [congruence | done].
    + destruct (String.eqb_spec k' k0); [done | exact IH].
Qed.

Lemma dict_mem_keys d k : Py.dict_mem d k = true <-> k ∈ Py.dict_keys d.
Proof.
  unfold Py.dict_mem, Py.dict_keys. induction d as [|[k' v'] d IH]; simpl.
  - split; [done | intros H; by apply elem_of_nil in H].
  - destruct (String.eqb_spec k k') as [->|Hne].
    + split; [intros _; apply list_elem_of_here | done].
    + rewrite IH. split; [apply list_elem_of_further|].
      intros H. apply elem_of_cons in H as [?|?]; [congruence | done].
Qed.

Lemma dict_get_none d k : Py.dict_get d k = None <-> k ∉ Py.dict_keys d.
Proof.
  rewrite <- dict_mem_keys. unfold Py.dict_mem.
  destruct (Py.dict_get d k); split; try done; intros H; by destruct H.
Qed.

(** Assignment appends a new key and keeps the place of a present one. *)
Lemma dict_keys_set d k v :
  Py.dict_keys (Py.dict_set d k v) =
  if Py.dict_mem d k then Py.dict_keys d else Py.dict_keys d ++ [k].
Proof.
  unfold Py.dict_mem, Py.dict_keys. induction d as [|[k' v'] d IH]; simpl; [done|].
  destruct (String.eqb_spec k k') as [->|Hne]; simpl; [done|].
  rewrite IH. by destruct (Py.dict_get d k).
Qed.

Lemma dict_get_elem d k v :
  NoDup (Py.dict_keys d) -> (k, v) ∈ d <-> Py.dict_get d k = Some v.
Proof.
  unfold Py.dict_keys. induction d as [|[k' v'] d IH]; simpl; intros Hnd.
  - split; [intros H; by apply elem_of_nil in H | done].
  - apply NoDup_cons in Hnd as [Hk' Hnd].
    destruct (String.eqb_spec k k') as [->|Hne].
    + split.
      * intros H. apply elem_of_cons in H as [[= ->]|H]; [done|].
        destruct Hk'. apply list_elem_of_In, in_map_iff. exists (k', v).
        split; [done|]. by apply list_elem_of_In.
      * intros [= ->]. apply list_elem_of_here.
    + rewrite <- (IH Hnd). split.
      * intros H. apply elem_of_cons in H as [[= ? ?]|H]; [congruence | done].
      * apply list_elem_of_further.
Qed.

Lemma dict_elem_key d k v : (k, v) ∈ d -> k ∈ Py.dict_keys d.
Proof.
  intros H. apply list_elem_of_In, in_map_iff. exists (k, v).
  split; [done|]. by apply list_elem_of_In.
Qed.

Lemma dict_nodup d : NoDup (Py.dict_keys d) -> NoDup d.
Proof.
  unfold Py.dict_keys. induction d as [|[k v] d IH]; simpl; intros Hnd.
  - constructor.
  - apply NoDup_cons in Hnd as [Hk Hnd]. constructor; [|by apply IH].
    intros H. apply Hk. by apply dict_elem_key in H.
Qed.

End DictFacts.

(** Keys in order of first insertion: [seen] followed by the new keys of [l]. *)
Fixpoint first_new (seen l : list string) : list string :=
  match l with
  | [] => []
  | x :: l' => if bool_decide (x ∈ seen) then first_new seen l'
               else x :: first_new (seen ++ [x]) l'
  end.


Lemma first_new_nodup (seen l : list string) : NoDup (seen ++ first_new seen l) <-> NoDup seen.
Proof.
  revert seen. induction l as [|y l IH]; intros seen; simpl.
  - by rewrite app_nil_r.
  - case_bool_decide as Hy; [apply IH|].
    rewrite (cons_middle y), app_assoc, IH.
    rewrite NoDup_app. split; [tauto|]. intros Hnd. split; [done|].
    split; [|apply NoDup_singleton].
    intros x Hx Hx'. apply list_elem_of_singleton in Hx' as ->. done.
Qed.



(** The keys after a loop of assignments. *)
Lemma dict_keys_set_first_new {V : Type} (d : Py.dict V) (k : string) (v : V)
    (rest : list string) :
  Py.dict_keys (Py.dict_set d k v) ++ first_new (Py.dict_keys (Py.dict_set d k v)) rest
  = Py.dict_keys d ++ first_new (Py.dict_keys d) (k :: rest).
Proof.
  rewrite dict_keys_set. simpl. destruct (Py.dict_mem d k) eqn:Hm.
  - apply dict_mem_keys in Hm. by rewrite bool_decide_eq_true_2.
  - rewrite bool_decide_eq_false_2.
    + by rewrite <- app_assoc.
    + intros H. apply dict_mem_keys in H. congruence.
Qed.

(** ** Reciprocal rank fusion *)

Section FusionFacts.
Import Retrieval Fusion.

(** The sum of [weight / (k + rank + 1)] over the ranks at which [doc]
    occurs in an enumerated leg. *)
Fixpoint leg_sum (weight : Q) (k : Z) (enumerated : list (Z * result)) (doc : string) : Q :=
  match enumerated with
  | [] => 0%Q
  | (rank, r) :: rest =>
      ((if String.eqb (id r) doc then weight * (1 / inject_Z (k + rank + 1)) else 0)
       + leg_sum weight k rest doc)%Q
  end.

Definition ids (l : list result) : list string := map id l.

Lemma get_score_set (sc : Py.dict Q) (k doc : string) (v : Q) :
  get_score (Py.dict_set sc k v) doc = if String.eqb k doc then v else get_score sc doc.
Proof.
  unfold get_score. destruct (String.eqb_spec k doc) as [->|Hne].
  - by rewrite dict_get_set_eq.
  - by rewrite dict_get_set_ne.
Qed.

Lemma dict_set_Forall {V : Type} (P : string * V -> Prop) (d : Py.dict V) (k : string) (v : V) :
  Forall P d -> P (k, v) -> Forall P (Py.dict_set d k v).
Proof.
  intros Hd Hv. induction Hd as [|[k' v'] d Hx Hd IH]; simpl.
  - by repeat constructor.
  - destruct (String.eqb_spec k k') as [->|Hne]; constructor; auto.
Qed.

Lemma contribution_defined (weight : Q) (k rank : Z) :
  0 <= k -> 0 <= rank ->
  contribution weight k rank = Some (weight * (1 / inject_Z (k + rank + 1)))%Q.
Proof.
  intros Hk Hr. unfold contribution. destruct (k + rank + 1 =? 0) eqn:E; [lia | done].
Qed.

(** What either loop does to the two dictionaries. *)
Definition pass_spec (weight : Q) (k : Z) (enumerated : list (Z * result))
    (leg : list result) (Pe : string * result -> Prop) (st st' : state) : Prop :=
  (forall doc, (get_score st'.1 doc == get_score st.1 doc + leg_sum weight k enumerated doc)%Q) /\
  Py.dict_keys st'.1 = Py.dict_keys st.1 ++ first_new (Py.dict_keys st.1) (ids leg) /\
  Py.dict_keys st'.2 = Py.dict_keys st'.1 /\
  Forall Pe st'.2.

Lemma vector_pass (weight : Q) (k : Z) (Pe : string * result -> Prop)
    (leg : list result) (s : Z) (st : state) :
  0 <= k -> 0 <= s ->
  Py.dict_keys st.2 = Py.dict_keys st.1 ->
  Forall Pe st.2 ->
  (forall r, r ∈ leg -> Pe (id r, r)) ->
  exists st',
    Py.for_each (vector_step weight k) (Py.enumerate_from s leg) st = Some st' /\
    pass_spec weight k (Py.enumerate_from s leg) leg Pe st st'.
Proof.
  intros Hk. revert s st.
  induction leg as [|r leg IH]; intros s [sc docs] Hs Hkeys Hdocs Hleg; simpl in *.
  - exists (sc, docs). split; [done|]. unfold pass_spec; simpl.
    rewrite app_nil_r. repeat split; try done. intros doc. lra.
  - rewrite contribution_defined by done. simpl.
    set (sc1 := Py.dict_set sc (id r) _). set (docs1 := Py.dict_set docs (id r) r).
    destruct (IH (s + 1) (sc1, docs1)) as (st' & Hrun & Hsum & Hk' & Hkd & HP).
    + lia.
    + simpl. subst sc1 docs1. rewrite !dict_keys_set.
      unfold Py.dict_mem. rewrite Hkeys.
      destruct (Py.dict_get sc (id r)) eqn:E1, (Py.dict_get docs (id r)) eqn:E2;
        try done; exfalso.
      * apply dict_get_none in E2. rewrite Hkeys in E2.
        apply E2, dict_mem_keys. unfold Py.dict_mem. by rewrite E1.
      * apply dict_get_none in E1. rewrite <- Hkeys in E1.
        apply E1, dict_mem_keys. unfold Py.dict_mem. by rewrite E2.
    + simpl. apply dict_set_Forall; [done|]. apply Hleg, list_elem_of_here.
    + intros r' Hr'. by apply Hleg, list_elem_of_further.
    + exists st'. split; [done|]. unfold pass_spec. simpl in *.
      split; [|split; [|done]].
      * intros doc. rewrite Hsum. subst sc1. rewrite get_score_set.
        destruct (String.eqb (id r) doc) eqn:E; [|lra].
        apply String.eqb_eq in E. subst doc. lra.
      * rewrite Hk'. subst sc1. apply dict_keys_set_first_new.
Qed.

Lemma bm25_pass (weight : Q) (k : Z) (Pe : string * result -> Prop)
    (leg : list result) (s : Z) (st : state) :
  0 <= k -> 0 <= s ->
  Py.dict_keys st.2 = Py.dict_keys st.1 ->
  Forall Pe st.2 ->
  (forall r, r ∈ leg -> Pe (id r, r)) ->
  exists st',
    Py.for_each (bm25_step weight k) (Py.enumerate_from s leg) st = Some st' /\
    pass_spec weight k (Py.enumerate_from s leg) leg Pe st st'.
Proof.
  intros Hk. revert s st.
  induction leg as [|r leg IH]; intros s [sc docs] Hs Hkeys Hdocs Hleg; simpl in *.
  - exists (sc, docs). split; [done|]. unfold pass_spec; simpl.
    rewrite app_nil_r. repeat split; try done. intros doc. lra.
  - rewrite contribution_defined by done. simpl.
    set (sc1 := Py.dict_set sc (id r) _).
    set (docs1 := if Py.dict_mem docs (id r) then docs else Py.dict_set docs (id r) r).
    destruct (IH (s + 1) (sc1, docs1)) as (st' & Hrun & Hsum & Hk' & Hkd & HP).
    + lia.
    + simpl. subst sc1 docs1. rewrite dict_keys_set.
      assert (Py.dict_mem sc (id r) = Py.dict_mem docs (id r)) as Hm.
      { apply eq_true_iff_eq. rewrite !dict_mem_keys. by rewrite Hkeys. }
      rewrite Hm. destruct (Py.dict_mem docs (id r)) eqn:E; [done|].
      rewrite dict_keys_set, E. by rewrite Hkeys.
    + simpl. subst docs1. destruct (Py.dict_mem docs (id r)); [done|].
      apply dict_set_Forall; [done|]. apply Hleg, list_elem_of_here.
    + intros r' Hr'. by apply Hleg, list_elem_of_further.
    + exists st'. split; [done|]. unfold pass_spec. simpl in *.
      split; [|split; [|done]].
      * intros doc. rewrite Hsum. subst sc1. rewrite get_score_set.
        destruct (String.eqb (id r) doc) eqn:E; [|lra].
        apply String.eqb_eq in E. subst doc. lra.
      * rewrite Hk'. subst sc1. apply dict_keys_set_first_new.
Qed.

(** The records come out in the order of the sorted scores. *)
Lemma emit_sorted (all_docs : Py.dict result) (sorted : list (string * Q)) (n : Z)
    (Pe : string * result -> Prop) :
  NoDup (Py.dict_keys all_docs) ->
  Forall Pe all_docs ->
  (forall e, e ∈ sorted -> e.1 ∈ Py.dict_keys all_docs) ->
  Forall2 (fun r e => exists r0 rk, Pe (e.1, r0) /\ r = update_fused r0 e.2 rk)
          (flat_map (emit all_docs) (Py.enumerate_from n sorted)) sorted.
Proof.
  intros Hnd HP. revert n. induction sorted as [|[doc s] sorted IH]; intros n Hin; simpl.
  - constructor.
  - destruct (Py.dict_get all_docs doc) as [r0|] eqn:E.
    + simpl. constructor.
      * exists r0, (n + 1). split; [|done]. simpl.
        apply dict_get_elem in E; [|done]. rewrite Forall_forall in HP. by apply HP.
      * apply IH. intros e He. by apply Hin, list_elem_of_further.
    + exfalso. apply dict_get_none in E. apply E.
      apply (Hin (doc, s)), list_elem_of_here.
Qed.

End FusionFacts.

(** ** More on the stable sort: maps, filters and uniqueness *)

Section StableSortMore.
Context {A : Type} (key : A -> Q).

Lemma insert_desc_ext (key' : A -> Q) (x : A) (l : list A) :
  (forall y, y ∈ x :: l -> (key y == key' y)%Q) ->
  Py.insert_desc key x l = Py.insert_desc key' x l.
Proof.
  induction l as [|y l IH]; intros Hext; simpl; [done|].
  rewrite (Hext x) by apply list_elem_of_here.
  rewrite (Hext y) by apply list_elem_of_further, list_elem_of_here.
  destruct (Qle_bool _ _); [done|]. f_equal. apply IH.
  intros z Hz. apply Hext. apply elem_of_cons in Hz as [->|Hz].
  - apply list_elem_of_here.
  - by do 2 apply list_elem_of_further.
Qed.

Lemma sort_desc_ext (key' : A -> Q) (l : list A) :
  (forall y, y ∈ l -> (key y == key' y)%Q) ->
  Py.sort_desc key l = Py.sort_desc key' l.
Proof.
  induction l as [|x l IH]; intros Hext; simpl; [done|].
  rewrite <- IH by (intros y Hy; by apply Hext, list_elem_of_further).
  apply insert_desc_ext. intros y Hy. apply Hext.
  apply elem_of_cons in Hy as [->|Hy]; [apply list_elem_of_here|].
  apply list_elem_of_further. by apply sort_desc_elem in Hy.
Qed.

Lemma insert_desc_map {B : Type} (g : B -> A) (x : B) (l : list B) :
  Py.insert_desc key (g x) (map g l) = map g (Py.insert_desc (fun b => key (g b)) x l).
Proof.
  induction l as [|y l IH]; simpl; [done|].
  destruct (Qle_bool _ _); [done|]. simpl. by rewrite IH.
Qed.

Lemma sort_desc_map {B : Type} (g : B -> A) (l : list B) :
  Py.sort_desc key (map g l) = map g (Py.sort_desc (fun b => key (g b)) l).
Proof.
  induction l as [|x l IH]; simpl; [done|]. by rewrite IH, insert_desc_map.
Qed.









End StableSortMore.

Lemma desc_Forall2 {A B : Type} (key1 : A -> Q) (key2 : B -> Q) (l1 : list A) (l2 : list B) :
  Forall2 (fun a b => key1 a = key2 b) l1 l2 -> Py.desc key2 l2 -> Py.desc key1 l1.
Proof.
  unfold Py.desc. induction 1 as [|a b l1 l2 Hab H2 IH]; intros Hd; constructor.
  - apply IH. by inversion Hd.
  - inversion Hd as [|? ? _ Hall]; subst. rewrite Hab. clear -H2 Hall.
    induction H2 as [|a' b' l1 l2 Hab' _ IH]; constructor.
    + rewrite Hab'. by inversion Hall.
    + apply IH. by inversion Hall.
Qed.

Section FusionOrder.
Import Retrieval Fusion.







Lemma first_new_app (seen l1 l2 : list string) :
  first_new seen (l1 ++ l2) =
  first_new seen l1 ++ first_new (seen ++ first_new seen l1) l2.
Proof.
  revert seen. induction l1 as [|x l1 IH]; intros seen; simpl.
  - by rewrite app_nil_r.
  - case_bool_decide; [apply IH|]. simpl. rewrite IH. by rewrite <- app_assoc.
Qed.

Lemma dict_as_map (d : Py.dict Q) :
  NoDup (Py.dict_keys d) ->
  d = map (fun doc => (doc, get_score d doc)) (Py.dict_keys d).
Proof.
  intros Hnd. unfold Py.dict_keys. rewrite map_map.
  rewrite <- (map_id d) at 1. apply map_ext_in.
  intros [doc s] Hin. simpl. unfold get_score.
  apply list_elem_of_In, dict_get_elem in Hin; [|done]. by rewrite Hin.
Qed.

(** The total RRF score of a chunk id: its contributions over both legs. *)
Definition rrf_total (vector_results bm25_results : list result)
    (vector_weight bm25_weight : Q) (k : Z) (doc : string) : Q :=
  (leg_sum vector_weight k (Py.enumerate vector_results) doc +
   leg_sum bm25_weight k (Py.enumerate bm25_results) doc)%Q.

Definition fused_from (vec bm : list result) (r : result) (e : string * Q) : Prop :=
  exists r0 rk, (id r0 = e.1 /\ r0 ∈ vec ++ bm) /\ r = update_fused r0 e.2 rk.

Lemma fuse_structure (vec bm : list result) (vw bw : Q) (k : Z) :
  0 <= k ->
  exists (D : Py.dict Q) (fused : list result),
    fuse vec bm vw bw k = Some fused /\
    NoDup (Py.dict_keys D) /\
    Py.dict_keys D = first_new [] (ids vec ++ ids bm) /\
    (forall doc, (get_score D doc == rrf_total vec bm vw bw k doc)%Q) /\
    Forall2 (fused_from vec bm) fused (Py.sort_desc snd D).
Proof.
  intros Hk.
  set (Pe := fun e : string * result => id e.2 = e.1 /\ e.2 ∈ vec ++ bm).
  destruct (vector_pass vw k Pe vec 0 ([], [])) as ([D1 A1] & Hrun1 & Hs1 & Hk1 & Hkd1 & HP1);
    [done | lia | done | constructor | |].
  { intros r Hr. split; [done|]. apply elem_of_app. by left. }
  destruct (bm25_pass bw k Pe bm 0 (D1, A1)) as ([D A] & Hrun2 & Hs2 & Hk2 & Hkd2 & HP2);
    [done | lia | done | done | |].
  { intros r Hr. split; [done|]. apply elem_of_app. by right. }
  simpl in *.
  assert (Py.dict_keys D = first_new [] (ids vec ++ ids bm)) as HK.
  { rewrite Hk2, Hk1, first_new_app. done. }
  assert (NoDup (Py.dict_keys D)) as Hnd.
  { rewrite HK. apply (first_new_nodup [] (ids vec ++ ids bm)). constructor. }
  exists D. eexists. split.
  { unfold fuse, Py.enumerate. rewrite Hrun1. simpl. rewrite Hrun2. simpl. reflexivity. }
  split; [done|]. split; [done|]. split.
  { intros doc. rewrite Hs2, Hs1. unfold rrf_total, Py.enumerate, get_score. simpl. ring. }
  eapply Forall2_impl.
  - apply (emit_sorted A (Py.sort_desc snd D) 0 Pe).
    + by rewrite Hkd2.
    + done.
    + intros e He. rewrite Hkd2. apply sort_desc_elem in He.
      destruct e as [doc s]. by apply dict_elem_key in He.
  - intros r e (r0 & rk & HPe & Hr). exists r0, rk. done.
Qed.

Lemma fused_ids (vec bm fused : list result) (sorted : list (string * Q)) :
  Forall2 (fused_from vec bm) fused sorted -> ids fused = map fst sorted.
Proof.
  unfold ids.
  induction 1 as [|r e fused sorted (r0 & rk & [Hid _] & ->) _ IH]; simpl; [done|].
  rewrite IH. by rewrite Hid.
Qed.

(** The order of the fused ids: the ids in order of first insertion, sorted
    stably by descending total score. *)
Lemma fuse_order (vec bm : list result) (vw bw : Q) (k : Z) :
  0 <= k ->
  exists fused,
    fuse vec bm vw bw k = Some fused /\
    ids fused = Py.sort_desc (rrf_total vec bm vw bw k) (first_new [] (ids vec ++ ids bm)) /\
    Forall (fun r => exists s, rrf_score r = Some s /\
                      (s == rrf_total vec bm vw bw k (id r))%Q) fused /\
    Py.desc (fun r => default 0%Q (rrf_score r)) fused /\
    Forall (fun r => exists r0, r0 ∈ vec ++ bm /\ id r = id r0 /\
                       content r = content r0 /\ meta r = meta r0) fused.
Proof.
  intros Hk.
  destruct (fuse_structure vec bm vw bw k Hk) as (D & fused & Hf & Hnd & HK & Hsc & H2).
  exists fused. split; [done|].
  assert (forall r e, fused_from vec bm r e -> e ∈ Py.sort_desc snd D ->
            rrf_score r = Some e.2 /\ id r = e.1 /\
            (e.2 == rrf_total vec bm vw bw k (id r))%Q) as Hent.
  { intros r [doc s] (r0 & rk & [Hid _] & ->) He. simpl in *.
    split; [done|]. split; [done|].
    apply sort_desc_elem, dict_get_elem in He; [|done].
    rewrite <- Hsc, Hid. unfold get_score. by rewrite He. }
  split; [|split; [|split]].
  - rewrite (fused_ids _ _ _ _ H2).
    rewrite (dict_as_map D Hnd) at 1. rewrite sort_desc_map, map_map. simpl.
    rewrite map_id, HK. apply sort_desc_ext. intros doc _. apply Hsc.
  - apply Forall_forall.
    intros r Hr. apply list_elem_of_lookup in Hr as [i Hi].
    destruct (Forall2_lookup_l _ _ _ _ _ H2 Hi) as (e & He & Hre).
    apply list_elem_of_lookup_2 in He.
    destruct (Hent r e Hre He) as (Hs & _ & Ht). by exists e.2.
  - apply (desc_Forall2 _ snd fused (Py.sort_desc snd D)); [|apply sort_desc_sorted].
    eapply Forall2_impl; [exact H2|].
    intros r e (r0 & rk & _ & ->). done.
  - clear Hent Hf. induction H2 as [|r e fused' sorted (r0 & rk & [_ Hin] & ->) _ IH];
      constructor; [by exists r0 | done].
Qed.

End FusionOrder.

(** ** Fusion with one weight set to zero *)

Section FusionZeroWeight.
Import Retrieval Fusion.
Variables (vec bm : list result) (vw bw : Q) (k : Z).
Hypothesis k_nonneg : 0 <= k.
Hypothesis vec_nodup : NoDup (ids vec).
Hypothesis bm_nodup : NoDup (ids bm).

Let keys : list string := first_new [] (ids vec ++ ids bm).













End FusionZeroWeight.

Section FusionSpec.
Import Retrieval Fusion.


End FusionSpec.




(** ** The cache never raises *)

Section CacheFacts.
Import Retrieval Eff Cache.
Variable cache_hash : string -> Z -> option search_params -> string.

Ltac run_cache :=
  unfold get_cached_search_results, cache_search_results, invalidate_search_cache,
    get_cached_bm25_index, cache_bm25_index, invalidate_bm25_cache,
    redis_get, redis_setex, redis_keys, redis_delete, json_loads, pickle_loads,
    try_except, bind, command, ret, raise;
  simpl.

(** C8: no cache operation raises, whatever the store does; and when the
    store raises on a command of the operation, a lookup answers [None], a
    store answers [False] and an invalidation answers [0]. *)
Theorem cache_operations_degrade (r : redis)
    (query : string) (access_level : Z) (params : option search_params)
    (results : report) (data : bm25_data) (ttl : option Z)
    (pattern : option string) (level : option Z) :
  (returned (get_cached_search_results cache_hash query access_level params r).1 /\
   returned (cache_search_results cache_hash query access_level results params ttl r).1 /\
   returned (invalidate_search_cache pattern r).1 /\
   returned (get_cached_bm25_index access_level r).1 /\
   returned (cache_bm25_index access_level data ttl r).1 /\
   returned (invalidate_bm25_cache level r).1) /\
  (forall rest, faults r = true :: rest ->
     (get_cached_search_results cache_hash query access_level params r).1 = Return None /\
     (cache_search_results cache_hash query access_level results params ttl r).1
       = Return false /\
     (invalidate_search_cache pattern r).1 = Return 0 /\
     (get_cached_bm25_index access_level r).1 = Return None /\
     (cache_bm25_index access_level data ttl r).1 = Return false /\
     (invalidate_bm25_cache level r).1 = Return 0) /\
  (forall rest, faults r = false :: true :: rest ->
     (invalidate_search_cache pattern r).1 = Return 0 /\
     (invalidate_bm25_cache None r).1 = Return 0).
Proof.
  split; [|split].
  - repeat split; run_cache.
    + destruct (faults r) as [|[] rest]; simpl; try done;
        destruct (db r !! _) as [[[] ?]|]; simpl; done.
    + destruct (faults r) as [|[] rest]; simpl; done.
    + destruct (faults r) as [|[] rest]; simpl; try done;
        destruct (List.filter _ _); simpl; try done;
        destruct rest as [|[] ?]; simpl; done.
    + destruct (faults r) as [|[] rest]; simpl; try done;
        destruct (db r !! _) as [[[] ?]|]; simpl; done.
    + destruct (faults r) as [|[] rest]; simpl; done.
    + destruct level; simpl.
      * destruct (faults r) as [|[] rest]; simpl; done.
      * destruct (faults r) as [|[] rest]; simpl; try done;
          destruct (List.filter _ _); simpl; try done;
          destruct rest as [|[] ?]; simpl; done.
  - intros rest Hf. repeat split; run_cache; rewrite ?Hf; simpl; try done.
    destruct level; simpl; by rewrite Hf.
  - intros rest Hf. split; run_cache; rewrite Hf; simpl;
      destruct (List.filter _ _); simpl; done.
Qed.

End CacheFacts.

(** ** The connection pool: counting invariant *)

Section PoolFacts.
Import Pool.

(** Queue and active set are disjoint and hold no client twice, every client
    was created by the pool, and the counter counts them within the bound. *)
Record pool_inv (p : pool) : Prop := PoolInv {
  inv_nodup : NoDup (available_connections p);
  inv_disjoint : forall h, h ∈ available_connections p -> h ∉ active_connections p;
  inv_fresh : forall h, h ∈ available_connections p \/ h ∈ active_connections p ->
                        (h < next_handle p)%nat;
  inv_count : Z.of_nat (size (active_connections p)) +
              Z.of_nat (length (available_connections p)) = connection_count p;
  inv_bound : connection_count p <= max_connections p
}.

Lemma create_client_spec (e : env) (p : pool) :
  let '(r, p') := _create_client e p in
  available_connections p' = available_connections p /\
  active_connections p' = active_connections p /\
  connection_count p' = connection_count p /\
  max_connections p' = max_connections p /\
  next_handle p' = S (next_handle p) /\
  (forall h, r = Some h -> h = next_handle p /\ heartbeat e h = true).
Proof.
  unfold _create_client. destruct (connects e && heartbeat e (next_handle p)) eqn:E; simpl.
  - do 5 (split; [done|]). intros h [= <-]. by apply andb_true_iff in E as [_ ?].
  - do 5 (split; [done|]). done.
Qed.

Lemma size_add_fresh (c : handle) (A : gset handle) :
  c ∉ A -> size ({[c]} ∪ A) = S (size A).
Proof.
  intros Hc. rewrite size_union by set_solver. by rewrite size_singleton.
Qed.

Lemma size_remove_member (c : handle) (A : gset handle) :
  c ∈ A -> S (size (A ∖ {[c]})) = size A.
Proof.
  intros Hc. assert (A = {[c]} ∪ (A ∖ {[c]})) as Heq.
  { apply set_eq. intros x. rewrite elem_of_union, elem_of_difference, elem_of_singleton.
    destruct (decide (x = c)) as [->|]; naive_solver. }
  rewrite Heq at 2. rewrite size_add_fresh; [done | set_solver].
Qed.

Lemma take_available_spec (e : env) (b : bool) (c : handle) (rest : list handle) (p : pool) :
  pool_inv p -> available_connections p = c :: rest ->
  let '(r, p') := take_available e b c rest p in
  pool_inv p' /\ max_connections p' = max_connections p /\
  (forall h, r = Some h -> heartbeat e h = true).
Proof.
  intros [Hnd Hdis Hfr Hcnt Hbd] Hq. rewrite Hq in *.
  apply NoDup_cons in Hnd as [Hc Hnd].
  assert (c ∉ active_connections p) as Hca by (apply Hdis, list_elem_of_here).
  unfold take_available. destruct (heartbeat e c) eqn:Hb.
  - split; [|split].
    + destruct b; constructor; simpl; try done.
      * intros h Hh. rewrite elem_of_union, elem_of_singleton.
        intros [->|Hha]; [done|].
        assert (h ∈ c :: rest) as Hin by (by apply list_elem_of_further).
        by apply (Hdis h Hin).
      * intros h [Hh|Hh]; apply Hfr; [left; by apply list_elem_of_further|].
        apply elem_of_union in Hh as [Hh|Hh]; [|by right].
        apply elem_of_singleton in Hh as ->. left. apply list_elem_of_here.
      * rewrite size_add_fresh by done. simpl in Hcnt. lia.
      * intros h Hh. rewrite elem_of_union, elem_of_singleton.
        intros [->|Hha]; [done|].
        assert (h ∈ c :: rest) as Hin by (by apply list_elem_of_further).
        by apply (Hdis h Hin).
      * intros h [Hh|Hh]; apply Hfr; [left; by apply list_elem_of_further|].
        apply elem_of_union in Hh as [Hh|Hh]; [|by right].
        apply elem_of_singleton in Hh as ->. left. apply list_elem_of_here.
      * rewrite size_add_fresh by done. simpl in Hcnt. lia.
    + by destruct b.
    + by intros h [= <-].
  - assert (({[c]} ∪ active_connections p) ∖ {[c]} = active_connections p) as Heq
      by set_solver.
    split; [|split; [by destruct b | done]].
    destruct b; constructor; simpl; rewrite ?Heq; try done.
    + intros h Hh. apply Hdis. by apply list_elem_of_further.
    + intros h [Hh|Hh]; apply Hfr; [left; by apply list_elem_of_further | by right].
    + simpl in Hcnt. lia.
    + lia.
    + intros h Hh. apply Hdis. by apply list_elem_of_further.
    + intros h [Hh|Hh]; apply Hfr; [left; by apply list_elem_of_further | by right].
    + simpl in Hcnt. lia.
    + lia.
Qed.

Definition attempt_ok (e : env) (p : pool) (rp : option handle * pool) : Prop :=
  pool_inv rp.2 /\ max_connections rp.2 = max_connections p /\
  (forall h, rp.1 = Some h -> heartbeat e h = true).

Lemma try_queue_spec (e : env) (b : bool) (p : pool) :
  pool_inv p -> attempt_ok e p (try_queue e b p).
Proof.
  intros Hinv. unfold try_queue, attempt_ok.
  destruct (available_connections p) as [|c rest] eqn:Hq; [done|].
  pose proof (take_available_spec e b c rest p Hinv Hq) as H.
  by destruct (take_available e b c rest p).
Qed.

Lemma try_create_spec (e : env) (p : pool) :
  pool_inv p -> attempt_ok e p (try_create e p).
Proof.
  intros Hinv. unfold try_create, attempt_ok.
  destruct (connection_count p <? max_connections p) eqn:Hlt; [|done].
  pose proof (create_client_spec e p) as H.
  destruct (_create_client e p) as [[c|] p1];
    destruct H as (Hq & Ha & Hc & Hm & Hn & Hr); destruct Hinv as [Hnd Hdis Hfr Hcnt Hbd].
  - destruct (Hr c eq_refl) as [-> Hhb].
    assert (next_handle p ∉ active_connections p) as Hfresh.
    { intros Hin. specialize (Hfr (next_handle p) (or_intror Hin)). lia. }
    split; [|split; [simpl; congruence | by intros h [= <-]]].
    constructor; simpl; rewrite ?Hq, ?Ha, ?Hc, ?Hm, ?Hn.
    + done.
    + intros h Hh. rewrite elem_of_union, elem_of_singleton. intros [->|Hha].
      * specialize (Hfr (next_handle p) (or_introl Hh)). lia.
      * by apply (Hdis h).
    + intros h [Hh|Hh].
      * specialize (Hfr h (or_introl Hh)). lia.
      * apply elem_of_union in Hh as [Hh|Hh].
        -- apply elem_of_singleton in Hh as ->. lia.
        -- specialize (Hfr h (or_intror Hh)). lia.
    + rewrite size_add_fresh by done. lia.
    + lia.
  - split; [|split; [simpl; congruence | done]].
    constructor; simpl; rewrite ?Hq, ?Ha, ?Hc, ?Hm, ?Hn; try done.
    intros h Hh. specialize (Hfr h Hh). lia.
Qed.

Lemma get_client_spec (e : env) (timeout : Q) (p : pool) :
  pool_inv p -> attempt_ok e p (get_client e timeout p).
Proof.
  intros Hinv. unfold get_client.
  destruct (Qlt_le_dec timeout 0) as [_|_].
  { split; [by destruct Hinv | done]. }
  pose proof (try_queue_spec e true p Hinv) as (Hinv1 & Hmax1 & Hhb1).
  destruct (try_queue e true p) as [[c1|] p1]; simpl in *; [done|].
  pose proof (try_create_spec e p1 Hinv1) as (Hinv2 & Hmax2 & Hhb2).
  destruct (try_create e p1) as [[c2|] p2]; simpl in *.
  { unfold attempt_ok; simpl. split; [done|]. split; [congruence | done]. }
  destruct (Qlt_le_dec 0 (timeout - elapsed e)) as [_|_].
  - pose proof (try_queue_spec e false p2 Hinv2) as (Hinv3 & Hmax3 & Hhb3).
    unfold attempt_ok. split; [done|]. split; [congruence | done].
  - unfold attempt_ok; simpl. split; [done|]. split; [congruence | done].
Qed.

Lemma return_client_spec (e : env) (client : handle) (p : pool) :
  pool_inv p ->
  pool_inv (return_client e client p) /\
  max_connections (return_client e client p) = max_connections p.
Proof.
  intros [Hnd Hdis Hfr Hcnt Hbd]. unfold return_client.
  case_bool_decide as Hin; [|done].
  pose proof (size_remove_member client _ Hin) as Hsz.
  destruct (heartbeat e client); [destruct (negb (queue_full _)) eqn:Hfull|].
  - split; [|done]. constructor; simpl.
    + apply NoDup_app. split; [done|]. split; [|apply NoDup_singleton].
      intros h Hh Hh'. apply list_elem_of_singleton in Hh' as ->. by apply (Hdis client).
    + intros h Hh. apply elem_of_app in Hh as [Hh|Hh].
      * specialize (Hdis h Hh). set_solver.
      * apply list_elem_of_singleton in Hh as ->. set_solver.
    + intros h [Hh|Hh].
      * apply elem_of_app in Hh as [Hh|Hh]; [by apply Hfr; left|].
        apply list_elem_of_singleton in Hh as ->. by apply Hfr; right.
      * apply Hfr. right. set_solver.
    + rewrite length_app. simpl. lia.
    + done.
  - split; [|done]. constructor; simpl; try done.
    + intros h Hh. specialize (Hdis h Hh). set_solver.
    + intros h [Hh|Hh]; apply Hfr; [by left | right; set_solver].
    + lia.
    + lia.
  - split; [|done]. constructor; simpl; try done.
    + intros h Hh. specialize (Hdis h Hh). set_solver.
    + intros h [Hh|Hh]; apply Hfr; [by left | right; set_solver].
    + lia.
    + lia.
Qed.

Lemma initialize_step_spec (e : env) (p p' : pool) :
  pool_inv p -> active_connections p = ∅ ->
  initialize_step e p = Some p' ->
  max_connections p' = max_connections p /\
  active_connections p' = ∅ /\
  NoDup (available_connections p') /\
  (forall h, h ∈ available_connections p' -> (h < next_handle p')%nat) /\
  Z.of_nat (length (available_connections p')) = connection_count p' /\
  (connection_count p' = connection_count p \/
   connection_count p' = connection_count p + 1).
Proof.
  intros [Hnd Hdis Hfr Hcnt Hbd] Hact. unfold initialize_step.
  pose proof (create_client_spec e p) as H.
  destruct (_create_client e p) as [[c|] p1]; destruct H as (Hq & Ha & Hc & Hm & Hn & Hr).
  - destruct (queue_full p1); [done|]. intros [= <-]. simpl.
    destruct (Hr c eq_refl) as [-> _].
    rewrite Hq, Ha, Hc, Hm, Hn, Hact in *. rewrite size_empty in Hcnt.
    split; [done|]. split; [done|]. split; [|split; [|split]].
    + apply NoDup_app. split; [done|]. split; [|apply NoDup_singleton].
      intros h Hh Hh'. apply list_elem_of_singleton in Hh' as ->.
      specialize (Hfr _ (or_introl Hh)). lia.
    + intros h Hh. apply elem_of_app in Hh as [Hh|Hh].
      * specialize (Hfr _ (or_introl Hh)). lia.
      * apply list_elem_of_singleton in Hh as ->. lia.
    + rewrite length_app. simpl. lia.
    + by right.
  - intros [= <-]. rewrite Hq, Ha, Hc, Hm, Hn, Hact in *. rewrite size_empty in Hcnt.
    split; [done|]. split; [done|]. split; [done|]. split; [|split].
    + intros h Hh. specialize (Hfr _ (or_introl Hh)). lia.
    + lia.
    + by left.
Qed.

Lemma initialize_loop_spec (e : env) (n : nat) (p p' : pool) :
  pool_inv p -> active_connections p = ∅ ->
  connection_count p + Z.of_nat n <= max_connections p ->
  initialize_loop e n p = Some p' ->
  pool_inv p' /\ max_connections p' = max_connections p.
Proof.
  revert p. induction n as [|n IH]; intros p Hinv Hact Hroom; simpl.
  - by intros [= <-].
  - destruct (initialize_step e p) as [p1|] eqn:Hstep; simpl; [|done].
    destruct (initialize_step_spec e p p1 Hinv Hact Hstep)
      as (Hm & Ha & Hnd & Hfr & Hlen & Hcnt).
    intros Hloop. destruct (IH p1) as [Hinv' Hm']; [| done | lia | done |].
    + constructor; rewrite ?Ha.
      * done.
      * intros h _. apply not_elem_of_empty.
      * intros h [Hh|Hh]; [by apply Hfr | by apply not_elem_of_empty in Hh].
      * rewrite size_empty. lia.
      * lia.
    + split; [done | congruence].
Qed.

Lemma new_pool_spec (e : env) (max min : Z) (p : pool) :
  0 <= max -> min <= max ->
  new_pool e max min = Some p ->
  pool_inv p /\ max_connections p = max.
Proof.
  intros Hmax Hmin Hnew. unfold new_pool in Hnew.
  apply initialize_loop_spec in Hnew; [done| |done|simpl; lia].
  constructor; simpl.
  - constructor.
  - intros h Hh. by apply elem_of_nil in Hh.
  - intros h [Hh|Hh]; [by apply elem_of_nil in Hh | by apply not_elem_of_empty in Hh].
  - done.
  - done.
Qed.

Lemma run_spec (ops : list op) (p : pool) :
  pool_inv p ->
  pool_inv (run ops p) /\ max_connections (run ops p) = max_connections p.
Proof.
  revert p. induction ops as [|o ops IH]; intros p Hinv; [done|].
  unfold run in *. simpl.
  assert (pool_inv (step o p) /\ max_connections (step o p) = max_connections p)
    as [Hinv' Hm'].
  { destruct o as [e timeout|e client]; simpl.
    - by destruct (get_client_spec e timeout p Hinv) as (? & ? & _).
    - by apply return_client_spec. }
  destruct (IH (step o p) Hinv') as [? ?]. split; [done | congruence].
Qed.


End PoolFacts.

(** A pool of two to three clients in a world where every connection works,
    borrowed twice and given back once. *)
Definition example_env : Pool.env := Pool.Env true (fun _ => true) 0.

Definition example_pool : Pool.pool :=
  Pool.Pool_ 3 2 [0%nat; 1%nat] ∅ 2 (Pool.Stats 2 0 0 0 0) 2%nat.

Definition example_ops : list Pool.op :=
  [Pool.Get example_env 30; Pool.Get example_env 30; Pool.Give example_env 0%nat].


(** ** The tokenizer: what becomes of digit tokens *)

Section TokenizerFacts.
Import Tokenizer.
Variable normal_form : text -> option text.
Variable russian_stop_words : list text.

(** The analyser returns a number as its own normal form; all that matters
    here is that the normal form of a digit string is a digit string. *)
Hypothesis numbers_stay_numbers :
  forall t l, isdigit t = true -> normal_form t = Some l -> isdigit l = true.

Lemma digits_all (n : nat) (t rest : text) :
  digits n t = Some rest -> exists d, t = d ++ rest /\ length d = n /\ forallb is_digit d = true.
Proof.
  revert t. induction n as [|n IH]; intros t; simpl.
  - intros [= <-]. by exists [].
  - destruct t as [|c t]; [done|]. destruct (is_digit c) eqn:E; [|done].
    intros H. destruct (IH t H) as (d & -> & Hlen & Hall).
    exists (c :: d). simpl. rewrite E, Hall. by rewrite Hlen.
Qed.

Lemma four_digits_isdigit (token : text) : four_digits token = true -> isdigit token = true.
Proof.
  unfold four_digits. destruct (digits 4 token) as [[|? ?]|] eqn:E; try done.
  intros _. destruct (digits_all _ _ _ E) as (d & -> & Hlen & Hall).
  rewrite app_nil_r. unfold isdigit. by destruct d.
Qed.

Lemma keeps_not_digit (lemma : text) :
  keeps russian_stop_words lemma = true -> isdigit lemma = false.
Proof.
  unfold keeps. intros H. apply andb_true_iff in H as [_ H]. by apply negb_true_iff in H.
Qed.

Lemma lemmatize_part_no_digits (part : text) (out : list text) :
  lemmatize_part normal_form russian_stop_words part = Some out ->
  Forall (fun tok => isdigit tok = false) out.
Proof.
  unfold lemmatize_part. destruct (2 <=? length part)%nat; [|by intros [= <-]].
  destruct (normal_form part) as [lemma|]; simpl; [|done].
  destruct (keeps _ lemma) eqn:E; intros [= <-]; [|done].
  constructor; [by apply keeps_not_digit | done].
Qed.

Lemma mapM_no_digits (f : text -> option (list text)) (l : list text) (outs : list (list text)) :
  (forall x out, f x = Some out -> Forall (fun tok => isdigit tok = false) out) ->
  mapM f l = Some outs ->
  Forall (fun tok => isdigit tok = false) (concat outs).
Proof.
  intros Hf. revert outs. induction l as [|x l IH]; intros outs; simpl.
  - by intros [= <-].
  - destruct (f x) as [out|] eqn:E; simpl; [|done].
    destruct (mapM f l) as [outs'|]; simpl; [|done].
    intros [= <-]. simpl. apply Forall_app. split; [by eapply Hf | by apply IH].
Qed.

Lemma lemmatize_token_no_digits (token : text) (out : list text) :
  lemmatize_token normal_form russian_stop_words token = Some out ->
  Forall (fun tok => isdigit tok = false) out.
Proof.
  unfold lemmatize_token. destruct (length token <? 2)%nat; [by intros [= <-]|].
  destruct (existsb _ token && _).
  - destruct (mapM _ _) as [parts|] eqn:E; simpl; [|done]. intros [= <-].
    eapply mapM_no_digits; [|exact E]. apply lemmatize_part_no_digits.
  - destruct (normal_form token) as [lemma|] eqn:El; simpl; [|done].
    destruct (keeps _ lemma) eqn:Ek; intros [= <-]; [|done].
    pose proof (keeps_not_digit _ Ek) as Hl.
    destruct (text_eqb token DATE) eqn:E1.
    { apply bool_decide_eq_true in E1 as ->. by repeat constructor. }
    destruct (text_eqb token NUMBER) eqn:E2.
    { apply bool_decide_eq_true in E2 as ->. by repeat constructor. }
    destruct (four_digits token) eqn:E3; simpl; [|by repeat constructor].
    apply four_digits_isdigit in E3.
    rewrite (numbers_stay_numbers token lemma E3 El) in Hl. done.
Qed.

(** Whenever the analyser answers for every token, no token made of digits
    only is returned: a four-digit year is dropped like any other number. *)
Lemma tokenizer_returns_no_digit_token (t : text) :
  (forall token, is_Some (normal_form token)) ->
  Forall (fun tok => isdigit tok = false)
         (_improved_tokenize normal_form russian_stop_words t).
Proof.
  intros Htotal. unfold _improved_tokenize.
  destruct (mapM _ (findall (normalize t))) as [outs|] eqn:E.
  - eapply mapM_no_digits; [|exact E]. apply lemmatize_token_no_digits.
  - exfalso. apply mapM_None_1 in E. 
    assert (forall token, is_Some (lemmatize_token normal_form russian_stop_words token))
      as Hall.
    { intros token. unfold lemmatize_token.
      destruct (length token <? 2)%nat; [done|].
      destruct (existsb _ token && _).
      - destruct (mapM _ (split_hyphen token)) as [parts|] eqn:Ep; simpl; [done|].
        apply mapM_None_1 in Ep. exfalso.
        apply Exists_exists in Ep as (part & _ & Hp). unfold lemmatize_part in Hp.
        destruct (2 <=? length part)%nat; [|done].
        destruct (Htotal part) as [l Hl]. by rewrite Hl in Hp.
      - destruct (Htotal token) as [l Hl]. by rewrite Hl. }
    apply Exists_exists in E as (token & _ & Ht).
    destruct (Hall token) as [o Ho]. congruence.
Qed.

End TokenizerFacts.

(** C5 on the code: [DATE] and [NUMBER] are kept and plain numbers are
    dropped, but so is a standalone four-digit year: its normal form is a
    digit string, and the test [not lemma.isdigit()] is made before the branch
    that would keep the token. *)
Theorem tokenizer_drops_standalone_year :
  Tokenizer.tokenize_string "Report 2023 3.14 2024-01-15 12"
    = ["report"; "NUMBER"; "DATE"]%string /\
  Tokenizer.tokenize_string "2023" = [] /\
  Tokenizer.tokenize_string "budget for 1999 and 2099"
    = ["budget"; "for"; "and"]%string.
Proof. repeat split; vm_compute; reflexivity. Qed.

(** ** A Hoare logic for computations that return or raise *)

Section Hoare.
Import Eff.
Context {S : Type}.

Definition hoare {A : Type} (P : S -> Prop) (m : M S A) (Q : outcome A -> S -> Prop) : Prop :=
  forall s, P s -> Q (m s).1 (m s).2.

Lemma hoare_ret {A : Type} (P : S -> Prop) (a : A) (Q : outcome A -> S -> Prop) :
  (forall s, P s -> Q (Return a) s) -> hoare P (ret a) Q.
Proof. intros H s Hs. by apply H. Qed.

Lemma hoare_raise {A : Type} (P : S -> Prop) (e : exn) (Q : outcome A -> S -> Prop) :
  (forall s, P s -> Q (Raise e) s) -> hoare P (raise e) Q.
Proof. intros H s Hs. by apply H. Qed.

Lemma hoare_bind {A B : Type} (P : S -> Prop) (m : M S A) (k : A -> M S B)
    (R : A -> S -> Prop) (Q : outcome B -> S -> Prop) :
  hoare P m (fun o s => match o with Return a => R a s | Raise e => Q (Raise e) s end) ->
  (forall a, hoare (R a) (k a) Q) ->
  hoare P (bind m k) Q.
Proof.
  intros Hm Hk s Hs. unfold bind. specialize (Hm s Hs).
  destruct (m s) as [[a|e] s']; simpl in *; [by apply Hk | done].
Qed.

Lemma hoare_try {A : Type} (P : S -> Prop) (body : M S A) (handler : exn -> M S A)
    (H : exn -> S -> Prop) (Q : outcome A -> S -> Prop) :
  hoare P body (fun o s => match o with Return a => Q (Return a) s | Raise e => H e s end) ->
  (forall e, hoare (H e) (handler e) Q) ->
  hoare P (try_except body handler) Q.
Proof.
  intros Hb Hh s Hs. unfold try_except. specialize (Hb s Hs).
  destruct (body s) as [[a|e] s']; simpl in *; [done | by apply Hh].
Qed.

Lemma hoare_get (P : S -> Prop) (Q : outcome S -> S -> Prop) :
  (forall s, P s -> Q (Return s) s) -> hoare P get_state Q.
Proof. intros H s Hs. by apply H. Qed.

Lemma hoare_put (P : S -> Prop) (s' : S) (Q : outcome unit -> S -> Prop) :
  (forall s, P s -> Q (Return tt) s') -> hoare P (put_state s') Q.
Proof. intros H s Hs. by apply (H s). Qed.

Lemma hoare_weaken {A : Type} (P P' : S -> Prop) (m : M S A) (Q Q' : outcome A -> S -> Prop) :
  hoare P' m Q' -> (forall s, P s -> P' s) -> (forall o s, Q' o s -> Q o s) ->
  hoare P m Q.
Proof. intros Hm HP HQ s Hs. by apply HQ, Hm, HP. Qed.

Lemma hoare_assert {A : Type} (phi : Prop) (P : S -> Prop) (m : M S A)
    (Q : outcome A -> S -> Prop) :
  (forall s, P s -> phi) -> (phi -> hoare P m Q) -> hoare P m Q.
Proof. intros Hphi Hm s Hs. apply Hm; [by eapply Hphi | done]. Qed.

End Hoare.

Lemma hoare_zoom {S T A : Type} (get : S -> T) (set : T -> S -> S)
    (m : Eff.M T A) (P : S -> Prop) (Q : Eff.outcome A -> S -> Prop) :
  (forall s, P s -> forall o t', m (get s) = (o, t') -> Q o (set t' s)) ->
  hoare P (Eff.zoom get set m) Q.
Proof.
  intros H s Hs. unfold Eff.zoom. specialize (H s Hs).
  destruct (m (get s)) as [o t'] eqn:E. simpl. by apply H.
Qed.

(** ** What the cache operations do to the store *)

Section CacheStore.
Import Retrieval Eff Cache.
Variable cache_hash : string -> Z -> option search_params -> string.

Lemma get_cached_search_results_store (r r' : redis) (o : outcome (option report))
    (query : string) (level : Z) (params : option search_params) :
  get_cached_search_results cache_hash query level params r = (o, r') ->
  db r' = db r /\
  (o = Return None \/
   exists rep ttl,
     db r !! _generate_search_cache_key cache_hash query level params
       = Some (SearchEntry rep, ttl) /\
     o = Return (Some (set_from_cache true rep))).
Proof.
  unfold get_cached_search_results, redis_get, json_loads, try_except, bind, command,
    ret, raise.
  destruct (faults r) as [|[] rest]; simpl;
    try (intros [= <- <-]; simpl; split; [done | by left]);
    destruct (db r !! _) as [[[rep|d|t] ttl]|] eqn:E; simpl; intros [= <- <-]; simpl;
    (split; [done|]); try (by left); right; by exists rep, ttl.
Qed.

Lemma cache_search_results_store (r r' : redis) (o : outcome bool)
    (query : string) (level : Z) (results : report) (params : option search_params)
    (ttl : option Z) :
  cache_search_results cache_hash query level results params ttl r = (o, r') ->
  (exists b, o = Return b) /\
  (db r' = db r \/
   db r' = <[_generate_search_cache_key cache_hash query level params :=
              (SearchEntry (set_from_cache false results), ttl_or ttl search_cache_ttl)]>
           (db r)).
Proof.
  unfold cache_search_results, redis_setex, try_except, bind, command, ret.
  destruct (faults r) as [|[] rest]; simpl; intros [= <- <-]; simpl;
    (split; [by eexists|]); auto.
Qed.

Lemma get_cached_bm25_index_store (r r' : redis) (o : outcome (option bm25_data)) (level : Z) :
  get_cached_bm25_index level r = (o, r') ->
  db r' = db r /\
  (o = Return None \/
   exists d ttl, db r !! bm25_cache_key level = Some (Bm25Entry d, ttl) /\
                 o = Return (Some d)).
Proof.
  unfold get_cached_bm25_index, redis_get, pickle_loads, try_except, bind, command,
    ret, raise.
  destruct (faults r) as [|[] rest]; simpl;
    try (intros [= <- <-]; simpl; split; [done | by left]);
    destruct (db r !! _) as [[[rep|d|t] ttl]|] eqn:E; simpl; intros [= <- <-]; simpl;
    (split; [done|]); try (by left); right; by exists d, ttl.
Qed.

Lemma cache_bm25_index_store (r r' : redis) (o : outcome bool) (level : Z)
    (data : bm25_data) (ttl : option Z) :
  cache_bm25_index level data ttl r = (o, r') ->
  (exists b, o = Return b) /\
  (db r' = db r \/
   db r' = <[bm25_cache_key level :=
              (Bm25Entry (Bm25Data (bm25_index data) (docs data) (metadatas data)
                            (bm25_ids data) level),
               ttl_or ttl bm25_cache_ttl)]> (db r)).
Proof.
  unfold cache_bm25_index, redis_setex, try_except, bind, command, ret.
  destruct (faults r) as [|[] rest]; simpl; intros [= <- <-]; simpl;
    (split; [by eexists|]); auto.
Qed.

End CacheStore.

(** ** The access filter of [hybrid_search] *)

Section AccessFilter.
Import Retrieval Eff Search.
Variable embedding : Type.
Variable generate_query_embedding : string -> option embedding.
Variable distance : embedding -> embedding -> Q.
Variable expand_query_smart : string -> option expansion.
Variable normal_form : Tokenizer.text -> option Tokenizer.text.
Variable russian_stop_words : list Tokenizer.text.
Variable get_scores : list (list string) -> list string -> list Q.
Variable reranking_service : string -> list string -> Z -> option (list RerankerServer.item).
Variable cache_hash : string -> Z -> option search_params -> string.

(** Keys of different clearance levels do not collide. *)
Hypothesis hash_separates_levels :
  forall q L p q' L' p', cache_hash q L p = cache_hash q' L' p' -> L = L'.

(** The chunk carries an access level, and it is at most [L]. *)
Definition result_ok (L : Z) (r : result) : Prop :=
  exists a, access_level (meta r) = Some a /\ a <= L.

Definition has_level (m : metadata) : Prop := is_Some (access_level m).

(** What the caches and the index in the process hold: a cached report
    under a key of level [L] lists only chunks of level at most [L], and the
    metadata of every BM25 index, cached or in the process, carries levels. *)
Record access_inv (w : world embedding) : Prop := AccessInv {
  search_cache_sound :
    forall q L p rep ttl,
      Cache.db (redis _ w) !! Cache._generate_search_cache_key cache_hash q L p
        = Some (Cache.SearchEntry rep, ttl) ->
      Forall (result_ok L) (results rep);
  bm25_cache_levels :
    forall key d ttl,
      Cache.db (redis _ w) !! key = Some (Cache.Bm25Entry d, ttl) ->
      Forall has_level (metadatas d);
  index_levels : Forall has_level (bm25_metadatas (svc _ w))
}.

Lemma search_key_inj (q : string) (L : Z) (p : option search_params)
    (q' : string) (L' : Z) (p' : option search_params) :
  Cache._generate_search_cache_key cache_hash q L p
    = Cache._generate_search_cache_key cache_hash q' L' p' -> L = L'.
Proof.
  unfold Cache._generate_search_cache_key, Cache.search_prefix. simpl.
  intros [= H]. by eapply hash_separates_levels.
Qed.

Lemma access_inv_set_svc (w : world embedding) (s : service) :
  access_inv w -> Forall has_level (bm25_metadatas s) -> access_inv (set_svc _ s w).
Proof. intros [H1 H2 H3] Hs. by constructor. Qed.

Lemma hoare_cached_search (query : string) (L : Z) (p : option search_params) :
  hoare access_inv
    (cache _ (Cache.get_cached_search_results cache_hash query L p))
    (fun o w => access_inv w /\
       (o = Return None \/
        exists rep, o = Return (Some rep) /\ Forall (result_ok L) (results rep))).
Proof.
  apply hoare_zoom. intros w [H1 H2 H3] o r' Hrun.
  apply get_cached_search_results_store in Hrun as [Hdb Ho].
  split; [constructor; simpl; rewrite ?Hdb; done|].
  destruct Ho as [->|(rep & ttl & Hk & ->)]; [by left|].
  right. eexists. split; [done|]. simpl. by eapply H1.
Qed.

Lemma hoare_cache_search (query : string) (L : Z) (rep : report)
    (p : option search_params) (ttl : option Z) :
  hoare (fun w => access_inv w /\ Forall (result_ok L) (results rep))
    (cache _ (Cache.cache_search_results cache_hash query L rep p ttl))
    (fun o w => (exists b, o = Return b) /\ access_inv w).
Proof.
  apply hoare_zoom. intros w [[H1 H2 H3] Hrep] o r' Hrun.
  apply cache_search_results_store in Hrun as [Ho Hdb].
  split; [done|]. destruct Hdb as [Hdb|Hdb]; constructor; simpl; rewrite ?Hdb; try done.
  - intros q' L' p' rep' ttl'. rewrite lookup_insert. case_decide as Hkey.
    + intros [= <- _]. simpl. apply search_key_inj in Hkey as <-. done.
    + apply H1.
  - intros key d ttl'. rewrite lookup_insert. case_decide; [done | apply H2].
Qed.

Lemma hoare_cached_bm25 (L : Z) :
  hoare access_inv
    (cache _ (Cache.get_cached_bm25_index L))
    (fun o w => access_inv w /\
       (o = Return None \/
        exists d, o = Return (Some d) /\ Forall has_level (metadatas d))).
Proof.
  apply hoare_zoom. intros w [H1 H2 H3] o r' Hrun.
  apply get_cached_bm25_index_store in Hrun as [Hdb Ho].
  split; [constructor; simpl; rewrite ?Hdb; done|].
  destruct Ho as [->|(d & ttl & Hk & ->)]; [by left|].
  right. eexists. split; [done|]. by eapply H2.
Qed.

Lemma hoare_cache_bm25 (L : Z) (data : bm25_data) (ttl : option Z) :
  hoare (fun w => access_inv w /\ Forall has_level (metadatas data))
    (cache _ (Cache.cache_bm25_index L data ttl))
    (fun o w => (exists b, o = Return b) /\ access_inv w).
Proof.
  apply hoare_zoom. intros w [[H1 H2 H3] Hd] o r' Hrun.
  apply cache_bm25_index_store in Hrun as [Ho Hdb].
  split; [done|]. destruct Hdb as [Hdb|Hdb]; constructor; simpl; rewrite ?Hdb; try done.
  - intros q' L' p' rep' ttl'. rewrite lookup_insert. case_decide; [done | apply H1].
  - intros key d ttl'. rewrite lookup_insert. case_decide as Hkey.
    + intros [= <- _]. done.
    + apply H2.
Qed.

Lemma where_lte_level (L : Z) (r : stored embedding) :
  where_lte _ L r = true ->
  exists a, access_level (stored_metadata _ r) = Some a /\ a <= L.
Proof.
  unfold where_lte. destruct (access_level _) as [a|]; [|done].
  intros H. exists a. split; [done | lia].
Qed.

Lemma hoare_collection_get (L : Z) :
  hoare access_inv (collection_get _ L)
    (fun o w => access_inv w /\
       match o with
       | Return all => Forall (fun r => where_lte _ L r = true) all
       | Raise _ => True
       end).
Proof.
  intros w Hw. unfold collection_get. destruct (chroma_up _ w); simpl; [|done].
  split; [done|]. apply Forall_forall. intros r Hr.
  by apply list_elem_of_In, filter_In in Hr as [_ Hr].
Qed.

(** The index is built or adopted without losing the invariant, and the call
    never raises. *)
Lemma hoare_ensure_bm25 (L : Z) :
  hoare access_inv
    (_ensure_bm25_initialized _ normal_form russian_stop_words L)
    (fun o w => o = Return tt /\ access_inv w).
Proof.
  unfold _ensure_bm25_initialized.
  apply hoare_try with (H := fun _ w => access_inv w).
  - apply hoare_bind with (R := fun w0 w => w = w0 /\ access_inv w).
    { apply hoare_get. done. }
    intros w0. destruct (_bm25_initialized (svc _ w0)).
    { apply hoare_ret. by intros w [-> Hw]. }
    apply hoare_bind with
      (R := fun c w => access_inv w /\
              (c = None \/ exists d, c = Some d /\ Forall has_level (metadatas d))).
    { eapply hoare_weaken; [apply hoare_cached_bm25 | by intros w [_ Hw] |].
      intros [c|e] w [Hw Hc]; [|by destruct Hc as [?|(? & ? & _)]].
      split; [done|]. destruct Hc as [[= ->]|(d & [= ->] & Hd)]; [by left|].
      right. by exists d. }
    intros [data|].
    + apply hoare_bind with
        (R := fun w1 w => w = w1 /\ access_inv w /\ Forall has_level (metadatas data)).
      { apply hoare_get. intros w [Hw [?|(d & [= <-] & Hd)]]; done. }
      intros w1. apply hoare_put. intros w (-> & Hw & Hd).
      split; [done|]. by apply access_inv_set_svc.
    + apply hoare_bind with
        (R := fun all w => access_inv w /\ Forall (fun r => where_lte _ L r = true) all).
      { eapply hoare_weaken; [apply hoare_collection_get | by intros w [Hw _] |].
        intros [all|e] w [Hw Hall]; done. }
      intros all. destruct all as [|r0 all'].
      * apply hoare_bind with (R := fun w1 w => w = w1 /\ access_inv w).
        { apply hoare_get. by intros w [Hw _]. }
        intros w1. apply hoare_put. intros w [-> Hw]. split; [done|].
        apply access_inv_set_svc; [done|]. simpl. by destruct Hw.
      * set (all := r0 :: all').
        assert (forall w : world embedding,
                  Forall (fun r => where_lte _ L r = true) all ->
                  Forall has_level (map (stored_metadata _) all)) as Hlevels.
        { intros _ Hall. apply Forall_map. eapply Forall_impl; [exact Hall|].
          intros r Hr. apply where_lte_level in Hr as (a & Ha & _).
          unfold has_level. by rewrite Ha. }
        apply hoare_bind with
          (R := fun w1 w => w = w1 /\ access_inv w /\
                  Forall has_level (map (stored_metadata _) all)).
        { apply hoare_get. intros w [Hw Hall]. split; [done|]. split; [done|].
          by apply (Hlevels w). }
        intros w1.
        apply hoare_bind with
          (R := fun _ w => access_inv w /\ Forall has_level (map (stored_metadata _) all)).
        { apply hoare_put. intros w (-> & Hw & Hall). split; [|done].
          by apply access_inv_set_svc. }
        intros _.
        apply hoare_bind with (R := fun _ w => access_inv w).
        { eapply hoare_weaken; [apply hoare_cache_bm25 | |].
          - intros w [Hw Hall]. split; [exact Hw | exact Hall].
          - intros [b|e] w [[b' Hb] Hw]; [done | done]. }
        intros _.
        apply hoare_bind with (R := fun w2 w => w = w2 /\ access_inv w).
        { apply hoare_get. done. }
        intros w2. apply hoare_put. intros w [-> Hw]. split; [done|].
        apply access_inv_set_svc; [done|]. simpl. by destruct Hw.
  - intros e. apply hoare_bind with (R := fun w1 w => w = w1 /\ access_inv w).
    { apply hoare_get. done. }
    intros w1. apply hoare_put. intros w [-> Hw]. split; [done|].
    apply access_inv_set_svc; [done|]. simpl. by destruct Hw.
Qed.

Lemma py_index_elem {A : Type} (xs : list A) (i : Z) (x : A) :
  Py.index xs i = Some x -> x ∈ xs.
Proof.
  unfold Py.index. destruct (0 <=? i); [by apply list_elem_of_lookup_2|].
  destruct (_ <=? i); [by apply list_elem_of_lookup_2 | done].
Qed.

Lemma hoare_collection_query (e : embedding) (n L : Z) :
  hoare access_inv (collection_query _ distance e n L)
    (fun o w => access_inv w /\
       match o with
       | Return found => Forall (fun rd => where_lte _ L rd.1 = true) found
       | Raise _ => True
       end).
Proof.
  intros w Hw. unfold collection_query.
  destruct (chroma_up _ w && (0 <? n)); simpl; [|done].
  split; [done|]. apply Forall_forall. intros [r d] Hr. simpl.
  apply subseteq_take, sort_desc_elem in Hr.
  apply list_elem_of_In, in_map_iff in Hr as (r' & [= <- _] & Hr').
  by apply filter_In in Hr' as [_ Hr'].
Qed.

(** The vector leg returns only chunks that pass the store's filter. *)
Lemma hoare_vector_search (query : string) (L top_k : Z) :
  hoare access_inv
    (_vector_search _ generate_query_embedding distance query L top_k)
    (fun o w => access_inv w /\ exists vs, o = Return vs /\ Forall (result_ok L) vs).
Proof.
  unfold _vector_search.
  apply hoare_try with (H := fun _ w => access_inv w).
  - destruct (generate_query_embedding query) as [e|].
    + apply hoare_bind with
        (R := fun found w => access_inv w /\
                Forall (fun rd : stored embedding * Q => where_lte _ L rd.1 = true) found).
      { eapply hoare_weaken; [apply hoare_collection_query | done |].
        by intros [found|err] w [Hw Hf]. }
      intros found. apply hoare_ret. intros w [Hw Hf]. split; [done|].
      eexists. split; [done|]. apply Forall_map, Forall_forall.
      intros [i [r d]] Hin. unfold Py.enumerate in Hin.
      assert ((r, d) ∈ found) as Hrd.
      { rewrite <- (enumerate_from_snd 0 found).
        apply list_elem_of_In, in_map_iff. exists (i, (r, d)). split; [done|].
        by apply list_elem_of_In. }
      rewrite Forall_forall in Hf. specialize (Hf _ Hrd). simpl in Hf.
      by apply where_lte_level in Hf.
    + by apply hoare_raise.
  - intros e. apply hoare_ret. intros w Hw. split; [done|]. by exists [].
Qed.

Lemma bm25_collect_ok (s : service) (L : Z) (x : expansion) (scores : list (Z * Q))
    (acc out : list result) :
  Forall has_level (bm25_metadatas s) ->
  Forall (result_ok L) acc ->
  bm25_collect s L x scores acc = Some out ->
  Forall (result_ok L) out.
Proof.
  intros Hm. revert acc. induction scores as [|[i sc] rest IH]; intros acc Hacc; simpl.
  - by intros [= <-].
  - destruct (i <? _); [|by apply IH].
    destruct (Py.index (bm25_metadatas s) i) as [m|] eqn:Em; simpl; [|done].
    destruct (default 0 (access_level m) <=? L) eqn:El; [|by apply IH].
    destruct (Py.index (bm25_ids s) i) as [rid|]; simpl; [|done].
    destruct (Py.index (bm25_docs s) i) as [doc|]; simpl; [|done].
    apply IH. apply Forall_app. split; [done|]. constructor; [|done].
    apply py_index_elem in Em. rewrite Forall_forall in Hm.
    destruct (Hm m Em) as [a Ha]. exists a. simpl. split; [done|].
    rewrite Ha in El. simpl in El. lia.
Qed.

(** The lexical leg returns only chunks whose level passes its check. *)
Lemma bm25_search_ok (query : string) (L top_k : Z) (s : service) :
  Forall has_level (bm25_metadatas s) ->
  Forall (result_ok L)
    (_bm25_search expand_query_smart normal_form russian_stop_words get_scores
       query L top_k s).
Proof.
  intros Hm. unfold _bm25_search.
  destruct (bm25 s); [|done]. destruct (expand_query_smart query) as [x|]; [|done].
  destruct (bm25_collect _ _ _ _ _) as [out|] eqn:E; [|done].
  apply bm25_collect_ok in E; [|done|done].
  rewrite Forall_forall in E. apply Forall_forall. intros r Hr.
  apply E. apply slice_to_sublist in Hr. by apply sort_desc_elem in Hr.
Qed.

Lemma rrf_fusion_ok (L : Z) (vec bm : list result) (vw bw : Q) :
  Forall (result_ok L) vec -> Forall (result_ok L) bm ->
  Forall (result_ok L) (Fusion._rrf_fusion vec bm vw bw Fusion.default_k).
Proof.
  intros Hv Hb.
  destruct (fuse_order vec bm vw bw 60) as (fused & Hf & _ & _ & _ & Hfrom); [lia|].
  unfold Fusion._rrf_fusion, Fusion.default_k. rewrite Hf.
  eapply Forall_impl; [exact Hfrom|]. intros r (r0 & Hin & _ & _ & Hmeta).
  assert (Forall (result_ok L) (vec ++ bm)) as Hall by (by apply Forall_app).
  rewrite Forall_forall in Hall. destruct (Hall r0 Hin) as (a & Ha & Hle).
  exists a. by rewrite Hmeta.
Qed.

Lemma adaptive_filter_subset (all : list result) (r : result) :
  r ∈ Relevance.adaptive_filter all -> r ∈ all.
Proof.
  unfold Relevance.adaptive_filter. destruct all as [|r0 all]; [done|].
  destruct (Relevance.thresholds _ _) as [high general].
  destruct (Qlt_le_dec _ general); [intros H; by apply elem_of_nil in H|].
  destruct (List.filter _ _) as [|f fs] eqn:E; [intros H; by apply elem_of_nil in H|].
  rewrite <- E. intros H. by apply list_elem_of_In, filter_In in H as [H _]; apply list_elem_of_In.
Qed.

Lemma align_ok (L : Z) (results : list result) (reranked : list RerankerServer.item)
    (acc all : list result) :
  Forall (result_ok L) results -> Forall (result_ok L) acc ->
  Relevance.align results reranked acc = Some all ->
  Forall (result_ok L) all.
Proof.
  intros Hres. revert acc. induction reranked as [|rr rest IH]; intros acc Hacc; simpl.
  - by intros [= <-].
  - destruct (_ <? _); [|by apply IH].
    destruct (Py.index results _) as [r|] eqn:E; simpl; [|done].
    apply IH. apply Forall_app. split; [done|]. constructor; [|done].
    apply py_index_elem in E. rewrite Forall_forall in Hres. by apply (Hres r).
Qed.

Lemma rerank_results_ok (L : Z) (query : string) (results : list result) (top_k : Z) :
  Forall (result_ok L) results ->
  Forall (result_ok L) (Relevance._rerank_results reranking_service query results top_k).
Proof.
  intros Hres. unfold Relevance._rerank_results.
  assert (Forall (result_ok L) (Py.slice_to top_k results)) as Hslice.
  { rewrite Forall_forall in Hres. apply Forall_forall. intros r Hr.
    by apply Hres, (slice_to_sublist top_k). }
  destruct results as [|r0 results']; [done|].
  destruct (reranking_service _ _ _) as [reranked|]; [|done].
  destruct (Relevance.align _ reranked []) as [all|] eqn:E; [|done].
  apply align_ok with (L := L) in E; [|done|done].
  rewrite Forall_forall in E. apply Forall_forall. intros r Hr.
  by apply E, adaptive_filter_subset.
Qed.

(** C1: from a state whose caches are sound, [hybrid_search] at clearance
    [L] returns a report (it does not raise), every chunk of the report
    carries an access level of at most [L], whether the report comes from the
    cache or from the two legs, and the caches are sound afterwards. *)
Theorem hybrid_search_access_filter
    (query : string) (L top_k rerank_top_k : Z) (vector_weight bm25_weight : Q)
    (w : world embedding) :
  access_inv w ->
  let run :=
    hybrid_search _ generate_query_embedding distance expand_query_smart normal_form
      russian_stop_words get_scores reranking_service cache_hash
      query L top_k rerank_top_k vector_weight bm25_weight w in
  exists rep,
    run.1 = Return rep /\
    Forall (fun r => exists a, access_level (meta r) = Some a /\ a <= L) (results rep) /\
    access_inv run.2.
Proof.
  intros Hw run. subst run.
  set (Q := fun (o : outcome report) (w' : world embedding) =>
              exists rep, o = Return rep /\ Forall (result_ok L) (results rep) /\
                          access_inv w').
  enough (hoare access_inv
            (hybrid_search _ generate_query_embedding distance expand_query_smart
               normal_form russian_stop_words get_scores reranking_service cache_hash
               query L top_k rerank_top_k vector_weight bm25_weight) Q) as H.
  { exact (H w Hw). }
  unfold hybrid_search.
  apply hoare_bind with
    (R := fun c w' => access_inv w' /\
            match c with
            | Some rep => Forall (result_ok L) (results rep)
            | None => True
            end).
  { eapply hoare_weaken; [apply hoare_cached_search | done |].
    intros [c|e] w' [Hw' Hc]; [|by destruct Hc as [?|(? & ? & _)]].
    split; [done|]. destruct Hc as [[= ->]|(rep & [= ->] & Hrep)]; done. }
  intros [cached|].
  { apply hoare_ret. intros w' [Hw' Hc]. by exists cached. }
  apply hoare_bind with (R := fun _ w' => access_inv w').
  { eapply hoare_weaken; [apply hoare_ensure_bm25 | by intros w' [Hw' _] |].
    by intros [[]|e] w' [Ho Hw']. }
  intros _.
  apply hoare_bind with (R := fun vs w' => access_inv w' /\ Forall (result_ok L) vs).
  { eapply hoare_weaken; [apply hoare_vector_search | done |].
    intros [vs|e] w' [Hw' (vs' & Ho & Hvs)]; [|done]. by injection Ho as ->. }
  intros vector_results.
  apply hoare_bind with
    (R := fun w1 w' => w' = w1 /\ access_inv w' /\ Forall (result_ok L) vector_results).
  { apply hoare_get. by intros w' [Hw' Hvs]. }
  intros w1.
  match goal with
  | |- hoare _ (Eff.bind (cache _ (Cache.cache_search_results _ _ _ ?rep _ _)) _) _ =>
      set (result := rep)
  end.
  apply hoare_assert with (phi := Forall (result_ok L) (results result)).
  { intros w' (-> & Hw' & Hvs). simpl.
    assert (Forall (result_ok L)
              (Fusion._rrf_fusion vector_results
                 (_bm25_search expand_query_smart normal_form russian_stop_words
                    get_scores query L top_k (svc _ w1))
                 vector_weight bm25_weight Fusion.default_k)) as Hfused.
    { apply rrf_fusion_ok; [done|]. apply bm25_search_ok. by destruct Hw'. }
    destruct (_ && _).
    - by apply rerank_results_ok.
    - rewrite Forall_forall in Hfused. apply Forall_forall. intros r Hr.
      by apply Hfused, (slice_to_sublist rerank_top_k). }
  intros Hresult.
  apply hoare_bind with (R := fun _ w' => access_inv w').
  - eapply hoare_weaken; [apply (hoare_cache_search query L result) | |].
    + intros w' (_ & Hw' & _). split; [exact Hw' | exact Hresult].
    + simpl. by intros [b|e] w' [[b' Hb] Hw'].
  - intros _. apply hoare_ret. intros w' Hw'. by exists result.
Qed.

End AccessFilter.

(** ** A small corpus: chunks at levels 10, 50 and 90 *)

Section Scenario.
Import Retrieval Eff Search.
Local Open Scope string_scope.

Definition scenario_metadata (doc : string) (lvl : Z) : metadata :=
  Metadata (Some doc) (Some 0) (Some lvl) (Some ("Title " +:+ doc)).

Definition scenario_collection : list (stored Q) :=
  [ Stored _ "a_0" "alpha report" (scenario_metadata "a" 10) 0.1%Q;
    Stored _ "b_0" "alpha budget" (scenario_metadata "b" 50) 0.2%Q;
    Stored _ "c_0" "alpha secret" (scenario_metadata "c" 90) 0.3%Q ].

(** A fresh worker: empty caches, no index, a reachable vector store. *)
Definition scenario_world : world Q :=
  World _ (Cache.Redis [] ∅) scenario_collection true (Service None [] [] [] false).

(** Collaborators for the scenario: a constant query embedding, the stored
    number as distance, no synonyms, the ASCII analyser, the number of query
    tokens a document contains as its lexical score, a reranker that is down
    (so the client falls back), and a key that spells out the level. *)
Definition scenario_embed (q : string) : option Q := Some 0%Q.
Definition scenario_distance (a b : Q) : Q := (b - a)%Q.
Definition scenario_expand (q : string) : option expansion := Some (Expansion q q false 0).
Definition scenario_scores (corpus : list (list string)) (q : list string) : list Q :=
  map (fun d => inject_Z (Z.of_nat (length
         (List.filter (fun t => existsb (String.eqb t) q) d)))) corpus.
Definition scenario_rerank (q : string) (documents : list string) (k : Z)
  : option (list RerankerServer.item) :=
  Some (LocalReranking.rerank_results LocalReranking.Timeout documents k).
Definition scenario_hash (q : string) (L : Z) (p : option search_params) : string :=
  pretty L.

Definition scenario_search (q : string) (L : Z) : M (world Q) report :=
  hybrid_search Q scenario_embed scenario_distance scenario_expand
    Tokenizer.ascii_normal_form [] scenario_scores scenario_rerank scenario_hash
    q L 30 10 0.7%Q 0.3%Q.

Lemma scenario_world_sound : access_inv Q scenario_hash scenario_world.
Proof.
  constructor; simpl.
  - intros q L p rep ttl. by rewrite lookup_empty.
  - intros key d ttl. by rewrite lookup_empty.
  - constructor.
Qed.

End Scenario.

(** A query at clearance 40 over chunks at levels 10, 50 and 90. *)
Lemma hybrid_search_access_filter_witness :
  exists rep,
    (scenario_search "alpha" 40 scenario_world).1 = Eff.Return rep /\
    Forall (fun r => exists a, Retrieval.access_level (Retrieval.meta r) = Some a /\ a <= 40)
           (Retrieval.results rep) /\
    map Retrieval.id (Retrieval.results rep) = ["a_0"%string].
Proof.
  destruct (hybrid_search_access_filter Q scenario_embed scenario_distance scenario_expand
              Tokenizer.ascii_normal_form [] scenario_scores scenario_rerank scenario_hash
              ltac:(intros q L p q' L' p' H; exact (pretty_Z_inj L L' H))
              "alpha"%string 40 30 10 0.7%Q 0.3%Q scenario_world scenario_world_sound)
    as (rep & Hrun & Hok & _).
  exists rep. split; [exact Hrun|]. split; [exact Hok|].
  unfold scenario_search in *. vm_compute in Hrun. injection Hrun as <-. reflexivity.
Defined.

(** ** The BM25 index in the process *)

Section IndexFacts.
Import Retrieval Eff Search.
Variable embedding : Type.
Variable normal_form : Tokenizer.text -> option Tokenizer.text.
Variable russian_stop_words : list Tokenizer.text.

(** Once the flag is set, the index is kept for every later clearance level. *)
Lemma ensure_initialized_keeps_index (L : Z) (w : world embedding) :
  _bm25_initialized (svc _ w) = true ->
  _ensure_bm25_initialized _ normal_form russian_stop_words L w = (Return tt, w).
Proof.
  intros Hinit. unfold _ensure_bm25_initialized, try_except, bind, get_state. simpl.
  by rewrite Hinit.
Qed.

End IndexFacts.

(** C4 on the code: a worker that first serves a query at clearance 10 builds
    its index over the chunks of level at most 10 and sets the flag; the next
    query, at clearance 50, scores against that same index, although the
    chunks of level at most 50 are two: the lexical leg finds one chunk where
    the vector leg finds two. *)
Theorem bm25_index_shared_across_levels :
  let first := scenario_search "alpha" 10 scenario_world in
  let second := scenario_search "alpha" 50 first.2 in
  Search.bm25_ids (Search.svc _ first.2) = ["a_0"%string] /\
  Search.bm25_ids (Search.svc _ second.2) = ["a_0"%string] /\
  map (Search.stored_id _)
      (List.filter (Search.where_lte _ 50) (Search.collection _ first.2))
    = ["a_0"; "b_0"]%string /\
  exists rep,
    second.1 = Eff.Return rep /\
    Retrieval.bm25_results_count rep = 1%nat /\
    Retrieval.vector_results_count rep = 2%nat.
Proof.
  cbv zeta. split; [vm_compute; reflexivity|]. split; [vm_compute; reflexivity|].
  split; [vm_compute; reflexivity|].
  eexists. split; [vm_compute; reflexivity|]. split; reflexivity.
Qed.

(** ** The write paths and the caches *)

Section WritePaths.
Import Retrieval Eff Tasks.
Variable embedding : Type.

(** Two worker states with the same cache store and the same index in the
    process. *)
Definition same_caches (s s' : system embedding) : Prop :=
  Search.redis _ (world _ s') = Search.redis _ (world _ s) /\
  Search.svc _ (world _ s') = Search.svc _ (world _ s).

Definition keeps_caches {A} (m : M (system embedding) A) : Prop :=
  forall s, same_caches s (m s).2.

Lemma keeps_ret {A} (a : A) : keeps_caches (ret a).
Proof. by intros s. Qed.

Lemma keeps_raise {A} (e : exn) : keeps_caches (@raise _ A e).
Proof. by intros s. Qed.

Lemma keeps_bind {A B} (m : M (system embedding) A) (k : A -> M (system embedding) B) :
  keeps_caches m -> (forall a, keeps_caches (k a)) -> keeps_caches (bind m k).
Proof.
  intros Hm Hk s. unfold bind. specialize (Hm s).
  destruct (m s) as [[a|e] s1]; simpl in *; [|done].
  destruct (Hk a s1) as [Hr Hs], Hm as [Hr1 Hs1]. split; congruence.
Qed.

Lemma keeps_try {A} (m : M (system embedding) A) (h : exn -> M (system embedding) A) :
  keeps_caches m -> (forall e, keeps_caches (h e)) -> keeps_caches (try_except m h).
Proof.
  intros Hm Hh s. unfold try_except. specialize (Hm s).
  destruct (m s) as [[a|e] s1]; simpl in *; [done|].
  destruct (Hh e s1) as [Hr Hs], Hm as [Hr1 Hs1]. split; congruence.
Qed.

Lemma keeps_save_chunks_to_chromadb (chunks : list (string * metadata))
    (embs : list embedding) : keeps_caches (save_chunks_to_chromadb _ chunks embs).
Proof.
  intros s. unfold save_chunks_to_chromadb, same_caches. destruct (negb _); [done|].
  destruct (chroma_records _ _ _ _); [|done]. by destruct (Search.chroma_up _ _).
Qed.

Lemma keeps_save_chunks_to_postgres (up : bool) (chunks : list (string * metadata)) :
  keeps_caches (save_chunks_to_postgres _ up chunks).
Proof.
  intros s. unfold save_chunks_to_postgres, same_caches. destruct up; [|done].
  by destruct (mapM _ _).
Qed.

Lemma keeps_delete_document_chunks (doc : string) :
  keeps_caches (delete_document_chunks _ doc).
Proof.
  intros s. unfold delete_document_chunks, same_caches.
  by destruct (Search.chroma_up _ _).
Qed.

Lemma keeps_update_document_status (up : bool) (doc status : string) (count : Z) :
  keeps_caches (update_document_status _ up doc status count).
Proof. intros s. unfold update_document_status, same_caches. by destruct up. Qed.

Lemma keeps_process_document (env : ingest embedding) (doc file_path : string) (level : Z) :
  keeps_caches (process_document _ env doc file_path level).
Proof.
  unfold process_document. apply keeps_try.
  - destruct (negb _); [apply keeps_raise|].
    destruct (extracted_text _ env); [|apply keeps_raise].
    destruct (embeddings _ env); [|apply keeps_raise].
    apply keeps_bind; [apply keeps_save_chunks_to_chromadb|]. intros saved.
    apply keeps_bind; [apply keeps_save_chunks_to_postgres|]. intros ok.
    destruct (negb ok); [apply keeps_raise|].
    apply keeps_bind; [apply keeps_update_document_status|]. intros _. apply keeps_ret.
  - intros exc. apply keeps_bind; [|intros _; apply keeps_raise].
    apply keeps_try; [|intros _; apply keeps_ret].
    apply keeps_bind; [apply keeps_delete_document_chunks|]. intros _. apply keeps_ret.
Qed.

Lemma keeps_delete_document (doc : string) : keeps_caches (delete_document _ doc).
Proof.
  unfold delete_document. apply keeps_try; [|intros _; apply keeps_ret].
  apply keeps_bind; [apply keeps_delete_document_chunks|]. intros n. apply keeps_ret.
Qed.

End WritePaths.

(** One ingest run that succeeds: a document [d] of level 10 with one chunk. *)
Definition scenario_ingest : Tasks.ingest Q :=
  Tasks.Ingest _ true (Some "alpha news"%string)
    [("alpha news"%string, scenario_metadata "d" 10)] (Some [0.05%Q]) true.

Definition scenario_system (w : Search.world Q) : Tasks.system Q :=
  Tasks.System _ w ∅ ∅.

(** C3 on the code: [process_document] and [delete_document] leave the cache
    store and the index in the process as they found them, for every input:
    neither issues an invalidation.  On the scenario: a query at clearance 50
    is answered and cached; the ingest of document [d] (level 10) then reports
    success and the vector store holds its chunk [d_0]; the same query is
    answered from the cache, with the results from before the ingest. *)
Theorem process_document_leaves_caches_stale :
  (forall (env : Tasks.ingest Q) (doc file_path : string) (level : Z) (s : Tasks.system Q),
      same_caches Q s (Tasks.process_document Q env doc file_path level s).2) /\
  (forall (doc : string) (s : Tasks.system Q),
      same_caches Q s (Tasks.delete_document Q doc s).2) /\
  let first := scenario_search "alpha" 50 scenario_world in
  let ingested :=
    Tasks.process_document Q scenario_ingest "d" "d.docx" 10 (scenario_system first.2) in
  let second := scenario_search "alpha" 50 (Tasks.world _ ingested.2) in
  ingested.1 = Eff.Return (Tasks.IngestReport true "d" 1 1) /\
  map (Search.stored_id _) (Search.collection _ (Tasks.world _ ingested.2))
    = ["a_0"; "b_0"; "c_0"; "d_0"]%string /\
  exists rep,
    second.1 = Eff.Return rep /\
    Retrieval.from_cache rep = true /\
    map Retrieval.id (Retrieval.results rep) = ["a_0"; "b_0"]%string.
Proof.
  split; [intros; apply keeps_process_document|].
  split; [intros; apply keeps_delete_document|].
  cbv zeta. split; [vm_compute; reflexivity|]. split; [vm_compute; reflexivity|].
  eexists. split; [vm_compute; reflexivity|]. split; reflexivity.
Qed.

(** * Further properties of the sources

    ** [services/cache_service.py]: round trips and invalidation *)

Section CacheRoundTrip.
Import Retrieval Eff Cache.
Variable cache_hash : string -> Z -> option search_params -> string.

(** The next [n] commands reach the server and are answered. *)
Definition healthy (n : nat) (r : redis) : Prop :=
  forallb negb (take n (faults r)) = true.

(** A time-to-live the server accepts: [SETEX] rejects a negative one. *)
Definition valid_ttl (ttl : option Z) : Prop :=
  match ttl with Some t => 0 <= t | None => True end.

Lemma healthy_command {A : Type}
    (run : gmap string (entry * Z) -> A * gmap string (entry * Z)) (n : nat) (r : redis) :
  healthy (S n) r ->
  (command run r).1 = Return (run (db r)).1 /\
  db (command run r).2 = (run (db r)).2 /\
  healthy n (command run r).2.
Proof.
  unfold healthy, command. destruct (faults r) as [|[] rest]; simpl; try done.
  - intros _. destruct (run (db r)); simpl. by rewrite take_nil.
  - intros H. by destruct (run (db r)).
Qed.

Lemma healthy_le (n m : nat) (r : redis) : (n <= m)%nat -> healthy m r -> healthy n r.
Proof.
  unfold healthy. intros Hle H.
  rewrite forallb_forall in *. intros x Hx. apply H.
  apply list_elem_of_In. apply list_elem_of_In in Hx.
  replace n with (n `min` m)%nat in Hx by lia. rewrite <- take_take in Hx.
  revert Hx. apply subseteq_take.
Qed.

Lemma prefix_app (p s : string) : String.prefix p (p +:+ s) = true.
Proof.
  induction p as [|c p IH]; simpl; [by destruct s|].
  by destruct (ascii_dec c c).
Qed.

Lemma search_key_prefix (q : string) (L : Z) (p : option search_params) :
  String.prefix search_prefix (_generate_search_cache_key cache_hash q L p) = true.
Proof. apply prefix_app. Qed.

Lemma bm25_key_prefix (L : Z) : String.prefix bm25_prefix (bm25_cache_key L) = true.
Proof. apply prefix_app. Qed.

Lemma search_key_not_bm25 (q : string) (L : Z) (p : option search_params) :
  String.prefix bm25_prefix (_generate_search_cache_key cache_hash q L p) = false.
Proof. reflexivity. Qed.


Lemma bm25_cache_key_inj (L L' : Z) : bm25_cache_key L = bm25_cache_key L' -> L = L'.
Proof.
  unfold bm25_cache_key, bm25_prefix. simpl. intros [= H]. by apply pretty_Z_inj.
Qed.

Lemma lookup_foldr_delete {V : Type} (d : gmap string V) (keys : list string) (k : string) :
  foldr delete d keys !! k = if bool_decide (k ∈ keys) then None else d !! k.
Proof.
  induction keys as [|k' keys IH]; simpl; [done|].
  destruct (decide (k = k')) as [->|Hne].
  - rewrite lookup_delete_eq. rewrite bool_decide_eq_true_2; [done | by left].
  - rewrite lookup_delete_ne by done. rewrite IH.
    destruct (bool_decide (k ∈ keys)) eqn:E.
    + rewrite bool_decide_eq_true_2; [done|]. apply bool_decide_eq_true in E. by right.
    + rewrite bool_decide_eq_false_2; [done|]. apply bool_decide_eq_false in E.
      intros [?|?]%elem_of_cons; done.
Qed.

(** The keys with a prefix, as [KEYS prefix*] lists them. *)
Definition keys_with (prefix : string) (d : gmap string (entry * Z)) : list string :=
  List.filter (String.prefix prefix) (map fst (map_to_list d)).

Lemma elem_of_keys_with (prefix : string) (d : gmap string (entry * Z)) (k : string) :
  k ∈ keys_with prefix d <-> String.prefix prefix k = true /\ is_Some (d !! k).
Proof.
  unfold keys_with. rewrite list_elem_of_In, List.filter_In, <- list_elem_of_In.
  rewrite list_elem_of_fmap. split.
  - intros [([k' v] & -> & Hin) Hp]. apply elem_of_map_to_list in Hin. by eauto.
  - intros [Hp [v Hv]]. split; [|done]. exists (k, v). split; [done|].
    by apply elem_of_map_to_list.
Qed.

Lemma keys_with_nodup (prefix : string) (d : gmap string (entry * Z)) :
  NoDup (keys_with prefix d).
Proof.
  unfold keys_with. apply NoDup_ListNoDup, List.NoDup_filter, NoDup_ListNoDup.
  apply NoDup_fst_map_to_list.
Qed.

Lemma remove_dups_nodup (l : list string) : NoDup l -> remove_dups l = l.
Proof.
  induction 1 as [|x l Hx _ IH]; simpl; [done|].
  destruct (decide_rel elem_of x l); [done | by rewrite IH].
Qed.

(** [DEL] on keys that exist and are distinct removes them all. *)
Lemma delete_count (prefix : string) (d : gmap string (entry * Z)) :
  length (List.filter (fun k => bool_decide (is_Some (d !! k)))
                      (remove_dups (keys_with prefix d)))
  = length (keys_with prefix d).
Proof.
  rewrite (remove_dups_nodup _ (keys_with_nodup prefix d)).
  assert (Forall (fun k => is_Some (d !! k)) (keys_with prefix d)) as H.
  { apply Forall_forall. intros k Hk. by apply elem_of_keys_with in Hk as [_ ?]. }
  induction H as [|k l Hk _ IH]; simpl; [done|].
  rewrite bool_decide_eq_true_2 by done. simpl. by rewrite IH.
Qed.

End CacheRoundTrip.

Section CacheSemantics.
Import Retrieval Eff Cache.
Variable cache_hash : string -> Z -> option search_params -> string.

Ltac run_healthy r H :=
  unfold healthy in H;
  unfold get_cached_search_results, cache_search_results, invalidate_search_cache,
    get_cached_bm25_index, cache_bm25_index, invalidate_bm25_cache,
    redis_get, redis_setex, redis_keys, redis_delete, json_loads, pickle_loads,
    try_except, bind, command, ret, raise;
  destruct (faults r) as [|[] [|[] ?]]; simpl in H; try discriminate H; simpl.

(** A report stored under a query, level and parameters is what the next
    lookup with the same three returns, marked as coming from the cache. *)
Theorem search_cache_round_trip (r : redis) (query : string) (access_level : Z)
    (params : option search_params) (results : report) (ttl : option Z) :
  healthy 2 r -> valid_ttl ttl ->
  let stored := cache_search_results cache_hash query access_level results params ttl r in
  stored.1 = Return true /\
  (get_cached_search_results cache_hash query access_level params stored.2).1
    = Return (Some (set_from_cache true results)).
Proof.
  intros H _. cbv zeta. run_healthy r H; rewrite lookup_insert_eq; done.
Qed.

(** A BM25 index stored for a level is what the next lookup at that level
    returns, stamped with the level; lookups at other levels are not
    affected. *)
Theorem bm25_cache_round_trip (r : redis) (access_level other : Z) (data : bm25_data)
    (ttl : option Z) :
  healthy 2 r -> valid_ttl ttl ->
  let stored := cache_bm25_index access_level data ttl r in
  stored.1 = Return true /\
  (get_cached_bm25_index access_level stored.2).1
    = Return (Some (Bm25Data (bm25_index data) (docs data) (metadatas data)
                             (bm25_ids data) access_level)) /\
  (other <> access_level ->
   (get_cached_bm25_index other stored.2).1 = (get_cached_bm25_index other r).1).
Proof.
  intros H _. cbv zeta.
  assert (other <> access_level -> bm25_cache_key access_level <> bm25_cache_key other) as Hk.
  { intros Hne Heq. apply Hne. symmetry. by apply bm25_cache_key_inj. }
  run_healthy r H; (split; [done|]);
    (split; [by rewrite lookup_insert_eq|]);
    intros Hne; rewrite lookup_insert_ne by auto;
    destruct (db r !! bm25_cache_key other) as [[[] ?]|]; done.
Qed.

(** [KEYS prefix*] followed by [DEL] of what it lists, as both invalidations
    run it. *)
Definition sweep (prefix : string) : M redis Z :=
  try_except
    (do keys <- redis_keys prefix ;
     match keys with
     | [] => ret 0
     | _ => do deleted <- redis_delete keys ; ret deleted
     end)
    (fun _ => ret 0).

Lemma healthy_keys (prefix : string) (n : nat) (r : redis) :
  healthy (S n) r ->
  (redis_keys prefix r).1 = Return (keys_with prefix (db r)) /\
  db (redis_keys prefix r).2 = db r /\
  healthy n (redis_keys prefix r).2.
Proof. apply healthy_command. Qed.

Lemma healthy_delete (keys : list string) (n : nat) (r : redis) :
  healthy (S n) r ->
  (redis_delete keys r).1
    = Return (Z.of_nat (length (List.filter (fun k => bool_decide (is_Some (db r !! k)))
                                            (remove_dups keys)))) /\
  db (redis_delete keys r).2 = foldr delete (db r) keys.
Proof.
  intros H. unfold redis_delete.
  by destruct (healthy_command
                 (fun d => (Z.of_nat (length (List.filter
                                                (fun k => bool_decide (is_Some (d !! k)))
                                                (remove_dups keys))),
                            foldr delete d keys)) n r H) as (? & ? & _).
Qed.

Lemma sweep_run (prefix : string) (r : redis) :
  healthy 2 r ->
  (sweep prefix r).1 = Return (Z.of_nat (length (keys_with prefix (db r)))) /\
  db (sweep prefix r).2 = foldr delete (db r) (keys_with prefix (db r)).
Proof.
  intros H. unfold sweep, try_except, bind.
  destruct (healthy_keys prefix 1 r H) as (Hk1 & Hk2 & Hh).
  destruct (redis_keys prefix r) as [o r1]. simpl in Hk1, Hk2, Hh. subst o.
  pose proof (delete_count prefix (db r)) as Hcount.
  destruct (keys_with prefix (db r)) as [|k ks] eqn:Ek; [done|].
  destruct (healthy_delete (k :: ks) 0 r1 Hh) as (Hd1 & Hd2).
  destruct (redis_delete (k :: ks) r1) as [o r2]. simpl in Hd1, Hd2. subst o.
  unfold ret. cbn [fst snd]. rewrite Hd2, Hk2. split; [|done].
  by rewrite <- Hcount.
Qed.

Lemma lookup_sweep (prefix : string) (d : gmap string (entry * Z)) (key : string) :
  foldr delete d (keys_with prefix d) !! key
  = if String.prefix prefix key then None else d !! key.
Proof.
  rewrite lookup_foldr_delete. case_bool_decide as Hin.
  - apply elem_of_keys_with in Hin as [-> _]. done.
  - destruct (String.prefix prefix key) eqn:Hp; [|done].
    destruct (d !! key) eqn:E; [|done]. exfalso. apply Hin.
    apply elem_of_keys_with. by eauto.
Qed.

(** A lookup of a key the store does not hold is a miss, whatever else
    happens to the connection. *)
Lemma search_lookup_absent (r : redis) (query : string) (access_level : Z)
    (params : option search_params) :
  db r !! _generate_search_cache_key cache_hash query access_level params = None ->
  (get_cached_search_results cache_hash query access_level params r).1 = Return None.
Proof.
  intros Hnone.
  unfold get_cached_search_results, redis_get, try_except, bind, command, ret.
  destruct (faults r) as [|[] rest]; simpl; rewrite ?Hnone; done.
Qed.

Lemma bm25_lookup_absent (r : redis) (access_level : Z) :
  db r !! bm25_cache_key access_level = None ->
  (get_cached_bm25_index access_level r).1 = Return None.
Proof.
  intros Hnone.
  unfold get_cached_bm25_index, redis_get, try_except, bind, command, ret.
  destruct (faults r) as [|[] rest]; simpl; rewrite ?Hnone; done.
Qed.

(** Invalidating the search cache removes every cached report, returns their
    number, and leaves the keys outside the search prefix (the BM25 indexes
    among them) as they were. *)
Theorem invalidate_search_cache_clears (r : redis) :
  healthy 2 r ->
  let run := invalidate_search_cache None r in
  run.1 = Return (Z.of_nat (length (keys_with search_prefix (db r)))) /\
  (forall query access_level params,
     (get_cached_search_results cache_hash query access_level params run.2).1
       = Return None) /\
  (forall key, String.prefix search_prefix key = false -> db run.2 !! key = db r !! key).
Proof.
  intros H. cbv zeta. change (invalidate_search_cache None) with (sweep search_prefix).
  destruct (sweep_run search_prefix r H) as [Ho Hdb]. split; [done|]. split.
  - intros q L p. apply search_lookup_absent. rewrite Hdb, lookup_sweep.
    by rewrite search_key_prefix.
  - intros key Hp. by rewrite Hdb, lookup_sweep, Hp.
Qed.

(** Invalidating the BM25 cache for one level removes the index of that
    level and nothing else; without a level it removes every cached index,
    returns their number, and leaves the cached search reports as they
    were. *)
Theorem invalidate_bm25_cache_scope (r : redis) (level : option Z) :
  healthy 2 r ->
  let run := invalidate_bm25_cache level r in
  match level with
  | Some L =>
      run.1 = Return (if bool_decide (is_Some (db r !! bm25_cache_key L)) then 1 else 0) /\
      (get_cached_bm25_index L run.2).1 = Return None /\
      (forall key, key <> bm25_cache_key L -> db run.2 !! key = db r !! key)
  | None =>
      run.1 = Return (Z.of_nat (length (keys_with bm25_prefix (db r)))) /\
      (forall L, (get_cached_bm25_index L run.2).1 = Return None) /\
      (forall key, String.prefix bm25_prefix key = false -> db run.2 !! key = db r !! key)
  end.
Proof.
  intros H. cbv zeta. destruct level as [L|].
  - unfold invalidate_bm25_cache, try_except, bind, redis_delete.
    destruct (healthy_command
                (fun d => (Z.of_nat (length (List.filter
                                               (fun k => bool_decide (is_Some (d !! k)))
                                               (remove_dups [bm25_cache_key L]))),
                           foldr delete d [bm25_cache_key L]))
                1 r H) as (Hd1 & Hd2 & _).
    destruct (command _ r) as [o r1]. simpl in Hd1, Hd2. subst o. simpl.
    split; [by case_bool_decide|]. split.
    + apply bm25_lookup_absent. by rewrite Hd2, lookup_delete_eq.
    + intros key Hne. by rewrite Hd2, lookup_delete_ne.
  - change (invalidate_bm25_cache None) with (sweep bm25_prefix).
    destruct (sweep_run bm25_prefix r H) as [Ho Hdb]. split; [done|]. split.
    + intros L. apply bm25_lookup_absent. rewrite Hdb, lookup_sweep.
      by rewrite bm25_key_prefix.
    + intros key Hp. by rewrite Hdb, lookup_sweep, Hp.
Qed.

End CacheSemantics.

(** A store holding one report and the index of level 10, and a report to
    cache. *)
Definition example_report : Retrieval.report :=
  Retrieval.Report true "alpha" 50 1 1 1 1 example_fused (0.7%Q, 0.3%Q) false.

Definition example_index : Retrieval.bm25_data :=
  Retrieval.Bm25Data [["alpha"; "report"]] ["alpha report"] [example_metadata 10] ["a_0"] 10.

Definition example_redis : Cache.redis :=
  Cache.Redis []
    (<["search_cache:50" := (Cache.SearchEntry example_report, 3600)]>
       (<["bm25_cache:index_10" := (Cache.Bm25Entry example_index, 7200)]> ∅)).

Lemma search_cache_round_trip_witness :
  (Cache.get_cached_search_results scenario_hash "beta" 20 None
     (Cache.cache_search_results scenario_hash "beta" 20 example_report None (Some 60)
        example_redis).2).1
  = Eff.Return (Some (Retrieval.set_from_cache true example_report)).
Proof.
  apply (search_cache_round_trip scenario_hash example_redis "beta" 20 None
           example_report (Some 60)); [reflexivity | simpl; lia].
Defined.

Lemma bm25_cache_round_trip_witness :
  (Cache.get_cached_bm25_index 10
     (Cache.cache_bm25_index 20 example_index None example_redis).2).1
  = (Cache.get_cached_bm25_index 10 example_redis).1.
Proof.
  apply (bm25_cache_round_trip example_redis 20 10 example_index None);
    [reflexivity | exact I | lia].
Defined.

Lemma invalidate_search_cache_clears_witness :
  (Cache.invalidate_search_cache None example_redis).1 = Eff.Return 1 /\
  (Cache.get_cached_search_results scenario_hash "alpha" 50 None
     (Cache.invalidate_search_cache None example_redis).2).1 = Eff.Return None.
Proof.
  destruct (invalidate_search_cache_clears scenario_hash example_redis) as (Hn & Hget & _);
    [reflexivity|].
  split; [exact Hn | apply Hget].
Defined.

Lemma invalidate_bm25_cache_scope_witness :
  (Cache.invalidate_bm25_cache (Some 10) example_redis).1 = Eff.Return 1 /\
  (Cache.get_cached_bm25_index 10
     (Cache.invalidate_bm25_cache (Some 10) example_redis).2).1 = Eff.Return None.
Proof.
  destruct (invalidate_bm25_cache_scope example_redis (Some 10)) as (Hn & Hget & _);
    [reflexivity|].
  split; [exact Hn | exact Hget].
Defined.

(** ** [services/connection_pool.py]: scoped use, double release, shutdown *)

Module PoolUse.
Import Pool.

(** [with PooledChromaDBClient(pool, timeout) as client: body]: [__enter__]
    borrows, the body runs with what was handed out ([None] when the pool
    gave nothing), and [__exit__] gives a client back; the heartbeats at
    entry and at exit may differ. *)
Definition pooled {A : Type} (at_enter at_exit : env) (timeout : Q)
    (body : option handle -> A) (p : pool) : A * pool :=
  let '(client, p) := get_client at_enter timeout p in
  let a := body client in
  match client with
  | Some c => (a, return_client at_exit c p)
  | None => (a, p)
  end.

(** [health_check]: whether a client could be obtained; it is given back. *)
Definition health_check (at_get at_return : env) (p : pool) : bool * pool :=
  let '(client, p) := get_client at_get 5 p in
  match client with
  | Some c => (true, return_client at_return c p)
  | None => (false, p)
  end.

(** The loop [while not self.available_connections.empty(): get_nowait()]. *)
Fixpoint drain (queue : list handle) : list handle :=
  match queue with
  | [] => []
  | _ :: rest => drain rest
  end.

(** [close_all]: every client of a copy of the active set is removed from
    the set, the queue is drained, and the counter is reset. *)
Definition close_all (p : pool) : pool :=
  let active_copy := elements (active_connections p) in
  let p := with_active (foldr (fun client active => active ∖ {[client]})
                              (active_connections p) active_copy) p in
  let p := with_queue (drain (available_connections p)) p in
  with_count 0 p.

End PoolUse.

Section PoolUseFacts.
Import Pool PoolUse.

Lemma take_available_active (e : env) (b : bool) (c : handle) (rest : list handle) (p : pool) :
  c ∉ active_connections p ->
  let '(r, p') := take_available e b c rest p in
  active_connections p'
  = match r with Some h => {[h]} ∪ active_connections p | None => active_connections p end /\
  (forall h, r = Some h -> h ∉ active_connections p).
Proof.
  intros Hc. unfold take_available. destruct (heartbeat e c).
  - split; [by destruct b | by intros h [= <-]].
  - split; [|done]. destruct b; simpl; set_solver.
Qed.

Lemma try_queue_active (e : env) (b : bool) (p : pool) :
  pool_inv p ->
  let '(r, p') := try_queue e b p in
  active_connections p'
  = match r with Some h => {[h]} ∪ active_connections p | None => active_connections p end /\
  (forall h, r = Some h -> h ∉ active_connections p).
Proof.
  intros Hinv. unfold try_queue.
  destruct (available_connections p) as [|c rest] eqn:Hq; [done|].
  apply take_available_active. apply (inv_disjoint p Hinv). rewrite Hq. by left.
Qed.

Lemma try_create_active (e : env) (p : pool) :
  pool_inv p ->
  let '(r, p') := try_create e p in
  active_connections p'
  = match r with Some h => {[h]} ∪ active_connections p | None => active_connections p end /\
  (forall h, r = Some h -> h ∉ active_connections p).
Proof.
  intros Hinv. unfold try_create.
  destruct (connection_count p <? max_connections p); [|done].
  pose proof (create_client_spec e p) as H.
  destruct (_create_client e p) as [[c|] p1];
    destruct H as (Hq & Ha & Hc & Hm & Hn & Hr); simpl; rewrite ?Ha; [|done].
  split; [done|]. intros h [= <-]. destruct (Hr c eq_refl) as [-> _].
  intros Hin. pose proof (inv_fresh p Hinv (next_handle p) (or_intror Hin)). lia.
Qed.

(** What [get_client] does to the active set: it grows by the client handed
    out, which was not active before, and by nothing else. *)
Lemma get_client_active (e : env) (timeout : Q) (p : pool) :
  pool_inv p ->
  let '(r, p') := get_client e timeout p in
  active_connections p'
  = match r with Some h => {[h]} ∪ active_connections p | None => active_connections p end /\
  (forall h, r = Some h -> h ∉ active_connections p).
Proof.
  intros Hinv. unfold get_client. destruct (Qlt_le_dec timeout 0) as [_|_]; [done|].
  pose proof (try_queue_active e true p Hinv) as H1.
  pose proof (try_queue_spec e true p Hinv) as (Hinv1 & _).
  destruct (try_queue e true p) as [[c1|] p1]; simpl in *; [done|].
  destruct H1 as [Ha1 _].
  pose proof (try_create_active e p1 Hinv1) as H2.
  pose proof (try_create_spec e p1 Hinv1) as (Hinv2 & _).
  destruct (try_create e p1) as [[c2|] p2]; simpl in *.
  { destruct H2 as [Ha2 Hf2]. rewrite Ha1 in *. done. }
  destruct H2 as [Ha2 _].
  destruct (Qlt_le_dec 0 (timeout - elapsed e)) as [_|_]; [|by rewrite Ha2, Ha1].
  pose proof (try_queue_active e false p2 Hinv2) as H3.
  destruct (try_queue e false p2) as [r3 p3]. rewrite Ha2, Ha1 in H3. done.
Qed.

End PoolUseFacts.

Section PoolScoped.
Import Pool PoolUse.

(** A client borrowed through the context manager is given back when the
    block is left: for every pool reached from its construction, whatever
    the block does and whether or not the heartbeats succeed, the set of
    active clients after the block is the set before it, and the counting
    invariant holds on. *)
Theorem pooled_client_released {A : Type} (e0 : env) (max min : Z) (p0 : pool)
    (ops : list op) (at_enter at_exit : env) (timeout : Q) (body : option handle -> A) :
  0 <= max -> min <= max ->
  new_pool e0 max min = Some p0 ->
  let p := run ops p0 in
  let after := (pooled at_enter at_exit timeout body p).2 in
  active_connections after = active_connections p /\
  Z.of_nat (size (active_connections after)) +
    Z.of_nat (length (available_connections after)) = connection_count after /\
  connection_count after <= max.
Proof.
  intros Hmax Hmin Hnew p.
  destruct (new_pool_spec e0 max min p0 Hmax Hmin Hnew) as [Hinv0 Hm0].
  destruct (run_spec ops p0 Hinv0) as [Hinv Hm]. fold p in Hinv, Hm.
  unfold pooled.
  pose proof (get_client_active at_enter timeout p Hinv) as Hact.
  pose proof (get_client_spec at_enter timeout p Hinv) as (Hinv1 & Hm1 & _).
  destruct (get_client at_enter timeout p) as [[c|] p1]; simpl in *.
  - destruct Hact as [Ha Hfresh]. specialize (Hfresh c eq_refl).
    destruct (return_client_spec at_exit c p1 Hinv1) as [Hinv2 Hm2].
    split; [|split; [by destruct Hinv2 | destruct Hinv2; lia]].
    unfold return_client. rewrite bool_decide_eq_true_2 by set_solver.
    destruct (heartbeat at_exit c); [destruct (negb (queue_full _))|]; simpl;
      rewrite Ha; set_solver.
  - destruct Hact as [Ha _]. split; [done|].
    split; [by destruct Hinv1 | destruct Hinv1; lia].
Qed.

(** Giving a client back twice is giving it back once, and giving back a
    client that is not active changes nothing: the counter is not
    decremented twice and the client is not queued twice. *)
Theorem return_client_twice (e e' : env) (client : handle) (p : pool) :
  return_client e' client (return_client e client p) = return_client e client p /\
  (client ∉ active_connections p -> return_client e client p = p).
Proof.
  assert (forall q, client ∉ active_connections q -> return_client e' client q = q) as Hno.
  { intros q Hq. unfold return_client. by rewrite bool_decide_eq_false_2. }
  split.
  - apply Hno. unfold return_client. case_bool_decide as Hin; [|done].
    destruct (heartbeat e client); [destruct (negb (queue_full _))|]; simpl; set_solver.
  - intros Hq. unfold return_client. by rewrite bool_decide_eq_false_2.
Qed.

Lemma foldr_remove (active : gset handle) (l : list handle) :
  foldr (fun client a => a ∖ {[client]}) active l = active ∖ list_to_set l.
Proof.
  induction l as [|c l IH]; simpl; [set_solver|]. rewrite IH. set_solver.
Qed.

Lemma drain_nil (queue : list handle) : drain queue = [].
Proof. by induction queue. Qed.

(** [close_all] leaves a pool without clients, whatever state it was in: no
    active client, no available client, counter 0, statistics untouched; and
    a client that was outstanding and is given back afterwards is dropped:
    the pool stays as [close_all] left it. *)
Theorem close_all_empties (e : env) (client : handle) (p : pool) :
  let closed := close_all p in
  active_connections closed = ∅ /\
  available_connections closed = [] /\
  connection_count closed = 0 /\
  pool_stats closed = pool_stats p /\
  max_connections closed = max_connections p /\
  return_client e client closed = closed.
Proof.
  cbv zeta. unfold close_all. simpl. rewrite foldr_remove, drain_nil.
  assert (active_connections p ∖ list_to_set (elements (active_connections p))
          = (∅ : gset handle)) as Hempty.
  { apply set_eq. intros x. rewrite elem_of_difference, elem_of_list_to_set, elem_of_elements.
    set_solver. }
  rewrite Hempty. do 5 (split; [done|]).
  unfold return_client. simpl. by rewrite bool_decide_eq_false_2.
Qed.

End PoolScoped.

Lemma pooled_client_released_witness :
  Pool.active_connections
    (PoolUse.pooled example_env example_env 30 (fun c => c)
       (Pool.run example_ops example_pool)).2
  = Pool.active_connections (Pool.run example_ops example_pool).
Proof.
  apply (pooled_client_released example_env 3 2 example_pool example_ops
           example_env example_env 30 (fun c => c)); [lia | lia | reflexivity].
Defined.

(** ** The pool's statistics *)

Section PoolStatistics.
Import Pool.

(** The counters agree with the state: no more connections are counted than
    were created, and the clients that are out, together with those given
    back, were all borrowed. *)
Record stats_inv (p : pool) : Prop := StatsInv {
  stats_created : connection_count p <= total_created (pool_stats p);
  stats_borrowed :
    total_returned (pool_stats p) + Z.of_nat (size (active_connections p))
    <= total_borrowed (pool_stats p);
  stats_errors : 0 <= total_errors (pool_stats p)
}.

Lemma create_client_stats (e : env) (p : pool) :
  stats_inv p -> stats_inv (_create_client e p).2.
Proof.
  intros [H1 H2 H3]. unfold _create_client.
  destruct (connects e && heartbeat e (next_handle p)); constructor; simpl; lia.
Qed.

Lemma take_available_stats (e : env) (b : bool) (c : handle) (rest : list handle) (p : pool) :
  c ∉ active_connections p -> stats_inv p -> stats_inv (take_available e b c rest p).2.
Proof.
  intros Hc [H1 H2 H3]. unfold take_available.
  destruct (heartbeat e c); destruct b; constructor; simpl;
    rewrite ?size_add_fresh by done; try lia.
  all: replace (({[c]} ∪ active_connections p) ∖ {[c]}) with (active_connections p)
         by set_solver; lia.
Qed.

Lemma try_queue_stats (e : env) (b : bool) (p : pool) :
  pool_inv p -> stats_inv p -> stats_inv (try_queue e b p).2.
Proof.
  intros Hinv Hs. unfold try_queue.
  destruct (available_connections p) as [|c rest] eqn:Hq; [done|].
  apply take_available_stats; [|done].
  apply (inv_disjoint p Hinv). rewrite Hq. by left.
Qed.

Lemma try_create_stats (e : env) (p : pool) :
  pool_inv p -> stats_inv p -> stats_inv (try_create e p).2.
Proof.
  intros Hinv Hs. unfold try_create.
  destruct (connection_count p <? max_connections p); [|done].
  pose proof (create_client_spec e p) as H.
  pose proof (create_client_stats e p Hs) as [H1 H2 H3].
  destruct (_create_client e p) as [[c|] p1];
    destruct H as (Hq & Ha & Hc & Hm & Hn & Hr); simpl in *; [|by constructor].
  destruct (Hr c eq_refl) as [-> _].
  assert (next_handle p ∉ active_connections p1) as Hfresh.
  { rewrite Ha. intros Hin.
    pose proof (inv_fresh p Hinv (next_handle p) (or_intror Hin)). lia. }
  constructor; simpl; rewrite ?size_add_fresh by done; lia.
Qed.

Lemma get_client_stats (e : env) (timeout : Q) (p : pool) :
  pool_inv p -> stats_inv p -> stats_inv (get_client e timeout p).2.
Proof.
  intros Hinv Hs. unfold get_client.
  destruct (Qlt_le_dec timeout 0) as [_|_].
  { destruct Hs as [H1 H2 H3]. constructor; simpl; lia. }
  pose proof (try_queue_stats e true p Hinv Hs) as Hs1.
  pose proof (try_queue_spec e true p Hinv) as (Hinv1 & _).
  destruct (try_queue e true p) as [[c1|] p1]; simpl in *; [done|].
  pose proof (try_create_stats e p1 Hinv1 Hs1) as Hs2.
  pose proof (try_create_spec e p1 Hinv1) as (Hinv2 & _).
  destruct (try_create e p1) as [[c2|] p2]; simpl in *; [done|].
  destruct (Qlt_le_dec 0 (timeout - elapsed e)) as [_|_]; [|done].
  by apply try_queue_stats.
Qed.

Lemma return_client_stats (e : env) (client : handle) (p : pool) :
  stats_inv p -> stats_inv (return_client e client p).
Proof.
  intros [H1 H2 H3]. unfold return_client. case_bool_decide as Hin; [|done].
  pose proof (size_remove_member client _ Hin) as Hsz.
  destruct (heartbeat e client); [destruct (negb (queue_full _))|];
    constructor; simpl; lia.
Qed.

Lemma initialize_loop_stats (e : env) (n : nat) (p p' : pool) :
  stats_inv p -> initialize_loop e n p = Some p' -> stats_inv p'.
Proof.
  revert p. induction n as [|n IH]; intros p Hs; simpl; [by intros [= <-]|].
  destruct (initialize_step e p) as [p1|] eqn:Hstep; simpl; [|done].
  apply IH. unfold initialize_step in Hstep.
  pose proof (create_client_stats e p Hs) as [H1 H2 H3].
  pose proof (create_client_spec e p) as H.
  destruct (_create_client e p) as [[c|] p0];
    destruct H as (Hq & Ha & Hc & Hm & Hn & Hr); simpl in *.
  - destruct (queue_full p0); [done|]. injection Hstep as <-.
    constructor; simpl; lia.
  - injection Hstep as <-. by constructor.
Qed.

Lemma run_stats (ops : list op) (p : pool) :
  pool_inv p -> stats_inv p -> stats_inv (run ops p).
Proof.
  revert p. induction ops as [|o ops IH]; intros p Hinv Hs; [done|].
  unfold run in *. simpl. apply IH.
  - destruct o as [e timeout|e client]; simpl.
    + by destruct (get_client_spec e timeout p Hinv) as (? & _).
    + by apply return_client_spec.
  - destruct o as [e timeout|e client]; simpl.
    + by apply get_client_stats.
    + by apply return_client_stats.
Qed.

(** The statistics of a pool agree with its state after every sequence of
    [get_client] and [return_client] calls: [connection_count] never exceeds
    [total_created], and the clients that are out plus [total_returned]
    never exceed [total_borrowed]. *)
Theorem pool_statistics_consistent (e0 : env) (max min : Z) (p0 : pool) (ops : list op) :
  0 <= max -> min <= max ->
  new_pool e0 max min = Some p0 ->
  let p := run ops p0 in
  connection_count p <= total_created (pool_stats p) /\
  total_returned (pool_stats p) + Z.of_nat (size (active_connections p))
    <= total_borrowed (pool_stats p) /\
  0 <= total_errors (pool_stats p).
Proof.
  intros Hmax Hmin Hnew p.
  destruct (new_pool_spec e0 max min p0 Hmax Hmin Hnew) as [Hinv0 _].
  assert (stats_inv p0) as Hs0.
  { eapply initialize_loop_stats; [|exact Hnew]. constructor; simpl; done. }
  by destruct (run_stats ops p0 Hinv0 Hs0).
Qed.

End PoolStatistics.

Lemma pool_statistics_consistent_witness :
  Pool.connection_count (Pool.run example_ops example_pool)
  <= Pool.total_created (Pool.pool_stats (Pool.run example_ops example_pool)).
Proof.
  apply (pool_statistics_consistent example_env 3 2 example_pool example_ops);
    [lia | lia | reflexivity].
Defined.

(** ** The cross-encoder endpoint: what an entry of the answer refers to *)

Section RerankerItems.
Import RerankerServer.
Variable amplify : Q -> Q.

(** An entry of the answer stands for the input at its [index]. *)
Definition item_of_input (scores : list Q) (documents : list string) (it : item) : Prop :=
  exists i raw,
    index it = Z.of_nat i /\
    documents !! i = Some (document it) /\
    scores !! i = Some raw /\
    raw_logit it = Some raw.

Lemma build_results_items (zipped : list (Q * Q)) (documents : list string) (i : nat)
    (results : list item) :
  build_results (Z.of_nat i) zipped documents = Some results ->
  Forall2 (fun it e => index it = e.1 /\ score it = e.2.2 /\ raw_logit it = Some e.2.1 /\
                       documents !! Z.to_nat e.1 = Some (document it))
          results (Py.enumerate_from (Z.of_nat i) zipped).
Proof.
  revert i results. induction zipped as [|[raw fin] rest IH]; intros i results; simpl.
  - intros [= <-]. constructor.
  - unfold Py.index. destruct (0 <=? Z.of_nat i) eqn:E; [|apply Z.leb_gt in E; lia].
    destruct (documents !! Z.to_nat (Z.of_nat i)) as [doc|] eqn:Hdoc; simpl; [|done].
    replace (Z.of_nat i + 1) with (Z.of_nat (S i)) by lia.
    destruct (build_results (Z.of_nat (S i)) rest documents) as [tail|] eqn:Ht; simpl; [|done].
    intros [= <-]. constructor; [done|]. by apply IH.
Qed.

Lemma enumerate_from_fst_nodup {A : Type} (s : Z) (xs : list A) :
  NoDup (map fst (Py.enumerate_from s xs)) /\
  Forall (fun e => s <= e.1) (Py.enumerate_from s xs).
Proof.
  revert s. induction xs as [|x xs IH]; intros s; simpl; [split; constructor|].
  destruct (IH (s + 1)) as [Hnd Hge]. split.
  - constructor; [|done]. intros Hin. apply list_elem_of_fmap in Hin as (e & He & Hin).
    rewrite Forall_forall in Hge. specialize (Hge e Hin). lia.
  - constructor; [simpl; lia|]. eapply Forall_impl; [exact Hge|]. simpl. intros; lia.
Qed.

(** The normalisation is monotone: a larger amplified score never gets a
    smaller final score. *)
Lemma final_scores_monotone (amplified : list Q) (i j : nat) (a b fa fb : Q) :
  amplified !! i = Some a -> amplified !! j = Some b ->
  final_scores amplified !! i = Some fa -> final_scores amplified !! j = Some fb ->
  (a <= b)%Q -> (fa <= fb)%Q.
Proof.
  unfold final_scores. intros Ha Hb. destruct (Qlt_le_dec _ _) as [Hlt|Hge].
  - rewrite !list_lookup_fmap, Ha, Hb. simpl. intros [= <-] [= <-] Hab.
    apply Qmult_le_compat_r; [|lra].
    apply Qmult_le_compat_r; [lra|]. apply Qlt_le_weak, Qinv_lt_0_compat. lra.
  - rewrite !list_lookup_fmap, Ha, Hb. simpl. intros [= <-] [= <-] _. lra.
Qed.

(** For one raw logit per document and an amplification that is monotone,
    the handler answers, and every entry of the answer refers to the input
    at its [index]: it carries that document and that raw logit; no index
    occurs twice; and of two entries, the one with the smaller raw logit
    never has the larger score. *)
Theorem rerank_documents_entries (scores : list Q) (documents : list string) (top_k : Z) :
  length scores = length documents ->
  (forall a b, (a <= b)%Q -> (amplify a <= amplify b)%Q) ->
  exists out,
    postprocess amplify scores documents top_k = Some out /\
    Forall (item_of_input scores documents) out /\
    NoDup (map index out) /\
    (forall x y, x ∈ out -> y ∈ out ->
       (default 0 (raw_logit x) <= default 0 (raw_logit y))%Q -> (score x <= score y)%Q).
Proof.
  intros Hlen Hmono.
  destruct (postprocess_scores amplify scores documents top_k Hlen)
    as (results & Hres & Hsc & Hpost).
  pose proof (build_results_items _ documents 0 results Hres) as Hitems.
  change (Z.of_nat 0) with 0 in Hitems.
  set (finals := final_scores (map amplify scores)) in *.
  assert (length finals = length scores) as Hfl.
  { subst finals. by rewrite final_scores_length, length_map. }
  assert (forall it, it ∈ results ->
            exists i raw, index it = Z.of_nat i /\ documents !! i = Some (document it) /\
                          scores !! i = Some raw /\ raw_logit it = Some raw /\
                          finals !! i = Some (score it)) as Hent.
  { intros it Hit. apply list_elem_of_lookup in Hit as [n Hn].
    destruct (Forall2_lookup_l _ _ _ _ _ Hitems Hn) as ([j [raw fin]] & He & Hi & Hs & Hr & Hd).
    simpl in *.
    pose proof (enumerate_from_lookup 0 (zip scores finals) n) as Hl.
    rewrite He in Hl. destruct (zip scores finals !! n) as [[raw' fin']|] eqn:Hz; [|done].
    simpl in Hl. injection Hl as -> <- <-.
    apply lookup_zip_Some in Hz as [Hz1 Hz2].
    exists n, raw. rewrite Hi. replace (0 + Z.of_nat n) with (Z.of_nat n) in * by lia.
    rewrite Nat2Z.id in Hd. rewrite Hs. done. }
  assert (forall it, it ∈ Py.slice_to top_k (Py.sort_desc score results) -> it ∈ results)
    as Hsub.
  { intros it Hit. apply slice_to_sublist in Hit. by apply sort_desc_elem in Hit. }
  exists (Py.slice_to top_k (Py.sort_desc score results)).
  split; [done|]. split; [|split].
  - apply Forall_forall. intros it Hit.
    destruct (Hent it (Hsub it Hit)) as (i & raw & ? & ? & ? & ? & _). by exists i, raw.
  - assert (NoDup (map index results)) as Hnd.
    { assert (map index results = map fst (Py.enumerate_from 0 (zip scores finals))) as ->.
      { clear -Hitems. induction Hitems as [|it e l1 l2 (Hi & _) _ IH]; simpl; [done|].
        by rewrite Hi, IH. }
      apply enumerate_from_fst_nodup. }
    assert (NoDup (map index (Py.sort_desc score results))) as Hnd'.
    { assert (map index (Py.sort_desc score results) ≡ₚ map index results) as Hp
        by apply Permutation_map, sort_desc_perm.
      by rewrite Hp. }
    unfold Py.slice_to.
    destruct (0 <=? top_k); rewrite fmap_take;
      (eapply sublist_NoDup; [exact Hnd' | apply sublist_take]).
  - intros x y Hx Hy Hraw.
    destruct (Hent x (Hsub x Hx)) as (i & rx & _ & _ & Hsx & Hrx & Hfx).
    destruct (Hent y (Hsub y Hy)) as (j & ry & _ & _ & Hsy & Hry & Hfy).
    rewrite Hrx, Hry in Hraw. simpl in Hraw.
    eapply (final_scores_monotone (map amplify scores) i j);
      [by rewrite list_lookup_fmap, Hsx | by rewrite list_lookup_fmap, Hsy
       | exact Hfx | exact Hfy | by apply Hmono].
Qed.

End RerankerItems.

Lemma amplify_example_monotone (a b : Q) :
  (a <= b)%Q -> (RerankerServer.amplify_example a <= RerankerServer.amplify_example b)%Q.
Proof.
  intros Hab. unfold RerankerServer.amplify_example.
  destruct (Qlt_le_dec a 0) as [Ha|Ha], (Qlt_le_dec b 0) as [Hb|Hb]; try lra.
  - apply Qle_shift_div_l; [lra|].
    assert (1 / (1 - a * 100) * (1 - b * 100) == (1 - b * 100) / (1 - a * 100))%Q as ->
      by (field; lra).
    apply Qle_shift_div_r; lra.
  - apply Qle_shift_div_r; [lra|]. nra.
Qed.

Lemma rerank_documents_entries_witness :
  exists out,
    RerankerServer.postprocess RerankerServer.amplify_example
      [0.2%Q; (-0.1)%Q; 0.5%Q] ["a"; "b"; "c"]%string 2 = Some out /\
    NoDup (map RerankerServer.index out).
Proof.
  destruct (rerank_documents_entries RerankerServer.amplify_example
              [0.2%Q; (-0.1)%Q; 0.5%Q] ["a"; "b"; "c"]%string 2 eq_refl
              amplify_example_monotone) as (out & Hout & _ & Hnd & _).
  by exists out.
Defined.

(** ** [_rerank_results]: the best chunk, and the service without its server *)

Section RelevanceMore.
Import Retrieval Relevance.

Lemma align_nil (reranked : list RerankerServer.item) (acc all : list result) :
  align [] reranked acc = Some all -> all = acc.
Proof.
  revert acc. induction reranked as [|rr rest IH]; intros acc; simpl.
  - by intros [= <-].
  - destruct (_ <? _); [|apply IH].
    assert (Py.index (@nil result) (RerankerServer.index rr) = None) as ->
      by (unfold Py.index; repeat (destruct (_ <=? _)); done).
    done.
Qed.

(** When the reranker answers and at least one of its entries is aligned with
    a record, the sign of the best rerank score decides: if it is not
    negative, the records with the best score are returned (so the answer is
    not empty); if it is negative, the query counts as general chat and
    nothing is returned. *)
Theorem rerank_results_keeps_best
    (reranking_service : string -> list string -> Z -> option (list RerankerServer.item))
    (query : string) (results : list result) (top_k : Z)
    (reranked : list RerankerServer.item) (all : list result) :
  reranking_service query (map content results) top_k = Some reranked ->
  align results reranked [] = Some all ->
  all <> [] ->
  let out := _rerank_results reranking_service query results top_k in
  let best := best_of (map score_of all) in
  ((0 <= best)%Q ->
   exists r, r ∈ out /\ r ∈ all /\ score_of r = best) /\
  ((best < 0)%Q -> out = []).
Proof.
  intros Hsvc Halign Hall out best.
  assert (results <> []) as Hres.
  { intros ->. by apply align_nil in Halign. }
  assert (out = adaptive_filter all) as Hout.
  { subst out. unfold _rerank_results. destruct results; [done|].
    by rewrite Hsvc, Halign. }
  pose proof (adaptive_filter_unfold all Hall) as Hunf. cbv zeta in Hunf.
  fold best in Hunf.
  set (range := (best - worst_of (map score_of all))%Q) in *.
  assert (map score_of all <> []) as Hsc by (by destruct all).
  destruct (best_of_is_max _ Hsc) as [Hin _]. fold best in Hin.
  apply list_elem_of_fmap in Hin as (r & Hr & Hrin).
  assert ((0 <= best)%Q ->
          ((thresholds best range).2 <= best)%Q /\ ((thresholds best range).1 <= best)%Q)
    as Hpos.
  { intros Hb. unfold thresholds.
    destruct (Qlt_le_dec 2.0 range); [|destruct (Qlt_le_dec 1.0 range)]; simpl;
      split; lra. }
  assert ((best < 0)%Q -> (best < (thresholds best range).2)%Q) as Hneg.
  { intros Hb. unfold thresholds.
    destruct (Qlt_le_dec 2.0 range); [|destruct (Qlt_le_dec 1.0 range)]; simpl; lra. }
  split.
  - intros Hb. destruct (Hpos Hb) as [Hg Hh]. exists r.
    split; [|by split]. rewrite Hout, Hunf.
    destruct (Qlt_le_dec best _) as [Hlt|_]; [lra|].
    apply list_elem_of_In, filter_In. split; [by apply list_elem_of_In|].
    apply Qle_bool_iff. by rewrite <- Hr.
  - intros Hb. rewrite Hout, Hunf.
    destruct (Qlt_le_dec best _) as [_|Hge]; [done|]. specialize (Hneg Hb). lra.
Qed.

End RelevanceMore.

Section RelevanceDegraded.
Import Retrieval Relevance.

(** What the fallback of the reranking client leads to: the record at each
    position, with the score 0.5 and its position as final rank. *)
Definition keep_order (e : Z * result) : result :=
  let '(i, r) := e in update_reranked r 0.5 (i + 1).

Lemma align_fallback (results : list result) (docs : list string) (s : nat)
    (acc : list result) :
  length acc = s ->
  (s + length docs <= length results)%nat ->
  align results
        (map (fun '(i, doc) => RerankerServer.Item i 0.5 None doc)
             (Py.enumerate_from (Z.of_nat s) docs)) acc
  = Some (acc ++ map keep_order
                   (Py.enumerate_from (Z.of_nat s) (take (length docs) (drop s results)))).
Proof.
  revert s acc. induction docs as [|d docs IH]; intros s acc Hacc Hlen; simpl.
  - by rewrite app_nil_r.
  - simpl in Hlen.
    destruct (lookup_lt_is_Some_2 results s) as [r Hr]; [lia|].
    destruct (Z.of_nat s <? Z.of_nat (length results)) eqn:E; [|apply Z.ltb_ge in E; lia].
    unfold Py.index. destruct (0 <=? Z.of_nat s) eqn:E0; [|apply Z.leb_gt in E0; lia].
    rewrite Nat2Z.id, Hr. simpl.
    replace (Z.of_nat s + 1) with (Z.of_nat (S s)) by lia.
    rewrite IH; [|rewrite length_app; simpl; lia | lia].
    rewrite (drop_S _ _ _ Hr). simpl. rewrite <- app_assoc. simpl.
    rewrite Hacc. by replace (Z.of_nat s + 1) with (Z.of_nat (S s)) by lia.
Qed.

Lemma slice_to_map {A B : Type} (f : A -> B) (k : Z) (xs : list A) :
  Py.slice_to k (map f xs) = map f (Py.slice_to k xs).
Proof.
  unfold Py.slice_to. rewrite length_map. destruct (0 <=? k); by rewrite <- fmap_take.
Qed.

Lemma take_length_take {A : Type} (n : nat) (xs : list A) :
  take (length (take n xs)) xs = take n xs.
Proof.
  rewrite length_take. destruct (Nat.le_gt_cases n (length xs)) as [Hle|Hgt].
  - by rewrite Nat.min_l.
  - rewrite Nat.min_r by lia. by rewrite !take_ge by lia.
Qed.

Lemma best_worst_constant (c : Q) (scores : list Q) :
  scores <> [] -> Forall (eq c) scores -> best_of scores = c /\ worst_of scores = c.
Proof.
  intros Hne Hall. rewrite Forall_forall in Hall.
  destruct (best_of_is_max scores Hne) as [Hb _].
  destruct (worst_of_is_min scores Hne) as [Hw _].
  split; symmetry; by apply Hall.
Qed.

(** With the rerank server unreachable, timing out, failing or answering
    with a status other than 200, [_rerank_results] keeps the order of the
    fused records: it returns the records of the slice [results[:top_k]],
    each with the rerank score 0.5 and its position as final rank; none is
    filtered out. *)
Theorem rerank_results_server_down (post : LocalReranking.post_outcome)
    (query : string) (results : list result) (top_k : Z) :
  LocalReranking.server_failed post = true ->
  _rerank_results (fun q documents k => Some (LocalReranking.rerank_results post documents k))
                  query results top_k
  = map keep_order (Py.enumerate (Py.slice_to top_k results)).
Proof.
  intros Hfail. unfold _rerank_results.
  destruct results as [|r0 rs] eqn:Eres.
  { unfold Py.slice_to. destruct (0 <=? top_k); by rewrite take_nil. }
  rewrite <- Eres. assert (results <> []) as Hne by (by rewrite Eres).
  clear Eres r0 rs.
  rewrite failed_call_falls_back; [|by destruct results | done].
  unfold LocalReranking._fallback_results, Py.enumerate.
  rewrite slice_to_map.
  pose proof (align_fallback results (map content (Py.slice_to top_k results)) 0 []
                eq_refl) as Hal.
  rewrite length_map in Hal. change (Z.of_nat 0) with 0 in Hal.
  rewrite Hal; clear Hal.
  2:{ simpl. unfold Py.slice_to. destruct (0 <=? top_k); rewrite length_take; lia. }
  simpl. rewrite drop_0.
  assert (take (length (Py.slice_to top_k results)) results = Py.slice_to top_k results)
    as ->.
  { unfold Py.slice_to. destruct (0 <=? top_k); apply take_length_take. }
  set (kept := Py.slice_to top_k results).
  set (all := map keep_order (Py.enumerate_from 0 kept)).
  destruct all as [|a all'] eqn:Eall; [done|]. rewrite <- Eall.
  assert (all <> []) as Hall by (by rewrite Eall). clear Eall a all'.
  rewrite adaptive_filter_unfold by done. cbv zeta.
  assert (Forall (fun r => score_of r = 0.5%Q) all) as Hscores.
  { subst all. apply Forall_map, Forall_forall. by intros [i r] _. }
  destruct (best_worst_constant 0.5 (map score_of all)) as [-> ->].
  { by destruct all. }
  { apply Forall_map. eapply Forall_impl; [exact Hscores|]. by intros r ->. }
  unfold thresholds.
  destruct (Qlt_le_dec 2.0 (0.5 - 0.5)) as [H|_]; [lra|].
  destruct (Qlt_le_dec 1.0 (0.5 - 0.5)) as [H|_]; [lra|]. simpl.
  destruct (Qlt_le_dec 0.5 (0.5 * 0.5)) as [H|_]; [lra|].
  clear Hall. induction Hscores as [|r l Hr _ IH]; simpl; [done|].
  rewrite Hr. replace (Qle_bool (0.5 - 0.1) 0.5) with true by reflexivity.
  by rewrite IH.
Qed.

End RelevanceDegraded.

Lemma rerank_results_keeps_best_witness :
  exists r,
    r ∈ Relevance._rerank_results (fun _ _ _ => Some example_reranked)
          "q"%string example_fused 10 /\
    Relevance.score_of r = 10%Q.
Proof.
  pose (all := [ Retrieval.update_reranked (Retrieval.Result "d_0" "alpha"
                   (example_metadata 10) 0.9 Retrieval.hybrid 1 None (Some 0.01%Q)
                   None None) 10 1;
                 Retrieval.update_reranked (Retrieval.Result "d_1" "beta"
                   (example_metadata 10) 0.8 Retrieval.hybrid 2 None (Some 0.005%Q)
                   None None) 0 2 ]%string).
  destruct (rerank_results_keeps_best (fun _ _ _ => Some example_reranked)
              "q"%string example_fused 10 example_reranked all) as [Hpos _];
    [reflexivity | reflexivity | done |].
  destruct Hpos as (r & Hr & _ & Hs); [vm_compute; discriminate|].
  exists r. split; [exact Hr | exact Hs].
Defined.

Lemma rerank_results_server_down_witness :
  map Retrieval.id
      (Relevance._rerank_results
         (fun q documents k =>
            Some (LocalReranking.rerank_results LocalReranking.Timeout documents k))
         "q"%string example_fused 1) = ["d_0"%string].
Proof.
  rewrite (rerank_results_server_down LocalReranking.Timeout "q"%string example_fused 1
             eq_refl).
  reflexivity.
Defined.

(** ** [_rrf_fusion]: ranks, types and ids of the fused list *)

Section FusionRanks.
Import Retrieval Fusion.

Lemma emit_ranks (all_docs : Py.dict result) (sorted : list (string * Q)) (n : Z) :
  (forall e, e ∈ sorted -> e.1 ∈ Py.dict_keys all_docs) ->
  Forall2 (fun r e => rank r = e.1 + 1 /\ type r = hybrid /\ rrf_score r = Some e.2.2)
          (flat_map (emit all_docs) (Py.enumerate_from n sorted))
          (Py.enumerate_from n sorted).
Proof.
  revert n. induction sorted as [|[doc s] sorted IH]; intros n Hin; simpl; [constructor|].
  destruct (Py.dict_get all_docs doc) as [r0|] eqn:E.
  - simpl. constructor; [done|]. apply IH. intros e He. by apply Hin, list_elem_of_further.
  - exfalso. apply dict_get_none in E. apply E. apply (Hin (doc, s)), list_elem_of_here.
Qed.

Lemma fuse_emission (vec bm : list result) (vw bw : Q) (k : Z) :
  0 <= k ->
  exists (D : Py.dict Q) (A : Py.dict result),
    fuse vec bm vw bw k
      = Some (flat_map (emit A) (Py.enumerate (Py.sort_desc snd D))) /\
    Py.dict_keys A = Py.dict_keys D.
Proof.
  intros Hk. set (Pe := fun _ : string * result => True).
  destruct (vector_pass vw k Pe vec 0 ([], [])) as ([D1 A1] & Hrun1 & _ & _ & Hkd1 & HP1);
    [done | lia | done | constructor | done |].
  destruct (bm25_pass bw k Pe bm 0 (D1, A1)) as ([D A] & Hrun2 & _ & _ & Hkd2 & _);
    [done | lia | done | done | done |].
  exists D, A. split; [|done].
  unfold fuse, Py.enumerate. rewrite Hrun1. simpl. by rewrite Hrun2.
Qed.

(** The fused list numbers its records: the record at position [i] has rank
    [i + 1], the type [hybrid] and an RRF score; no chunk id occurs twice,
    also when a leg lists an id more than once; and the list is no longer
    than the two legs together. *)
Theorem rrf_fusion_ranks (vector_results bm25_results : list result)
    (vector_weight bm25_weight : Q) :
  let fused := _rrf_fusion vector_results bm25_results vector_weight bm25_weight default_k in
  (forall i r, fused !! i = Some r ->
     rank r = Z.of_nat i + 1 /\ type r = hybrid /\ is_Some (rrf_score r)) /\
  NoDup (map id fused) /\
  (length fused <= length vector_results + length bm25_results)%nat.
Proof.
  cbv zeta. unfold _rrf_fusion.
  assert (0 <= default_k) as Hk by (unfold default_k; lia).
  destruct (fuse_order vector_results bm25_results vector_weight bm25_weight default_k Hk)
    as (fused & Hf & Hids & _).
  destruct (fuse_emission vector_results bm25_results vector_weight bm25_weight default_k Hk)
    as (D & A & Hf' & HK).
  rewrite Hf. rewrite Hf in Hf'. injection Hf' as Hfused.
  assert (NoDup (ids fused)) as Hnd.
  { rewrite Hids.
    assert (Py.sort_desc
              (rrf_total vector_results bm25_results vector_weight bm25_weight default_k)
              (first_new [] (ids vector_results ++ ids bm25_results))
            ≡ₚ first_new [] (ids vector_results ++ ids bm25_results)) as Hp
      by apply sort_desc_perm.
    rewrite Hp. apply (first_new_nodup [] _). constructor. }
  split; [|split; [exact Hnd|]].
  - intros i r Hi. rewrite Hfused in Hi.
    pose proof (emit_ranks A (Py.sort_desc snd D) 0) as Hr.
    destruct (Forall2_lookup_l _ _ _ _ _ (Hr ltac:(
        intros e He; rewrite HK; apply sort_desc_elem in He;
        destruct e as [doc s]; by apply dict_elem_key in He)) Hi)
      as ([j [doc s]] & He & Hrank & Htype & Hscore).
    unfold Py.enumerate in Hi.
    pose proof (enumerate_from_lookup 0 (Py.sort_desc snd D) i) as Hl.
    rewrite He in Hl. destruct (Py.sort_desc snd D !! i); [|done].
    simpl in Hl. injection Hl as -> _. simpl in *.
    split; [lia|]. split; [done | by eexists].
  - assert (length fused = length (ids fused)) as -> by (unfold ids; by rewrite length_map).
    rewrite Hids, sort_desc_length.
    assert (forall seen l, (length (first_new seen l) <= length l)%nat) as Hfn.
    { intros seen l. revert seen. induction l as [|x l IH]; intros seen; simpl; [lia|].
      destruct (bool_decide _); simpl; [specialize (IH seen) | specialize (IH (seen ++ [x]))];
        lia. }
    etrans; [apply Hfn|]. unfold ids. rewrite length_app, !length_map. lia.
Qed.

End FusionRanks.

(** ** The cache operations on a store that does not fail *)

Section ReliableStore.
Import Retrieval Eff Cache.
Variable cache_hash : string -> Z -> option search_params -> string.

(** What a lookup makes of the value under a key. *)
Definition cached_report (v : option (entry * Z)) : option report :=
  match v with
  | Some (SearchEntry rep, _) => Some (set_from_cache true rep)
  | _ => None
  end.

Definition cached_index (v : option (entry * Z)) : option bm25_data :=
  match v with
  | Some (Bm25Entry d, _) => Some d
  | _ => None
  end.

Lemma reliable_command {A : Type}
    (run : gmap string (entry * Z) -> A * gmap string (entry * Z)) (r : redis) :
  faults r = [] -> command run r = (Return (run (db r)).1, Redis [] (run (db r)).2).
Proof. unfold command. intros ->. by destruct (run (db r)). Qed.

Lemma reliable_eta (r : redis) : faults r = [] -> Redis [] (db r) = r.
Proof. destruct r as [f d]. simpl. by intros ->. Qed.

Lemma reliable_get_search (r : redis) (q : string) (L : Z) (p : option search_params) :
  faults r = [] ->
  get_cached_search_results cache_hash q L p r
  = (Return (cached_report (db r !! _generate_search_cache_key cache_hash q L p)), r).
Proof.
  intros Hf. unfold get_cached_search_results, try_except, bind, redis_get.
  rewrite reliable_command by done. simpl. rewrite reliable_eta by done.
  by destruct (db r !! _) as [[[] ?]|].
Qed.

Lemma reliable_put_search (r : redis) (q : string) (L : Z) (rep : report)
    (p : option search_params) (ttl : option Z) :
  faults r = [] ->
  cache_search_results cache_hash q L rep p ttl r
  = (Return true,
     Redis [] (<[_generate_search_cache_key cache_hash q L p :=
                  (SearchEntry (set_from_cache false rep), ttl_or ttl search_cache_ttl)]>
               (db r))).
Proof.
  intros Hf. unfold cache_search_results, try_except, bind, redis_setex.
  by rewrite reliable_command by done.
Qed.

Lemma reliable_get_bm25 (r : redis) (L : Z) :
  faults r = [] ->
  get_cached_bm25_index L r = (Return (cached_index (db r !! bm25_cache_key L)), r).
Proof.
  intros Hf. unfold get_cached_bm25_index, try_except, bind, redis_get.
  rewrite reliable_command by done. simpl. rewrite reliable_eta by done.
  by destruct (db r !! _) as [[[] ?]|].
Qed.

Lemma reliable_put_bm25 (r : redis) (L : Z) (data : bm25_data) (ttl : option Z) :
  faults r = [] ->
  cache_bm25_index L data ttl r
  = (Return true,
     Redis [] (<[bm25_cache_key L :=
                  (Bm25Entry (Bm25Data (bm25_index data) (docs data) (metadatas data)
                                (bm25_ids data) L),
                   ttl_or ttl bm25_cache_ttl)]> (db r))).
Proof.
  intros Hf. unfold cache_bm25_index, try_except, bind, redis_setex.
  by rewrite reliable_command by done.
Qed.


Lemma search_key_not_bm25_key (q : string) (L L' : Z) (p : option search_params) :
  _generate_search_cache_key cache_hash q L p <> bm25_cache_key L'.
Proof. unfold _generate_search_cache_key, bm25_cache_key. simpl. discriminate. Qed.

End ReliableStore.

(** ** [hybrid_search]: failures of the collaborators, and repeated queries *)

Section SearchBehaviour.
Import Retrieval Eff Search.
Variable embedding : Type.
Variable generate_query_embedding : string -> option embedding.
Variable distance : embedding -> embedding -> Q.
Variable expand_query_smart : string -> option expansion.
Variable normal_form : Tokenizer.text -> option Tokenizer.text.
Variable russian_stop_words : list Tokenizer.text.
Variable get_scores : list (list string) -> list string -> list Q.
Variable reranking_service : string -> list string -> Z -> option (list RerankerServer.item).
Variable cache_hash : string -> Z -> option search_params -> string.

Local Abbreviation ensure := (_ensure_bm25_initialized embedding normal_form russian_stop_words).
Local Abbreviation vector_search := (_vector_search embedding generate_query_embedding distance).
Local Abbreviation search :=
  (hybrid_search embedding generate_query_embedding distance expand_query_smart normal_form
     russian_stop_words get_scores reranking_service cache_hash).

Lemma ensure_returns (L : Z) (w : world embedding) : (ensure L w).1 = Return tt.
Proof.
  unfold _ensure_bm25_initialized, try_except.
  match goal with |- context [match ?body w with _ => _ end] => destruct (body w) as [[[]|e] w'] end;
    done.
Qed.

(** The vector leg answers with a list and changes nothing. *)
Lemma vector_search_pure (query : string) (L top_k : Z) (w : world embedding) :
  exists vs, vector_search query L top_k w = (Return vs, w).
Proof.
  unfold _vector_search, try_except, bind, collection_query, ret, raise.
  destruct (generate_query_embedding query) as [e|]; [|by exists []].
  destruct (chroma_up _ w && (0 <? top_k)); simpl; by eexists.
Qed.

(** [hybrid_search] returns a report in every state of its collaborators:
    with the cache store failing on any of its commands, the vector store
    down, the embedding service, the query expansion, the analyser or the
    reranker raising, it does not raise.  A report that does not come from
    the cache says [success], repeats the query and the level, and counts
    its results. *)
Theorem hybrid_search_never_raises (query : string) (L top_k rerank_top_k : Z)
    (vector_weight bm25_weight : Q) (w : world embedding) :
  exists rep,
    (search query L top_k rerank_top_k vector_weight bm25_weight w).1 = Return rep /\
    (from_cache rep = false ->
     success rep = true /\ Retrieval.query rep = query /\ report_access_level rep = L /\
     final_results_count rep = length (results rep) /\
     weights rep = (vector_weight, bm25_weight)).
Proof.
  unfold hybrid_search, bind, cache, zoom.
  destruct (Cache.get_cached_search_results _ _ _ _ _) as [o r1] eqn:Hget.
  apply get_cached_search_results_store in Hget as [_ [->|(rep & ttl & _ & ->)]];
    [|by eexists].
  pose proof (ensure_returns L (set_redis _ r1 w)) as He.
  destruct (ensure L (set_redis _ r1 w)) as [o2 w2]. simpl in He. subst o2.
  destruct (vector_search_pure query L top_k w2) as [vs ->].
  unfold get_state.
  match goal with
  | |- context [Cache.cache_search_results ?h ?q ?l ?rep ?p ?t ?r] =>
      destruct (Cache.cache_search_results h q l rep p t r) as [o3 r3] eqn:Hput
  end.
  apply cache_search_results_store in Hput as [[b ->] _]. by eexists.
Qed.

(** What a call leaves of a state [w0]: the store still does not fail if it
    did not, the collection and its reachability are those of [w0], and so
    is every key outside the BM25 prefix. *)
Definition framed (w0 w : world embedding) : Prop :=
  (Cache.faults (redis _ w0) = [] -> Cache.faults (redis _ w) = []) /\
  collection _ w = collection _ w0 /\
  chroma_up _ w = chroma_up _ w0 /\
  (forall key, String.prefix Cache.bm25_prefix key = false ->
     Cache.db (redis _ w) !! key = Cache.db (redis _ w0) !! key).

Lemma framed_refl (w : world embedding) : framed w w.
Proof. by repeat split. Qed.

Lemma framed_set_svc (w0 w : world embedding) (s : service) :
  framed w0 w -> framed w0 (set_svc _ s w).
Proof. by intros (? & ? & ? & ?). Qed.

Lemma framed_cached_bm25 (w0 : world embedding) (L : Z) :
  hoare (framed w0) (cache _ (Cache.get_cached_bm25_index L)) (fun _ w => framed w0 w).
Proof.
  apply hoare_zoom. intros w (Hf & Hc & Hu & Hk) o r' Hrun.
  pose proof Hrun as Hdb. apply get_cached_bm25_index_store in Hdb as [Hdb _].
  split; [|split; [done|split; [done|]]]; simpl.
  - intros H0. specialize (Hf H0). rewrite reliable_get_bm25 in Hrun by done.
    by injection Hrun as _ <-.
  - intros key Hp. rewrite Hdb. by apply Hk.
Qed.

Lemma framed_cache_bm25 (w0 : world embedding) (L : Z) (data : bm25_data) :
  hoare (framed w0) (cache _ (Cache.cache_bm25_index L data None)) (fun _ w => framed w0 w).
Proof.
  apply hoare_zoom. intros w (Hf & Hc & Hu & Hk) o r' Hrun.
  pose proof Hrun as Hdb. apply cache_bm25_index_store in Hdb as [_ Hdb].
  split; [|split; [done|split; [done|]]]; simpl.
  - intros H0. specialize (Hf H0). rewrite reliable_put_bm25 in Hrun by done.
    by injection Hrun as _ <-.
  - intros key Hp. destruct Hdb as [->| ->]; [by apply Hk|].
    rewrite lookup_insert_ne; [by apply Hk|]. intros <-.
    by rewrite bm25_key_prefix in Hp.
Qed.

(** Building or adopting the index touches, of everything outside the
    process, the BM25 keys of the cache store only. *)
Lemma ensure_framed (L : Z) (w0 : world embedding) :
  hoare (framed w0) (ensure L) (fun _ w => framed w0 w).
Proof.
  unfold _ensure_bm25_initialized.
  apply hoare_try with (H := fun _ w => framed w0 w).
  - apply hoare_bind with (R := fun w1 w => w = w1 /\ framed w0 w).
    { apply hoare_get. done. }
    intros w1. destruct (_bm25_initialized (svc _ w1)).
    { apply hoare_ret. by intros w [-> Hw]. }
    apply hoare_bind with (R := fun _ w => framed w0 w).
    { eapply hoare_weaken; [apply framed_cached_bm25 | by intros w [_ Hw] |].
      by intros [c|e] w Hw. }
    intros [data|].
    + apply hoare_bind with (R := fun w2 w => w = w2 /\ framed w0 w).
      { apply hoare_get. done. }
      intros w2. apply hoare_put. intros w [-> Hw]. by apply framed_set_svc.
    + apply hoare_bind with (R := fun _ w => framed w0 w).
      { intros w Hw. unfold collection_get. by destruct (chroma_up _ w). }
      intros all. destruct all as [|r0 all'].
      * apply hoare_bind with (R := fun w2 w => w = w2 /\ framed w0 w).
        { apply hoare_get. done. }
        intros w2. apply hoare_put. intros w [-> Hw]. by apply framed_set_svc.
      * apply hoare_bind with (R := fun w2 w => w = w2 /\ framed w0 w).
        { apply hoare_get. done. }
        intros w2.
        apply hoare_bind with (R := fun _ w => framed w0 w).
        { apply hoare_put. intros w [-> Hw]. by apply framed_set_svc. }
        intros _.
        apply hoare_bind with (R := fun _ w => framed w0 w).
        { eapply hoare_weaken; [apply framed_cache_bm25 | done |]. by intros [b|e] w Hw. }
        intros _.
        apply hoare_bind with (R := fun w3 w => w = w3 /\ framed w0 w).
        { apply hoare_get. done. }
        intros w3. apply hoare_put. intros w [-> Hw]. by apply framed_set_svc.
  - intros e. apply hoare_bind with (R := fun w1 w => w = w1 /\ framed w0 w).
    { apply hoare_get. done. }
    intros w1. apply hoare_put. intros w [-> Hw]. by apply framed_set_svc.
Qed.

Lemma set_redis_same (w : world embedding) : set_redis _ (redis _ w) w = w.
Proof. by destruct w. Qed.

(** On a store that does not fail: a call that finds the report returns it
    and changes nothing. *)
Lemma hybrid_search_hit (query : string) (L top_k rerank_top_k : Z)
    (vector_weight bm25_weight : Q) (w : world embedding) (rep : report) :
  Cache.faults (redis _ w) = [] ->
  cached_report
    (Cache.db (redis _ w) !!
       Cache._generate_search_cache_key cache_hash query L
         (Some (SearchParams top_k rerank_top_k vector_weight bm25_weight))) = Some rep ->
  search query L top_k rerank_top_k vector_weight bm25_weight w = (Return rep, w).
Proof.
  intros Hf Hk. unfold hybrid_search, bind, cache, zoom.
  rewrite reliable_get_search by done. rewrite Hk. by rewrite set_redis_same.
Qed.

(** On a store that does not fail: a call that does not find the report
    computes one and leaves it under the key. *)
Lemma hybrid_search_miss (query : string) (L top_k rerank_top_k : Z)
    (vector_weight bm25_weight : Q) (w : world embedding) :
  Cache.faults (redis _ w) = [] ->
  cached_report
    (Cache.db (redis _ w) !!
       Cache._generate_search_cache_key cache_hash query L
         (Some (SearchParams top_k rerank_top_k vector_weight bm25_weight))) = None ->
  exists rep w',
    (search query L top_k rerank_top_k vector_weight bm25_weight w).1 = Return rep /\
    from_cache rep = false /\
    (search query L top_k rerank_top_k vector_weight bm25_weight w).2 = w' /\
    Cache.faults (redis _ w') = [] /\
    cached_report
      (Cache.db (redis _ w') !!
         Cache._generate_search_cache_key cache_hash query L
           (Some (SearchParams top_k rerank_top_k vector_weight bm25_weight)))
    = Some (set_from_cache true rep).
Proof.
  intros Hf Hk. unfold hybrid_search, bind, cache, zoom.
  rewrite reliable_get_search by done. rewrite Hk, set_redis_same.
  pose proof (ensure_returns L w) as He.
  pose proof (ensure_framed L w w (framed_refl w)) as (Hf2 & _).
  destruct (ensure L w) as [o2 w2]. simpl in He, Hf2. subst o2.
  destruct (vector_search_pure query L top_k w2) as [vs ->].
  unfold get_state. rewrite reliable_put_search by auto. simpl.
  eexists _, _. split; [done|]. split; [done|]. split; [done|]. split; [done|].
  simpl. by rewrite lookup_insert_eq.
Qed.

(** A query that is repeated is answered from the cache: on a cache store
    that does not fail, the second of two calls with the same query, level
    and parameters returns the report of the first one, marked as cached,
    and changes neither the index in the process nor the collection. *)
Theorem hybrid_search_repeat_is_cached (query : string) (L top_k rerank_top_k : Z)
    (vector_weight bm25_weight : Q) (w : world embedding) :
  Cache.faults (redis _ w) = [] ->
  let first := search query L top_k rerank_top_k vector_weight bm25_weight w in
  let second := search query L top_k rerank_top_k vector_weight bm25_weight first.2 in
  exists rep,
    first.1 = Return rep /\
    second.1 = Return (set_from_cache true rep) /\
    second.2 = first.2.
Proof.
  intros Hf first second. subst first second.
  destruct (cached_report
              (Cache.db (redis _ w) !!
                 Cache._generate_search_cache_key cache_hash query L
                   (Some (SearchParams top_k rerank_top_k vector_weight bm25_weight))))
    as [rep|] eqn:Hk.
  - rewrite (hybrid_search_hit _ _ _ _ _ _ _ rep Hf Hk). simpl.
    rewrite (hybrid_search_hit _ _ _ _ _ _ _ rep Hf Hk). simpl.
    exists rep. split; [done|]. split; [|done].
    unfold cached_report in Hk. destruct (_ !! _) as [[[r| |] ?]|]; try done.
    by injection Hk as <-.
  - destruct (hybrid_search_miss _ _ _ _ _ _ _ Hf Hk) as (rep & w' & H1 & Hc & H2 & Hf' & Hk').
    rewrite H1, H2. rewrite (hybrid_search_hit _ _ _ _ _ _ _ _ Hf' Hk'). by exists rep.
Qed.



End SearchBehaviour.

Lemma hybrid_search_repeat_is_cached_witness :
  exists rep,
    (scenario_search "alpha" 50 scenario_world).1 = Eff.Return rep /\
    (scenario_search "alpha" 50 (scenario_search "alpha" 50 scenario_world).2).1
      = Eff.Return (Retrieval.set_from_cache true rep).
Proof.
  destruct (hybrid_search_repeat_is_cached Q scenario_embed scenario_distance
              scenario_expand Tokenizer.ascii_normal_form [] scenario_scores scenario_rerank
              scenario_hash "alpha"%string 50 30 10 0.7%Q 0.3%Q scenario_world eq_refl)
    as (rep & H1 & H2 & _).
  exists rep. split; [exact H1 | exact H2].
Defined.


(** ** [tasks.py]: the retrieval tasks beside the hybrid search *)

Module Queries.
Import Retrieval Eff.

Section Worker.
Variable embedding : Type.
(** [embedding_service.generate_query_embedding] ([None]: it raises), the
    vector store's distance and [reranking_service.rerank_results]. *)
Variable generate_query_embedding : string -> option embedding.
Variable distance : embedding -> embedding -> Q.
Variable reranking_service : string -> list string -> Z -> option (list RerankerServer.item).

(** An entry of [formatted_results]. *)
Record formatted := Formatted {
  text : string;
  formatted_metadata : metadata;
  similarity_score : Q;
  formatted_rank : Z
}.

(** The answer of [query_knowledge_base] (model information and metrics are
    left out). *)
Record kb_report := KbReport {
  kb_success : bool;
  kb_query : string;
  kb_access_level : Z;
  total_found : nat;
  kb_results : list formatted
}.

Definition format_result (e : Z * (Search.stored embedding * Q)) : formatted :=
  let '(i, (r, d)) := e in
  Formatted (Search.stored_document _ r) (Search.stored_metadata _ r) (1 - d)%Q (i + 1).

(** [query_knowledge_base]; [Raise] is the exception [self.retry] raises. *)
Definition query_knowledge_base (query : string) (access_level top_k : Z)
  : M (Search.world embedding) kb_report :=
  try_except
    (match generate_query_embedding query with
     | None => raise ServiceError
     | Some query_embedding =>
         do found <- Search.collection_query _ distance query_embedding top_k access_level ;
         let formatted_results := map format_result (Py.enumerate found) in
         ret (KbReport true query access_level (length formatted_results)
                formatted_results)
     end)
    (fun exc => raise exc).

(** An entry of [sources]. *)
Record source := Source {
  chunk_id : string;
  document_title : string;
  source_chunk_index : Z;
  source_access_level : Z;
  source_similarity : Q;
  source_rerank_score : Q;
  source_text : string
}.

(** The answer of [rag_query]: [reranked_count] and [best_relevance_score]
    are absent from the answer given when nothing was found (the context
    text, assembled from the sources, and the model information are left
    out). *)
Record rag_report := RagReport {
  rag_success : bool;
  sources : list source;
  rag_total_found : nat;
  reranked_count : option nat;
  best_relevance_score : option Q
}.

Definition unknown_title : string := "Неизвестный документ".

(** The loop over [enumerate(filtered_results)]; [None] is the [IndexError]
    of [metadatas[original_index]] or [distances[original_index]]. *)
Fixpoint build_sources (access_level : Z) (metadatas : list metadata) (distances : list Q)
    (i : Z) (reranked : list RerankerServer.item) : option (list source) :=
  match reranked with
  | [] => Some []
  | rerank_result :: rest =>
      let original_index := RerankerServer.index rerank_result in
      m ← Py.index metadatas original_index;
      d ← Py.index distances original_index;
      tail ← build_sources access_level metadatas distances (i + 1) rest;
      Some (Source (default "unknown" (doc_id m) +:+ "_" +:+
                      pretty (default i (chunk_index m)))
                   (default unknown_title (doc_title m))
                   (default i (chunk_index m))
                   (default access_level (Retrieval.access_level m))
                   (1 - d)%Q
                   (RerankerServer.score rerank_result)
                   (RerankerServer.document rerank_result) :: tail)
  end.

(** [rag_query]: the 30 nearest chunks within the level, reranked to 10. *)
Definition rag_query (query : string) (access_level : Z)
  : M (Search.world embedding) rag_report :=
  try_except
    (match generate_query_embedding query with
     | None => raise ServiceError
     | Some query_embedding =>
         do found <- Search.collection_query _ distance query_embedding 30 access_level ;
         match found with
         | [] => ret (RagReport true [] 0 None None)
         | _ =>
           let documents := map (fun rd => Search.stored_document _ rd.1) found in
           let metadatas := map (fun rd => Search.stored_metadata _ rd.1) found in
           let distances := map snd found in
           match reranking_service query documents 10 with
           | None => raise ServiceError
           | Some [] => ret (RagReport true [] (length documents) (Some O) None)
           | Some (best :: others) =>
               let reranked_results := best :: others in
               match build_sources access_level metadatas distances 0 reranked_results with
               | None => raise LookupError
               | Some sources =>
                   ret (RagReport true sources (length documents)
                          (Some (length reranked_results))
                          (Some (RerankerServer.score best)))
               end
           end
         end
     end)
    (fun exc => raise exc).

End Worker.

End Queries.

Section QueriesFacts.
Import Retrieval Eff Queries.
Variable embedding : Type.
Variable generate_query_embedding : string -> option embedding.
Variable distance : embedding -> embedding -> Q.
Variable reranking_service : string -> list string -> Z -> option (list RerankerServer.item).

(** What the vector store answers to a query at a level. *)
Lemma collection_query_found (e : embedding) (n L : Z) (w : Search.world embedding) :
  match (Search.collection_query _ distance e n L w).1 with
  | Return found =>
      Forall (fun rd : Search.stored embedding * Q =>
                rd.1 ∈ Search.collection _ w /\ Search.where_lte _ L rd.1 = true) found /\
      Z.of_nat (length found) <= n
  | Raise _ => Search.chroma_up _ w = false \/ n <= 0
  end /\
  (Search.collection_query _ distance e n L w).2 = w.
Proof.
  unfold Search.collection_query.
  destruct (Search.chroma_up _ w) eqn:Hup; simpl; [|split; [by left | done]].
  destruct (0 <? n) eqn:Hn; simpl; [|split; [right; lia | done]].
  split; [|done]. split.
  - apply Forall_forall. intros [r d] Hr. simpl.
    apply subseteq_take, sort_desc_elem in Hr.
    apply list_elem_of_In, in_map_iff in Hr as (r' & [= <- _] & Hr').
    apply filter_In in Hr' as [Hin Hr']. split; [by apply list_elem_of_In | done].
  - rewrite length_take. lia.
Qed.

(** [query_knowledge_base] fails only when the embedding service raises, the
    vector store cannot be reached or [top_k] is not positive.  Otherwise it
    answers with at most [top_k] chunks, every one of them with an access
    level of at most the caller's, ranked from 1 in the order of the store,
    and [total_found] counts them; it changes nothing. *)
Theorem query_knowledge_base_access_filter (query : string) (L top_k : Z)
    (w : Search.world embedding) :
  let run := query_knowledge_base _ generate_query_embedding distance query L top_k w in
  match run.1 with
  | Return rep =>
      Forall (fun f => exists a, access_level (formatted_metadata f) = Some a /\ a <= L)
             (kb_results rep) /\
      total_found rep = length (kb_results rep) /\
      Z.of_nat (total_found rep) <= top_k /\
      (forall i f, kb_results rep !! i = Some f -> formatted_rank f = Z.of_nat i + 1)
  | Raise _ =>
      generate_query_embedding query = None \/ Search.chroma_up _ w = false \/ top_k <= 0
  end /\
  run.2 = w.
Proof.
  cbv zeta. unfold query_knowledge_base, try_except, bind, ret, raise.
  destruct (generate_query_embedding query) as [e|]; [|split; [by left | done]].
  pose proof (collection_query_found e top_k L w) as [Hfound Hw].
  destruct (Search.collection_query _ distance e top_k L w) as [[found|err] w1];
    simpl in *; subst w1; (split; [|done]); [|tauto].
  destruct Hfound as [Hok Hlen]. split; [|split; [done|split]].
  - apply Forall_map, Forall_forall. intros [i [r d]] Hin. simpl.
    assert ((r, d) ∈ found) as Hrd.
    { rewrite <- (enumerate_from_snd 0 found).
      apply list_elem_of_In, in_map_iff. exists (i, (r, d)). split; [done|].
      by apply list_elem_of_In. }
    rewrite Forall_forall in Hok. destruct (Hok _ Hrd) as [_ Hlte]. simpl in Hlte.
    unfold Search.where_lte in Hlte. destruct (access_level _) as [a|]; [|done].
    exists a. split; [done | lia].
  - unfold Py.enumerate. by rewrite length_map, enumerate_from_length.
  - intros i f. unfold Py.enumerate. rewrite list_lookup_fmap, enumerate_from_lookup.
    destruct (found !! i) as [[r d]|]; simpl; [|done]. intros [= <-]. simpl. lia.
Qed.

Lemma build_sources_levels (L : Z) (metadatas : list metadata) (distances : list Q)
    (i : Z) (reranked : list RerankerServer.item) (out : list source) :
  Forall (fun m => exists a, access_level m = Some a /\ a <= L) metadatas ->
  build_sources L metadatas distances i reranked = Some out ->
  Forall (fun s => source_access_level s <= L) out /\ length out = length reranked.
Proof.
  intros Hm. revert i out. induction reranked as [|rr rest IH]; intros i out; simpl.
  - intros [= <-]. by split.
  - destruct (Py.index metadatas _) as [m|] eqn:Em; simpl; [|done].
    destruct (Py.index distances _) as [d|]; simpl; [|done].
    destruct (build_sources L metadatas distances (i + 1) rest) as [tail|] eqn:Et;
      simpl; [|done].
    intros [= <-]. destruct (IH _ _ Et) as [Hall Hlen]. split; [|simpl; by rewrite Hlen].
    constructor; [|done]. simpl.
    apply py_index_elem in Em. rewrite Forall_forall in Hm.
    destruct (Hm m Em) as (a & -> & Ha). done.
Qed.

Lemma py_index_map {A B : Type} (f : A -> B) (xs : list A) (i : Z) :
  Py.index (map f xs) i = f <$> Py.index xs i.
Proof.
  unfold Py.index. rewrite length_map.
  destruct (0 <=? i); [by rewrite list_lookup_fmap|].
  destruct (_ <=? i); [by rewrite list_lookup_fmap | done].
Qed.

Lemma build_sources_fails (L : Z) (found : list (Search.stored embedding * Q)) (i : Z)
    (reranked : list RerankerServer.item) :
  build_sources L (map (fun rd => Search.stored_metadata _ rd.1) found) (map snd found)
                i reranked = None ->
  exists it, it ∈ reranked /\ Py.index found (RerankerServer.index it) = None.
Proof.
  revert i. induction reranked as [|rr rest IH]; intros i; simpl; [done|].
  rewrite !py_index_map.
  destruct (Py.index found (RerankerServer.index rr)) as [rd|] eqn:E; simpl.
  - destruct (build_sources L _ _ (i + 1) rest) as [tail|] eqn:Et; simpl; [done|].
    intros _. destruct (IH _ Et) as (it & Hin & Hit). exists it. split; [by right | done].
  - intros _. exists rr. split; [by left | done].
Qed.

(** Whatever the reranker answers, every source [rag_query] returns carries
    an access level of at most the caller's; there is one source for each
    reranked entry, at most 30 chunks are found, and nothing is changed.
    The task fails only when the embedding service or the reranker raises,
    the vector store cannot be reached, or the reranker names an index
    outside the chunks found. *)
Theorem rag_query_access_filter (query : string) (L : Z) (w : Search.world embedding) :
  let run := rag_query _ generate_query_embedding distance reranking_service query L w in
  match run.1 with
  | Return rep =>
      Forall (fun s => source_access_level s <= L) (sources rep) /\
      (forall n, reranked_count rep = Some n -> length (sources rep) = n) /\
      (rag_total_found rep <= 30)%nat
  | Raise _ =>
      generate_query_embedding query = None \/ Search.chroma_up _ w = false \/
      (exists documents, reranking_service query documents 10 = None) \/
      (exists documents reranked it,
         reranking_service query documents 10 = Some reranked /\ it ∈ reranked /\
         (RerankerServer.index it < - Z.of_nat (length documents) \/
          Z.of_nat (length documents) <= RerankerServer.index it))
  end /\
  run.2 = w.
Proof.
  cbv zeta. unfold rag_query, try_except, bind, ret, raise.
  destruct (generate_query_embedding query) as [e|]; [|split; [by left | done]].
  pose proof (collection_query_found e 30 L w) as [Hfound Hw].
  destruct (Search.collection_query _ distance e 30 L w) as [[found|err] w1];
    cbn [fst snd] in *; subst w1; [|split; [|done]; right; left; by destruct Hfound as [?|?]].
  destruct Hfound as [Hok Hlen].
  destruct found as [|rd0 found'] eqn:Ef.
  { simpl. split; [|done]. split; [done|]. split; [done | lia]. }
  rewrite <- Ef in *. clear Ef rd0 found'.
  destruct (reranking_service query _ 10) as [[|best others]|] eqn:Er.
  - simpl. split; [|done]. split; [done|]. split; [by intros n [= <-]|].
    rewrite length_map. lia.
  - match goal with
    | |- context [build_sources L ?ms ?ds 0 (best :: others)] =>
        destruct (build_sources L ms ds 0 (best :: others)) as [srcs|] eqn:Eb
    end.
    + apply build_sources_levels in Eb as [Hall Hn].
      * simpl. split; [|done]. split; [done|]. split; [by intros n [= <-]|].
        rewrite length_map. lia.
      * apply Forall_map. eapply Forall_impl; [exact Hok|]. intros [r d] [_ Hlte].
        simpl in *. unfold Search.where_lte in Hlte.
        destruct (access_level _) as [a|]; [|done]. exists a. split; [done | lia].
    + split; [|done]. simpl. right. right. right.
      apply build_sources_fails in Eb as (it & Hin & Hit).
      eexists _, _, it. split; [exact Er|]. split; [done|].
      rewrite length_map. unfold Py.index in Hit.
      destruct (0 <=? RerankerServer.index it) eqn:E0.
      * apply lookup_ge_None in Hit. apply Z.leb_le in E0. right. lia.
      * apply Z.leb_gt in E0. destruct (_ <=? RerankerServer.index it) eqn:E1.
        -- apply Z.leb_le in E1. apply lookup_ge_None in Hit. lia.
        -- apply Z.leb_gt in E1. left. lia.
  - split; [|done]. simpl. right. right. left. by eexists.
Qed.

End QueriesFacts.

(** ** The write paths and the vector store *)

Section WriteStore.
Import Retrieval Eff Tasks.
Variable embedding : Type.

(** A computation whose final state is related to its initial state. *)
Definition steps {A : Type} (R : system embedding -> system embedding -> Prop)
    (m : M (system embedding) A) : Prop :=
  forall s, R s (m s).2.

Section Steps.
Variable R : system embedding -> system embedding -> Prop.
Hypothesis R_refl : forall s, R s s.
Hypothesis R_trans : forall s1 s2 s3, R s1 s2 -> R s2 s3 -> R s1 s3.




Lemma steps_try {A : Type} (m : M (system embedding) A) (h : exn -> M (system embedding) A) :
  steps R m -> (forall e, steps R (h e)) -> steps R (try_except m h).
Proof.
  intros Hm Hh s. unfold try_except. specialize (Hm s).
  destruct (m s) as [[a|e] s1]; simpl in *; [done|]. eapply R_trans; [exact Hm | apply Hh].
Qed.

End Steps.







(** The chunks of a document. *)
Definition of_document (doc : string) (r : Search.stored embedding) : bool :=
  bool_decide (doc_id (Search.stored_metadata _ r) = Some doc).





(** [delete_document] removes the chunks of the document and no other,
    answers with their number, and a second call finds nothing left to
    remove; with the vector store out of reach it answers with a failure and
    changes nothing. *)
Theorem delete_document_exact (doc : string) (s : system embedding) :
  let run := delete_document _ doc s in
  if Search.chroma_up _ (world _ s) then
    run.1 = Return (true, length (List.filter (of_document doc)
                                              (Search.collection _ (world _ s)))) /\
    Search.collection _ (world _ run.2)
      = List.filter (fun r => negb (of_document doc r)) (Search.collection _ (world _ s)) /\
    (delete_document _ doc run.2).1 = Return (true, O) /\
    Search.collection _ (world _ (delete_document _ doc run.2).2)
      = Search.collection _ (world _ run.2)
  else run.1 = Return (false, O) /\ run.2 = s.
Proof.
  cbv zeta. unfold delete_document, try_except, bind, delete_document_chunks, ret.
  destruct (Search.chroma_up _ (world _ s)) eqn:Hup; simpl; [|done].
  rewrite Hup. simpl. split; [done|]. split; [done|].
  assert (forall l : list (Search.stored embedding),
            List.filter (of_document doc) (List.filter (fun r => negb (of_document doc r)) l)
            = []) as Hnone.
  { intros l. induction l as [|r l IH]; simpl; [done|].
    destruct (of_document doc r) eqn:E; simpl; [done|]. by rewrite E. }
  assert (forall l : list (Search.stored embedding),
            List.filter (fun r => negb (of_document doc r))
                        (List.filter (fun r => negb (of_document doc r)) l)
            = List.filter (fun r => negb (of_document doc r)) l) as Hidem.
  { intros l. induction l as [|r l IH]; simpl; [done|].
    destruct (of_document doc r) eqn:E; simpl; [done|]. by rewrite E, IH. }
  unfold of_document in *. by rewrite Hnone, Hidem.
Qed.

End WriteStore.

(** ** [SearchService.batch_hybrid_search] *)

Module Batch.
Import Retrieval Eff Search.

(** An element of [batch_results]; the result is [None] for the dictionary
    [{"success": False, "error": ...}] of a query whose processing raised. *)
Record batch_entry := BatchEntry {
  query_index : Z;
  entry_query : string;
  entry_result : option report
}.

(** The dictionary [batch_hybrid_search] returns, without its timings. *)
Record batch_report := BatchReport {
  batch_success : bool;
  batch_size : nat;
  processed_queries : nat;
  cache_hits : nat;
  cache_hit_rate : Q;
  batch_results : list batch_entry
}.

Section Service.
Variable embedding : Type.
Variable generate_query_embedding : string -> option embedding.
Variable distance : embedding -> embedding -> Q.
Variable expand_query_smart : string -> option expansion.
Variable normal_form : Tokenizer.text -> option Tokenizer.text.
Variable russian_stop_words : list Tokenizer.text.
Variable get_scores : list (list string) -> list string -> list Q.
Variable reranking_service : string -> list string -> Z -> option (list RerankerServer.item).
Variable cache_hash : string -> Z -> option search_params -> string.

(** The body of the loop over [enumerate(queries)], with its own handler. *)
Definition batch_query (access_level top_k rerank_top_k : Z) (vector_weight bm25_weight : Q)
    (acc : list batch_entry * nat) (iq : Z * string)
  : M (world embedding) (list batch_entry * nat) :=
  let '(batch_results, cache_hits) := acc in
  let '(i, query) := iq in
  try_except
    (let search_params :=
       Some (SearchParams top_k rerank_top_k vector_weight bm25_weight) in
     do cached_result <- cache _ (Cache.get_cached_search_results cache_hash
                                    query access_level search_params) ;
     match cached_result with
     | Some cached =>
         ret (batch_results ++ [BatchEntry i query (Some cached)], S cache_hits)
     | None =>
         do result <- hybrid_search _ generate_query_embedding distance expand_query_smart
                        normal_form russian_stop_words get_scores reranking_service
                        cache_hash query access_level top_k rerank_top_k
                        vector_weight bm25_weight ;
         ret (batch_results ++ [BatchEntry i query (Some result)], cache_hits)
     end)
    (fun _ => ret (batch_results ++ [BatchEntry i query None], cache_hits)).

Fixpoint batch_loop (access_level top_k rerank_top_k : Z) (vector_weight bm25_weight : Q)
    (queries : list (Z * string)) (acc : list batch_entry * nat)
  : M (world embedding) (list batch_entry * nat) :=
  match queries with
  | [] => ret acc
  | iq :: rest =>
      do acc' <- batch_query access_level top_k rerank_top_k vector_weight bm25_weight
                   acc iq ;
      batch_loop access_level top_k rerank_top_k vector_weight bm25_weight rest acc'
  end.

(** [batch_hybrid_search]; its handler raises what it caught. *)
Definition batch_hybrid_search (queries : list string)
    (access_level top_k rerank_top_k : Z) (vector_weight bm25_weight : Q)
  : M (world embedding) batch_report :=
  do _ <- _ensure_bm25_initialized _ normal_form russian_stop_words access_level ;
  do out <- batch_loop access_level top_k rerank_top_k vector_weight bm25_weight
              (Py.enumerate queries) ([], O) ;
  let '(batch_results, cache_hits) := out in
  ret (BatchReport true (length queries) (length batch_results) cache_hits
         (match queries with
          | [] => 0
          | _ => inject_Z (Z.of_nat cache_hits) / inject_Z (Z.of_nat (length queries))
          end)%Q
         batch_results).

End Service.

End Batch.

Section BatchFacts.
Import Retrieval Eff Search Batch.
Variable embedding : Type.
Variable generate_query_embedding : string -> option embedding.
Variable distance : embedding -> embedding -> Q.
Variable expand_query_smart : string -> option expansion.
Variable normal_form : Tokenizer.text -> option Tokenizer.text.
Variable russian_stop_words : list Tokenizer.text.
Variable get_scores : list (list string) -> list string -> list Q.
Variable reranking_service : string -> list string -> Z -> option (list RerankerServer.item).
Variable cache_hash : string -> Z -> option search_params -> string.
Variables (L top_k rerank_top_k : Z) (vector_weight bm25_weight : Q).

Local Abbreviation search :=
  (hybrid_search embedding generate_query_embedding distance expand_query_smart normal_form
     russian_stop_words get_scores reranking_service cache_hash).
Local Abbreviation one_query :=
  (batch_query embedding generate_query_embedding distance expand_query_smart normal_form
     russian_stop_words get_scores reranking_service cache_hash
     L top_k rerank_top_k vector_weight bm25_weight).
Local Abbreviation loop :=
  (batch_loop embedding generate_query_embedding distance expand_query_smart normal_form
     russian_stop_words get_scores reranking_service cache_hash
     L top_k rerank_top_k vector_weight bm25_weight).

(** What an entry of the batch says: it holds a report, and a report that
    was computed is the one of the entry's query at the level of the batch. *)
Definition entry_ok (e : batch_entry) : Prop :=
  exists rep, entry_result e = Some rep /\
    (from_cache rep = false ->
     success rep = true /\ Retrieval.query rep = entry_query e /\
     report_access_level rep = L).

Lemma search_returns (query : string) (w : world embedding) :
  exists rep,
    (search query L top_k rerank_top_k vector_weight bm25_weight w).1 = Return rep /\
    (from_cache rep = false ->
     success rep = true /\ Retrieval.query rep = query /\ report_access_level rep = L).
Proof.
  unfold hybrid_search, bind, cache, zoom.
  destruct (Cache.get_cached_search_results _ _ _ _ _) as [o r1] eqn:Hget.
  apply get_cached_search_results_store in Hget as [_ [->|(rep & ttl & _ & ->)]];
    [|by eexists].
  pose proof (ensure_returns _ normal_form russian_stop_words L (set_redis _ r1 w)) as He.
  destruct (_ensure_bm25_initialized _ _ _ L (set_redis _ r1 w)) as [o2 w2].
  simpl in He. subst o2.
  destruct (vector_search_pure _ generate_query_embedding distance query L top_k w2)
    as [vs ->].
  unfold get_state.
  match goal with
  | |- context [Cache.cache_search_results ?h ?q ?l ?rep ?p ?t ?r] =>
      destruct (Cache.cache_search_results h q l rep p t r) as [o3 r3] eqn:Hput
  end.
  apply cache_search_results_store in Hput as [[b ->] _]. by eexists.
Qed.

Lemma batch_query_returns (acc : list batch_entry) (hits : nat) (i : Z) (query : string)
    (w : world embedding) :
  exists e hits',
    (one_query (acc, hits) (i, query) w).1 = Return (acc ++ [e], hits') /\
    query_index e = i /\ entry_query e = query /\ entry_ok e /\
    (hits <= hits' <= S hits)%nat.
Proof.
  unfold batch_query, try_except, bind, cache, zoom.
  destruct (Cache.get_cached_search_results _ _ _ _ _) as [o r1] eqn:Hget.
  apply get_cached_search_results_store in Hget as [_ [->|(rep & ttl & _ & ->)]].
  - destruct (search_returns query (set_redis _ r1 w)) as (rep & Hrun & Hrep).
    destruct (search _ _ _ _ _ _ _) as [o2 w2]. simpl in Hrun. subst o2. simpl.
    eexists _, _. split; [done|]. split; [done|]. split; [done|].
    split; [by exists rep | lia].
  - simpl. eexists _, _. split; [done|]. split; [done|]. split; [done|].
    split; [by eexists | lia].
Qed.

Lemma batch_loop_returns (queries : list (Z * string)) (acc : list batch_entry)
    (hits : nat) (w : world embedding) :
  exists new hits',
    (loop queries (acc, hits) w).1 = Return (acc ++ new, hits') /\
    map (fun e => (query_index e, entry_query e)) new = queries /\
    Forall entry_ok new /\
    (hits <= hits' <= hits + length queries)%nat.
Proof.
  revert acc hits w. induction queries as [|[i query] rest IH]; intros acc hits w.
  - exists [], hits. simpl. rewrite app_nil_r. repeat split; [constructor | lia | lia].
  - cbn [batch_loop]. unfold bind at 1.
    destruct (batch_query_returns acc hits i query w) as (e & h1 & Hrun & Hi & Hq & He & Hh).
    destruct (one_query (acc, hits) (i, query) w) as [o1 w1]. simpl in Hrun. subst o1.
    destruct (IH (acc ++ [e]) h1 w1) as (new & h2 & Hrun & Hmap & Hall & Hh2).
    exists (e :: new), h2. rewrite <- app_assoc in Hrun. split; [exact Hrun|].
    split; [simpl; by rewrite Hi, Hq, Hmap|]. split; [by constructor|]. simpl. lia.
Qed.

(** A batch never fails as a whole and never skips a query: whatever the
    stores and the collaborators do, [batch_hybrid_search] returns, with one
    entry for each query, in the order of the queries, each with its index
    and its query and with a report; a report that was computed rather than
    read from the cache is a success for that query at the level of the
    batch.  The hits counted are at most the queries, so the hit rate lies
    between 0 and 1. *)
Theorem batch_hybrid_search_entries (queries : list string) (w : world embedding) :
  exists rep,
    (batch_hybrid_search embedding generate_query_embedding distance expand_query_smart
       normal_form russian_stop_words get_scores reranking_service cache_hash
       queries L top_k rerank_top_k vector_weight bm25_weight w).1 = Return rep /\
    batch_success rep = true /\
    batch_size rep = length queries /\
    processed_queries rep = length queries /\
    map (fun e => (query_index e, entry_query e)) (batch_results rep)
      = Py.enumerate queries /\
    Forall entry_ok (batch_results rep) /\
    (cache_hits rep <= length queries)%nat /\
    (0 <= cache_hit_rate rep <= 1)%Q.
Proof.
  unfold batch_hybrid_search, bind.
  pose proof (ensure_returns _ normal_form russian_stop_words L w) as He.
  destruct (_ensure_bm25_initialized _ _ _ L w) as [o1 w1]. simpl in He. subst o1.
  destruct (batch_loop_returns (Py.enumerate queries) [] O w1)
    as (new & hits & Hrun & Hmap & Hall & Hh).
  destruct (loop (Py.enumerate queries) ([], O) w1) as [o2 w2]. simpl in Hrun. subst o2.
  simpl. assert (length new = length queries) as Hlen.
  { rewrite <- (length_map (fun e => (query_index e, entry_query e)) new), Hmap.
    apply enumerate_from_length. }
  assert (hits <= length queries)%nat as Hhits.
  { rewrite <- (enumerate_from_length 0 queries). unfold Py.enumerate in Hh. lia. }
  eexists. split; [done|]. simpl. repeat split; try done.
  - destruct queries as [|q qs]; [done|].
    apply Qle_shift_div_l; [reflexivity|]. unfold Qle. simpl. lia.
  - destruct queries as [|q qs]; [done|].
    apply Qle_shift_div_r; [reflexivity|]. unfold Qle. simpl in *. lia.
Qed.

End BatchFacts.

(** ** [services/query_expansion_service.py]: synonyms for the lexical leg *)

Module QueryExpansion.

(** The dictionary [expand_query] returns, with the two keys
    [expand_query_smart] adds ([None] while they are absent). *)
Record expansion_result := ExpansionResult {
  original_query : string;
  expanded_query : string;
  found_synonyms : Py.dict (list string);
  expansion_terms : list string;
  terms_expanded : nat;
  synonyms_added : nat;
  expansion_applied : bool;
  expansion_strategy : option string;
  max_synonyms_used : option Z
}.

(** [sep.join(xs)] *)
Fixpoint join (sep : string) (xs : list string) : string :=
  match xs with
  | [] => ""
  | x :: xs' =>
      match xs' with
      | [] => x
      | _ :: _ => x +:+ sep +:+ join sep xs'
      end
  end.

(** [needle in hay] on strings, for a needle that is not empty. *)
Definition contains (needle hay : string) : bool :=
  match String.index 0 needle hay with
  | Some _ => true
  | None => false
  end.

Section Service.
(** [str.lower]; the list [re.findall(r'\b\w{2,}\b', s)]; the synonyms file
    as loaded, a dictionary from terms to lists of synonyms (empty when the
    file is missing or unreadable); and the order in which a [set] that
    received the given elements is iterated. *)
Variable lower : string -> string.
Variable findall_words : string -> list string.
Variable synonyms_dict : string -> option (list string).
Variable set_order : list string -> list string.

(** The loop of [_extract_terms] over [range(len(words) - 1)]: at each
    position the bigram, and the trigram while two more words follow. *)
Fixpoint compound_terms (words : list string) : list string :=
  match words with
  | [] => []
  | a :: rest =>
      match rest with
      | [] => []
      | b :: rest' =>
          ((a +:+ " " +:+ b) ::
           match rest' with
           | [] => []
           | c :: _ => [a +:+ " " +:+ b +:+ " " +:+ c]
           end) ++ compound_terms rest
      end
  end.

Definition _extract_terms (query : string) : list string :=
  let words := findall_words (lower query) in
  words ++ compound_terms words.

(** The body of the loop of [expand_query]; the second component is the
    sequence of elements the set [expanded_terms] has received. *)
Definition expand_step (max_synonyms_per_term : Z)
    (st : Py.dict (list string) * list string) (term : string)
  : Py.dict (list string) * list string :=
  match synonyms_dict term with
  | Some all =>
      let synonyms := Py.slice_to max_synonyms_per_term all in
      (Py.dict_set st.1 term synonyms, st.2 ++ synonyms)
  | None => st
  end.

(** [expand_query]; with a dictionary of string lists no statement of its
    [try] block raises. *)
Definition expand_query (query : string) (max_synonyms_per_term : Z) : expansion_result :=
  let terms := _extract_terms query in
  let st := fold_left (expand_step max_synonyms_per_term) terms ([], []) in
  let found_synonyms := st.1 in
  let expanded_terms := set_order st.2 in
  let expanded_query :=
    match expanded_terms with
    | [] => query
    | _ :: _ => query +:+ " " +:+ join " " expanded_terms
    end in
  ExpansionResult query expanded_query found_synonyms expanded_terms
    (length found_synonyms) (length expanded_terms)
    (0 <? length expanded_terms)%nat None None.

Definition tech_terms : list string :=
  ["api"; "база данных"; "программирование"; "разработка"; "сервер"].
Definition biz_terms : list string :=
  ["клиент"; "продажи"; "маркетинг"; "проект"; "документооборот"].
Definition design_terms : list string :=
  ["дизайн"; "макет"; "брендинг"; "логотип"; "креатив"].

(** [expand_query_smart] *)
Definition expand_query_smart (query : string) : expansion_result :=
  let query_lower := lower query in
  let max_synonyms :=
    if existsb (fun tech_term => contains tech_term query_lower) tech_terms then 3
    else if existsb (fun biz_term => contains biz_term query_lower) biz_terms then 2
    else if existsb (fun design_term => contains design_term query_lower) design_terms
         then 2
    else 2 in
  let result := expand_query query max_synonyms in
  ExpansionResult (original_query result) (expanded_query result) (found_synonyms result)
    (expansion_terms result) (terms_expanded result) (synonyms_added result)
    (expansion_applied result) (Some "smart") (Some max_synonyms).

(** What [_bm25_search] reads of the result. *)
Definition for_bm25 (r : expansion_result) : Retrieval.expansion :=
  Retrieval.Expansion (original_query r) (expanded_query r) (expansion_applied r)
    (Z.of_nat (synonyms_added r)).

End Service.

End QueryExpansion.

Section QueryExpansionFacts.
Import QueryExpansion.
Variable lower : string -> string.
Variable findall_words : string -> list string.
Variable synonyms_dict : string -> option (list string).
Variable set_order : list string -> list string.

(** The synonyms one term contributes. *)
Definition synonyms_for (max_synonyms : Z) (term : string) : list string :=
  match synonyms_dict term with
  | Some all => Py.slice_to max_synonyms all
  | None => []
  end.

Lemma expand_step_received (max_synonyms : Z) (terms : list string)
    (found : Py.dict (list string)) (received : list string) :
  (fold_left (expand_step synonyms_dict max_synonyms) terms (found, received)).2
  = received ++ concat (map (synonyms_for max_synonyms) terms).
Proof.
  revert found received. induction terms as [|t terms IH]; intros found received; simpl.
  - by rewrite app_nil_r.
  - destruct (expand_step synonyms_dict max_synonyms (found, received) t)
      as [found' received'] eqn:E.
    rewrite IH. assert (received' = received ++ synonyms_for max_synonyms t) as ->.
    { unfold expand_step, synonyms_for in *.
      destruct (synonyms_dict t); simpl in E; injection E as _ <-;
        [done | by rewrite app_nil_r]. }
    by rewrite <- app_assoc.
Qed.

Lemma received_elem (max_synonyms : Z) (terms : list string) (s : string) :
  0 <= max_synonyms ->
  s ∈ concat (map (synonyms_for max_synonyms) terms) <->
  exists term all, term ∈ terms /\ synonyms_dict term = Some all /\
                   s ∈ take (Z.to_nat max_synonyms) all.
Proof.
  intros Hmax. rewrite list_elem_of_In, in_concat. split.
  - intros (l & Hl & Hs). apply in_map_iff in Hl as (term & <- & Hterm).
    unfold synonyms_for in Hs. destruct (synonyms_dict term) as [all|] eqn:E; [|done].
    exists term, all. split; [by apply list_elem_of_In|]. split; [done|].
    apply list_elem_of_In. unfold Py.slice_to in Hs.
    by destruct (0 <=? max_synonyms) eqn:E2; [|lia].
  - intros (term & all & Hterm & Hall & Hs). exists (synonyms_for max_synonyms term).
    split; [apply in_map, list_elem_of_In, Hterm|].
    unfold synonyms_for. rewrite Hall. unfold Py.slice_to.
    destruct (0 <=? max_synonyms) eqn:E2; [by apply list_elem_of_In | lia].
Qed.

Lemma prefix_self (s : string) : String.prefix s s = true.
Proof. induction s as [|c s IH]; simpl; [done|]. by destruct (ascii_dec c c). Qed.

(** Expansion only appends, and only synonyms of the query's own terms: for
    a set iterated in some order of its elements, the expanded query of
    [expand_query_smart] is the query itself, or the query followed by a
    space and the expansion terms joined by spaces, so the query is always
    its prefix; no expansion term occurs twice; and the expansion terms are
    exactly the first two (three for a technical query) synonyms the
    dictionary lists for a word, bigram or trigram of the query. *)
Theorem expand_query_smart_appends (query : string) :
  (forall received, set_order received ≡ₚ remove_dups received) ->
  let r := expand_query_smart lower findall_words synonyms_dict set_order query in
  let max_synonyms :=
    if existsb (fun tech_term => contains tech_term (lower query)) tech_terms
    then 3 else 2 in
  max_synonyms_used r = Some max_synonyms /\
  original_query r = query /\
  expanded_query r
    = (if expansion_applied r
       then query +:+ " " +:+ join " " (expansion_terms r) else query) /\
  String.prefix query (expanded_query r) = true /\
  NoDup (expansion_terms r) /\
  synonyms_added r = length (expansion_terms r) /\
  (expansion_applied r = true <-> expansion_terms r <> []) /\
  (forall s, s ∈ expansion_terms r <->
     exists term all,
       term ∈ _extract_terms lower findall_words query /\
       synonyms_dict term = Some all /\
       s ∈ take (Z.to_nat max_synonyms) all).
Proof.
  intros Horder. cbv zeta. unfold expand_query_smart.
  match goal with
  | |- context [expand_query _ _ _ _ query ?m] => set (max_synonyms := m)
  end.
  assert (max_synonyms
          = if existsb (fun tech_term => contains tech_term (lower query)) tech_terms
            then 3 else 2) as Hmax.
  { subst max_synonyms. by repeat destruct (existsb _ _). }
  rewrite <- Hmax. clear Hmax.
  assert (0 <= max_synonyms) as Hpos.
  { subst max_synonyms. repeat destruct (existsb _ _); lia. }
  split; [done|]. simpl.
  rewrite expand_step_received. simpl.
  set (terms := _extract_terms lower findall_words query).
  set (received := concat (map (synonyms_for max_synonyms) terms)).
  specialize (Horder received).
  split; [done|].
  split; [by destruct (set_order received)|].
  split; [destruct (set_order received); [apply prefix_self | apply prefix_app]|].
  split; [rewrite Horder; apply NoDup_remove_dups|].
  split; [done|].
  split; [by destruct (set_order received)|].
  intros s. rewrite Horder, elem_of_remove_dups. by apply received_elem.
Qed.

End QueryExpansionFacts.

(** A dictionary with one entry, a query of two words, and a set iterated
    in the order of first insertion. *)
Definition example_words (s : string) : list string :=
  if String.eqb s "api server" then ["api"; "server"] else [].

Definition example_synonyms (term : string) : option (list string) :=
  if String.eqb term "api" then Some ["interface"; "endpoint"; "service"; "rest"]
  else None.

Lemma expand_query_smart_appends_witness :
  QueryExpansion.max_synonyms_used
    (QueryExpansion.expand_query_smart (fun s => s) example_words example_synonyms
       remove_dups "api server") = Some 3 /\
  NoDup (QueryExpansion.expansion_terms
           (QueryExpansion.expand_query_smart (fun s => s) example_words example_synonyms
              remove_dups "api server")).
Proof.
  destruct (expand_query_smart_appends (fun s => s) example_words example_synonyms
              remove_dups "api server" (fun received => reflexivity _))
    as (Hmax & _ & _ & _ & Hnodup & _).
  split; [exact Hmax | exact Hnodup].
Defined.
